(** * OOQ: the simulation core of [src/game.cpp]

    A shallow embedding of the map storage ([MapManager]), the per-entity
    walker ([ObjectWalker]), the entities ([GameObject], [Player]) and the
    world tick ([GameManager]) of the game, followed by the properties of
    the written specification that can be stated over them.

    Conventions of the embedding.
    - C++ [int] values are integers of [Z].  Signed overflow is undefined
      behaviour in C++, so the model follows the executions that are free
      of it; conversions between [int] and the unsigned [size_t] and the
      arithmetic of [uint64_t] wrap around and are written out.
    - A [std::vector] is a [list]; [v.resize(n, x)] is stdpp's [resize].
    - A call that throws, or that would read a vector out of range, or a
      loop that runs out of fuel, yields [None].
    - Drawing goes to an external renderer.  The world tick keeps what
      [setCenter] and [setSize] are given, as fields of [Renderer]; the
      items given to [addRenderItem] are modelled for the two [render]
      functions on their own, not inside the world tick. *)

From stdpp Require Import base tactics option list numbers strings.

Local Open Scope Z_scope.

(** ** Integer conversions *)

(** [uint64_t] arithmetic is modulo 2^64. *)
Definition wrap64 (z : Z) : Z := z `mod` 2 ^ 64.

(** Conversion of an [int] to [size_t] (64 bits), as done by the usual
    arithmetic conversions when an [int] meets a [size_t]. *)
Definition size_t_of_int (x : Z) : Z := x `mod` 2 ^ 64.

(** [v.size() > x] with [v.size()] a [size_t] and [x] an [int]: the
    comparison is unsigned. *)
Definition size_gt_int (n : nat) (x : Z) : bool := size_t_of_int x <? Z.of_nat n.

(** [std::numeric_limits<int>::max()] and [min()]. *)
Definition INT_MAX : Z := 2 ^ 31 - 1.
Definition INT_MIN : Z := - 2 ^ 31.

(** Modelled from the spec: [sgn] is declared outside [game.cpp]; the
    spec describes it as the sign of its argument, one of -1, 0, +1. *)
Definition sgn (z : Z) : Z := Z.sgn z.

(** ** Data model *)

(** A texture handle.  The texture manager is an external collaborator:
    a handle is either the missing-texture placeholder or the texture
    loaded from a path. *)
Inductive Texture : Type :=
  | MissingTexture
  | LoadedTexture (path : string).

(** The [DIR] enumeration, as used by [GameObject::render]. *)
Inductive DIR : Type := UP | LEFT | DOWN | RIGHT.

Global Instance DIR_eq_dec : EqDecision DIR.
Proof. solve_decision. Defined.

Global Instance Texture_eq_dec : EqDecision Texture.
Proof. solve_decision. Defined.

(** [MapManager]: the two parallel vectors of vectors and the spawn. *)
Record MapManager : Type := mkMapManager {
  tile : list (list Texture);
  collision : list (list Z);
  spawn_x : Z;
  spawn_y : Z
}.

(** [ObjectWalker]: destination in pixels, local clock and the two
    deadlines (all three [uint64_t]). *)
Record ObjectWalker : Type := mkObjectWalker {
  dest_x : Z;
  dest_y : Z;
  tick : Z;
  movement_deadline : Z;
  animation_deadline : Z
}.

(** The dynamic class of an object: the base class or a [Player] with its
    [type] field. *)
Inductive ObjectKind : Type :=
  | BaseObject
  | PlayerObject (type : Z).

(** [GameObject].  The walker is owned by the object, so it is a field;
    its back pointer [parent] becomes an argument of the walker's tick. *)
Record GameObject : Type := mkGameObject {
  kind : ObjectKind;
  object_walker : option ObjectWalker;
  current_frame : Z;
  loop_frame : Z;
  end_frame : Z;
  stop_frame : Z;
  dir : DIR;
  camera_center : bool;
  size_x : Z;
  size_y : Z;
  map_x : Z;
  map_y : Z;
  screen_x : Z;
  screen_y : Z
}.

(** The input handler, consumed through its two queries. *)
Record InputHandler : Type := mkInputHandler {
  isPlayer : DIR → bool;
  isPlayer2 : DIR → bool
}.

(** What the renderer remembers of [setCenter] and [setSize]. *)
Record Renderer : Type := mkRenderer {
  center_x : Z;
  center_y : Z;
  width : Z;
  height : Z
}.

Record GameManager : Type := mkGameManager {
  renderer : Renderer;
  map_manager : MapManager;
  objects : list GameObject;
  paused : bool
}.

(** Field updates. *)
Definition with_screen (o : GameObject) (x y : Z) : GameObject :=
  mkGameObject (kind o) (object_walker o) (current_frame o) (loop_frame o)
    (end_frame o) (stop_frame o) (dir o) (camera_center o) (size_x o)
    (size_y o) (map_x o) (map_y o) x y.

Definition with_map (o : GameObject) (x y : Z) : GameObject :=
  mkGameObject (kind o) (object_walker o) (current_frame o) (loop_frame o)
    (end_frame o) (stop_frame o) (dir o) (camera_center o) (size_x o)
    (size_y o) x y (screen_x o) (screen_y o).

Definition with_frame (o : GameObject) (f : Z) : GameObject :=
  mkGameObject (kind o) (object_walker o) f (loop_frame o)
    (end_frame o) (stop_frame o) (dir o) (camera_center o) (size_x o)
    (size_y o) (map_x o) (map_y o) (screen_x o) (screen_y o).

Definition with_dir (o : GameObject) (d : DIR) : GameObject :=
  mkGameObject (kind o) (object_walker o) (current_frame o) (loop_frame o)
    (end_frame o) (stop_frame o) d (camera_center o) (size_x o)
    (size_y o) (map_x o) (map_y o) (screen_x o) (screen_y o).

Definition with_walker (o : GameObject) (w : option ObjectWalker) : GameObject :=
  mkGameObject (kind o) w (current_frame o) (loop_frame o)
    (end_frame o) (stop_frame o) (dir o) (camera_center o) (size_x o)
    (size_y o) (map_x o) (map_y o) (screen_x o) (screen_y o).

(** ** MapManager *)

(** [MapManager::getCollision].  The disjunction is evaluated left to
    right: [pos_x] and [pos_y] are known not to be negative when they are
    compared with a size, so their conversion to [size_t] keeps their
    value, and [collision[pos_x]] is only read once [pos_x] is below
    [collision.size()].  The two reads are checked reads. *)
Definition getCollision (m : MapManager) (pos_x pos_y : Z) : option Z :=
  if (pos_x <? 0) || (pos_y <? 0) || (Z.of_nat (length (collision m)) <=? pos_x)
  then Some 1
  else
    col ← collision m !! Z.to_nat pos_x;
    if Z.of_nat (length col) <=? pos_y then Some 1
    else col !! Z.to_nat pos_y.

(** [MapManager::resizeMapStorage].  [tile.resize(n)] with a negative [n]
    asks for more than [max_size()] elements and throws. *)
Definition resizeMapStorage (m : MapManager) (x y : Z) (absolute : bool)
  : option MapManager :=
  let x := x + 1 in
  let y := y + 1 in
  let size_x :=
    if absolute then x
    else if size_gt_int (length (tile m)) x then Z.of_nat (length (tile m)) else x in
  let size_y :=
    if absolute then y
    else
      match tile m with
      | row0 :: _ => if size_gt_int (length row0) y then Z.of_nat (length row0) else y
      | [] => y
      end in
  if size_x <? 0 then None
  else
    let tile1 := resize (Z.to_nat size_x) [] (tile m) in
    let collision1 := resize (Z.to_nat size_x) [] (collision m) in
    if (0 <? size_x) && (size_y <? 0) then None
    else
      Some (mkMapManager
              (resize (Z.to_nat size_y) MissingTexture <$> tile1)
              (resize (Z.to_nat size_y) 1 <$> collision1)
              (spawn_x m) (spawn_y m)).

(** [MapManager::getSpawn]. *)
Definition getSpawn (m : MapManager) : Z * Z := (spawn_x m, spawn_y m).

(** One record of a map file, already split into its fields: a drawable
    tile ([.png]) carries a collision value and a layer, an object
    descriptor ([.txt]) and anything else carry nothing more. *)
Inductive MapRecord : Type :=
  | TileRecord (pos_x pos_y : Z) (path : string) (coll layer : Z)
  | ObjectRecord (pos_x pos_y : Z) (path : string)
  | OtherRecord (pos_x pos_y : Z) (path : string).

Definition record_pos (r : MapRecord) : Z * Z :=
  match r with
  | TileRecord x y _ _ _ | ObjectRecord x y _ | OtherRecord x y _ => (x, y)
  end.

(** [v[i][j] = a], a checked write. *)
Definition write_cell {A : Type} (v : list (list A)) (i j : Z) (a : A)
  : option (list (list A)) :=
  if (i <? 0) || (j <? 0) then None
  else
    row ← v !! Z.to_nat i;
    if decide (Z.to_nat j < length row)%nat
    then Some (<[Z.to_nat i := <[Z.to_nat j := a]> row]> v)
    else None.

(** One iteration of the reading loop of [MapManager::loadMap]. *)
Definition loadRecord (m : MapManager) (r : MapRecord) : option MapManager :=
  let '(pos_x, pos_y) := record_pos r in
  m ← resizeMapStorage m pos_x pos_y false;
  match r with
  | TileRecord _ _ path coll _ =>
      t ← write_cell (tile m) pos_x pos_y (LoadedTexture path);
      c ← write_cell (collision m) pos_x pos_y coll;
      Some (mkMapManager t c (spawn_x m) (spawn_y m))
  | _ => Some m
  end.

Fixpoint loadRecords (m : MapManager) (rs : list MapRecord) : option MapManager :=
  match rs with
  | [] => Some m
  | r :: rs => m ← loadRecord m r; loadRecords m rs
  end.

(** [MapManager::loadMap] on the content of the map file: the spawn pair
    and the records. *)
Definition loadMap (m : MapManager) (spawn : Z * Z) (rs : list MapRecord)
  : option MapManager :=
  m ← resizeMapStorage m (-1) (-1) true;
  loadRecords (mkMapManager (tile m) (collision m) spawn.1 spawn.2) rs.

(** ** ObjectWalker, GameObject, Player, GameManager *)

Section Game.

(** The constants of [config.h], which is not part of the sources at
    hand. *)
Variables (TILE_SIZE SPEED FRAME_TIME : Z).

(** [ObjectWalker::setDestination]. *)
Definition setDestination (w : ObjectWalker) (x y : Z) : ObjectWalker :=
  mkObjectWalker x y (tick w) 0 0.

(** [GameObject::setScreenPos]. *)
Definition setScreenPos (o : GameObject) (x y : Z) (anim : bool) : GameObject :=
  let '(o, anim) :=
    match object_walker o with
    | Some w => (with_walker o (Some (setDestination w x y)), anim)
    | None => (o, false)
    end in
  if negb anim then with_screen o x y else o.

(** [GameObject::getScreenPos]. *)
Definition getScreenPos (o : GameObject) : Z * Z := (screen_x o, screen_y o).

(** [GameObject::getCenter]; [/] on [int] truncates. *)
Definition getCenter (o : GameObject) : Z * Z :=
  (screen_x o + (TILE_SIZE * size_x o) ÷ 2,
   screen_y o + (TILE_SIZE * size_y o) ÷ 2).

(** [GameObject::isCameraCenter]. *)
Definition isCameraCenter (o : GameObject) : bool := camera_center o.

(** [GameObject::setMapPos]. *)
Definition setMapPos (o : GameObject) (x y : Z) (anim : bool) : GameObject :=
  let o := with_map o x y in
  let '(o, anim) :=
    match object_walker o with
    | Some w =>
        (with_walker o
           (Some (setDestination w (map_x o * TILE_SIZE) (map_y o * TILE_SIZE))),
         anim)
    | None => (o, false)
    end in
  if negb anim
  then with_screen o (map_x o * TILE_SIZE) (map_y o * TILE_SIZE)
  else o.

(** [GameObject::getMapPos] and [GameObject::getSize]. *)
Definition getMapPos (o : GameObject) : Z * Z := (map_x o, map_y o).
Definition getSize (o : GameObject) : Z * Z := (size_x o, size_y o).

(** A [for] loop over a range whose body may fail. *)
Fixpoint for_each {A S : Type} (body : S → A → option S) (s : S) (l : list A)
  : option S :=
  match l with
  | [] => Some s
  | a :: l => s ← body s a; for_each body s l
  end.

(** [GameObject::checkCollision]. *)
Definition checkCollision (m : MapManager) (o : GameObject) (offset_x offset_y : Z)
  : option Z :=
  let tmp_x := map_x o + offset_x in
  let tmp_y := map_y o + offset_y in
  for_each (λ coll x,
    for_each (λ coll y,
      c ← getCollision m (tmp_x + x) (tmp_y + y);
      Some (Z.max coll c))
      coll (seqZ 0 (size_y o)))
    0 (seqZ 0 (size_x o)).

(** [GameObject::_setScreenPos]. *)
Definition _setScreenPos (o : GameObject) (x y : Z) : GameObject :=
  with_screen o x y.

(** [GameObject::advanceFrame]. *)
Definition advanceFrame (o : GameObject) (d : DIR) : GameObject :=
  let o := with_dir o d in
  let o := with_frame o (current_frame o + 1) in
  if end_frame o <? current_frame o then with_frame o (loop_frame o) else o.

(** [GameObject::stopFrame]; the argument is not used, the assignment to
    [dir] being commented out. *)
Definition stopFrame (o : GameObject) (d : DIR) : GameObject :=
  if negb (current_frame o =? stop_frame o) && negb (current_frame o =? 0)
  then with_frame o (stop_frame o)
  else if negb (current_frame o =? 0)
  then with_frame o 0
  else o.

(** [ObjectWalker::runTick], on the walker and the object [parent] it
    points to. *)
Definition ObjectWalker_runTick (w : ObjectWalker) (parent : GameObject) (delta : Z)
  : ObjectWalker * GameObject :=
  let tick := wrap64 (tick w + delta) in
  if movement_deadline w <? tick then
    let '(tmp_x, tmp_y) := getScreenPos parent in
    let sgn_x := sgn (dest_x w - tmp_x) in
    let sgn_y := sgn (dest_y w - tmp_y) in
    let tmp_x := tmp_x + sgn_x in
    let tmp_y := tmp_y + sgn_y in
    let '(tmp_x, sgn_x) :=
      if negb (sgn_x =? sgn (dest_x w - tmp_x)) then (dest_x w, 0) else (tmp_x, sgn_x) in
    let '(tmp_y, sgn_y) :=
      if negb (sgn_y =? sgn (dest_y w - tmp_y)) then (dest_y w, 0) else (tmp_y, sgn_y) in
    let dir :=
      if Z.abs (dest_y w - tmp_y) <? Z.abs (dest_x w - tmp_x)
      then (if 0 <=? sgn_x then LEFT else RIGHT)
      else (if 0 <=? sgn_y then DOWN else UP) in
    let parent := _setScreenPos parent tmp_x tmp_y in
    let movement_deadline := wrap64 (tick + SPEED) in
    if animation_deadline w <? tick then
      let parent :=
        if (sgn_x =? 0) && (sgn_y =? 0)
        then stopFrame parent dir
        else advanceFrame parent dir in
      (mkObjectWalker (dest_x w) (dest_y w) tick movement_deadline
         (wrap64 (tick + FRAME_TIME)),
       parent)
    else
      (mkObjectWalker (dest_x w) (dest_y w) tick movement_deadline
         (animation_deadline w),
       parent)
  else
    (mkObjectWalker (dest_x w) (dest_y w) tick (movement_deadline w)
       (animation_deadline w),
     parent).

(** [GameObject::runTick]: the walker, when there is one, runs on the
    object and is stored back. *)
Definition GameObject_runTick (o : GameObject) (delta : Z) : GameObject :=
  match object_walker o with
  | Some w =>
      let '(w, o) := ObjectWalker_runTick w o delta in
      with_walker o (Some w)
  | None => o
  end.

(** The input test of [Player::runTick] for one direction:
    [(isPlayer(d) and type == 0) or (isPlayer2(d) and type == 1)]. *)
Definition player_input (ih : InputHandler) (type : Z) (d : DIR) : bool :=
  (isPlayer ih d && (type =? 0)) || (isPlayer2 ih d && (type =? 1)).

(** [a and b] where only [b] may fail: [b] is not evaluated when [a] is
    false. *)
Definition and_then (a : bool) (b : option bool) : option bool :=
  if a then b else Some false.

(** [Player::runTick].  [setMapPos] is called with two arguments; its
    third parameter takes the default of the header, which the spec gives
    as an animated move. *)
Definition Player_runTick (ih : InputHandler) (m : MapManager) (type : Z)
    (o : GameObject) (delta : Z) : option GameObject :=
  let o := GameObject_runTick o delta in
  if (current_frame o =? 0) || (current_frame o =? stop_frame o) then
    go ← and_then (player_input ih type UP)
           ((λ c, c <? 1) <$> checkCollision m o 0 (-1));
    let o := if go : bool then setMapPos o (map_x o) (map_y o - 1) true else o in
    go ← and_then (player_input ih type RIGHT)
           ((λ c, c <? 1) <$> checkCollision m o 1 0);
    let o := if go : bool then setMapPos o (map_x o + 1) (map_y o) true else o in
    go ← and_then (player_input ih type DOWN)
           ((λ c, c <? 1) <$> checkCollision m o 0 1);
    let o := if go : bool then setMapPos o (map_x o) (map_y o + 1) true else o in
    go ← and_then (player_input ih type LEFT)
           ((λ c, c <? 1) <$> checkCollision m o (-1) 0);
    let o := if go : bool then setMapPos o (map_x o - 1) (map_y o) true else o in
    Some o
  else Some o.

(** The virtual call [obj->runTick(delta)]. *)
Definition object_runTick (ih : InputHandler) (m : MapManager) (o : GameObject)
    (delta : Z) : option GameObject :=
  match kind o with
  | BaseObject => Some (GameObject_runTick o delta)
  | PlayerObject type => Player_runTick ih m type o delta
  end.

(** The constructor of [GameObject]: no walker, frames at 0, facing
    down, one tile wide and high, off screen. *)
Definition GameObject_new : GameObject :=
  setMapPos (mkGameObject BaseObject None 0 0 0 0 DOWN false 1 1 0 0 0 0)
    (-1) (-1) false.

(** The constructor of [Player].  The walker's constructor leaves its
    fields unset; [setMapPos] then sets all but the clock, whose first
    value [tick0] is a parameter here. *)
Definition Player_new (m : MapManager) (type : Z) (tick0 : Z) : GameObject :=
  let o := GameObject_new in
  let o := mkGameObject (PlayerObject type)
             (Some (mkObjectWalker 0 0 tick0 0 0))
             (current_frame o) (loop_frame o) (end_frame o) (stop_frame o)
             (dir o) true (size_x o) (size_y o) (map_x o) (map_y o)
             (screen_x o) (screen_y o) in
  let '(tmp_x, tmp_y) := getSpawn m in
  let o := setMapPos o tmp_x tmp_y false in
  mkGameObject (kind o) (object_walker o) (current_frame o) 1 4 5
    (dir o) (camera_center o) (size_x o) (size_y o) (map_x o) (map_y o)
    (screen_x o) (screen_y o).

(** [Renderer::setCenter] and [Renderer::setSize], as far as the world
    tick depends on them. *)
Definition setCenter (r : Renderer) (x y : Z) : Renderer :=
  mkRenderer x y (width r) (height r).
Definition setSize (r : Renderer) (w h : Z) : Renderer :=
  mkRenderer (center_x r) (center_y r) w h.

(** The locals of [GameManager::runTick] that the loop over the objects
    updates. *)
Record CameraScan : Type := mkCameraScan {
  camera_count : Z;
  camera_x : Z;
  camera_y : Z;
  min_x : Z;
  min_y : Z;
  max_x : Z;
  max_y : Z
}.

Definition CameraScan_init : CameraScan :=
  mkCameraScan 0 0 0 INT_MAX INT_MAX INT_MIN INT_MIN.

(** The camera part of the loop body. *)
Definition scan_object (obj : GameObject) (c : CameraScan) : CameraScan :=
  if isCameraCenter obj then
    let '(tmp_x, tmp_y) := getCenter obj in
    mkCameraScan (camera_count c + 1) (camera_x c + tmp_x) (camera_y c + tmp_y)
      (Z.min (min_x c) tmp_x) (Z.min (min_y c) tmp_y)
      (Z.max (max_x c) tmp_x) (Z.max (max_y c) tmp_y)
  else c.

(** The loop [for (auto obj : objects)]. *)
Fixpoint tick_objects (ih : InputHandler) (m : MapManager) (paused : bool)
    (delta : Z) (objs : list GameObject) (c : CameraScan)
  : option (list GameObject * CameraScan) :=
  match objs with
  | [] => Some ([], c)
  | obj :: rest =>
      obj ← (if negb paused then object_runTick ih m obj delta else Some obj);
      '(rest, c) ← tick_objects ih m paused delta rest (scan_object obj c);
      Some (obj :: rest, c)
  end.

(** The loop [while (4 * multiplier * TILE_SIZE < size_x and
    3 * multiplier * TILE_SIZE < size_y) ++multiplier;], with fuel. *)
Fixpoint multiplier_loop (fuel : nat) (size_x size_y multiplier : Z) : option Z :=
  match fuel with
  | O => None
  | S fuel =>
      if (4 * multiplier * TILE_SIZE <? size_x) && (3 * multiplier * TILE_SIZE <? size_y)
      then multiplier_loop fuel size_x size_y (multiplier + 1)
      else Some multiplier
  end.

(** The value of the local [multiplier] of [GameManager::runTick] when
    the loop is left, from the scan of the objects. *)
Definition scan_multiplier (fuel : nat) (c : CameraScan) : option Z :=
  let size_x := Z.abs (max_x c - min_x c) in
  let size_y := Z.abs (max_y c - min_y c) in
  multiplier_loop fuel size_x size_y 5.

(** [GameManager::runTick]. *)
Definition GameManager_runTick (fuel : nat) (ih : InputHandler) (gm : GameManager)
    (delta : Z) : option GameManager :=
  '(objs, c) ← tick_objects ih (map_manager gm) (paused gm) delta (objects gm)
                 CameraScan_init;
  let '(camera_x, camera_y) :=
    if 0 <? camera_count c
    then (camera_x c ÷ camera_count c, camera_y c ÷ camera_count c)
    else (camera_x c, camera_y c) in
  multiplier ← scan_multiplier fuel c;
  let r := setCenter (renderer gm) camera_x camera_y in
  let r := setSize r (4 * multiplier * TILE_SIZE) (3 * multiplier * TILE_SIZE) in
  Some (mkGameManager r (map_manager gm) objs (paused gm)).

(** The multiplier that a tick uses: the same computation, returning the
    local instead of the new state. *)
Definition tick_multiplier (fuel : nat) (ih : InputHandler) (gm : GameManager)
    (delta : Z) : option Z :=
  '(_, c) ← tick_objects ih (map_manager gm) (paused gm) delta (objects gm)
              CameraScan_init;
  scan_multiplier fuel c.

(** The constructor of [GameManager]: viewport at the baseline
    multiplier, one player of type 0 (the second one is commented out). *)
Definition GameManager_new (m : MapManager) (tick0 : Z) : GameManager :=
  mkGameManager (mkRenderer 0 0 (4 * 5 * TILE_SIZE) (3 * 5 * TILE_SIZE)) m
    [Player_new m 0 tick0] false.

(** [GameManager::setPaused]. *)
Definition setPaused (gm : GameManager) (p : bool) : GameManager :=
  mkGameManager (renderer gm) (map_manager gm) (objects gm) p.

End Game.

(** ** Vocabulary of the properties *)

(** The content of cell [(i, j)] of a vector of vectors, if the cell
    exists. *)
Definition cell {A : Type} (v : list (list A)) (i j : nat) : option A :=
  v !! i ≫= (.!! j).

(** The extent of the grid, read the way [resizeMapStorage] reads it:
    [tile.size()], and [tile[0].size()] unless [tile] is empty. *)
Definition grid_width (m : MapManager) : nat := length (tile m).
Definition grid_height (m : MapManager) : nat :=
  match tile m with
  | row0 :: _ => length row0
  | [] => 0%nat
  end.

(** The class invariant of [MapManager]: [tile] and [collision] have the
    same extent and every inner vector has the height of the grid. *)
Definition grid_ok (m : MapManager) : Prop :=
  length (collision m) = length (tile m)
  ∧ Forall (λ row, length row = grid_height m) (tile m)
  ∧ Forall (λ col, length col = grid_height m) (collision m).

(** The storage of a freshly constructed [MapManager]. *)
Definition MapManager_empty : MapManager := mkMapManager [] [] 0 0.

(** A sequence of calls [resizeMapStorage(x, y)] (the third parameter
    taking its value [false]). *)
Fixpoint resize_all (m : MapManager) (calls : list (Z * Z)) : option MapManager :=
  match calls with
  | [] => Some m
  | (x, y) :: calls => m ← resizeMapStorage m x y false; resize_all m calls
  end.

(** The largest of [n] and the [c + 1] for the coordinates [c] seen. *)
Definition extent_after (n : Z) (cs : list Z) : Z :=
  foldl (λ n c, Z.max n (c + 1)) n cs.

(** [b] lies between [a] and [c], whichever of the two is the smaller. *)
Definition between (a b c : Z) : Prop := a ≤ b ≤ c ∨ c ≤ b ≤ a.

(** Successive ticks of a walker on its object, one per delta. *)
Fixpoint walker_ticks (SPEED FRAME_TIME : Z) (deltas : list Z)
    (w : ObjectWalker) (p : GameObject) : ObjectWalker * GameObject :=
  match deltas with
  | [] => (w, p)
  | delta :: deltas =>
      let '(w, p) := ObjectWalker_runTick SPEED FRAME_TIME w p delta in
      walker_ticks SPEED FRAME_TIME deltas w p
  end.

(** The sum of the deltas of a run. *)
Definition elapsed (deltas : list Z) : Z := foldr Z.add 0 deltas.

(** The four polls of [Player::runTick] as the specification words them:
    the one-tile offset of a direction and the tile one step away in it,
    the poll of one direction (input active and [checkCollision] at the
    offset below 1: an animated move to the tile one step away), and the
    polls of a list of directions in order. *)
Definition dir_offset (d : DIR) : Z * Z :=
  match d with
  | UP => (0, -1)
  | RIGHT => (1, 0)
  | DOWN => (0, 1)
  | LEFT => (-1, 0)
  end.

Definition one_tile (d : DIR) (x y : Z) : Z * Z :=
  match d with
  | UP => (x, y - 1)
  | RIGHT => (x + 1, y)
  | DOWN => (x, y + 1)
  | LEFT => (x - 1, y)
  end.

Definition input_move (TILE_SIZE : Z) (ih : InputHandler) (m : MapManager)
    (type : Z) (o : GameObject) (d : DIR) : option GameObject :=
  if player_input ih type d then
    c ← checkCollision m o (dir_offset d).1 (dir_offset d).2;
    Some (if c <? 1
          then setMapPos TILE_SIZE o (one_tile d (map_x o) (map_y o)).1
                 (one_tile d (map_x o) (map_y o)).2 true
          else o)
  else Some o.

Definition poll_directions (TILE_SIZE : Z) (ih : InputHandler) (m : MapManager)
    (type : Z) (o : GameObject) (ds : list DIR) : option GameObject :=
  for_each (input_move TILE_SIZE ih m type) o ds.

(** The extent of the bounding box of the camera anchors of a scan, as
    [GameManager::runTick] computes it. *)
Definition span_x (c : CameraScan) : Z := Z.abs (max_x c - min_x c).
Definition span_y (c : CameraScan) : Z := Z.abs (max_y c - min_y c).

(** ** Sample states *)

(** A grid of three by three walkable tiles but for a block at (2, 0). *)
Definition sample_grid : MapManager :=
  mkMapManager
    (replicate 3 (replicate 3 (LoadedTexture "grass.png")))
    [[0; 0; 0]; [0; 0; 0]; [1; 0; 0]]
    1 1.

(** A grid of a single walkable tile. *)
Definition single_tile_grid : MapManager :=
  mkMapManager [[LoadedTexture "grass.png"]] [[0]] 0 0.

(** A grid of three by three walkable tiles but for a block at (2, 1). *)
Definition ledge_grid : MapManager :=
  mkMapManager
    (replicate 3 (replicate 3 (LoadedTexture "grass.png")))
    [[0; 0; 0]; [0; 0; 0]; [0; 1; 0]]
    1 1.

(** Input handlers: nothing pressed, and up and right pressed by the
    first player. *)
Definition no_input : InputHandler :=
  mkInputHandler (λ _, false) (λ _, false).
Definition up_right_input : InputHandler :=
  mkInputHandler (λ d, bool_decide (d = UP ∨ d = RIGHT)) (λ _, false).

(** A player of type 0 on tile [(x, y)], at rest, with its clock at 0. *)
Definition player_at (TILE_SIZE : Z) (x y : Z) : GameObject :=
  mkGameObject (PlayerObject 0)
    (Some (mkObjectWalker (x * TILE_SIZE) (y * TILE_SIZE) 0 0 0))
    0 1 4 5 DOWN true 1 1 x y (x * TILE_SIZE) (y * TILE_SIZE).

(** A player in the middle of its walk cycle (frame 2 of a cycle whose
    stop frame is 5). *)
Definition walking_player : GameObject :=
  with_frame (player_at 16 1 1) 2.

(** A walker at clock 5 whose next step is due after 15, five pixels
    from its target on both axes, and its object. *)
Definition waiting_walker : ObjectWalker := mkObjectWalker 5 5 5 15 0.
Definition waiting_object : GameObject :=
  with_walker (with_screen (player_at 16 0 0) 0 0) (Some waiting_walker).

(** A world of two players, the second one walking to the left towards
    tile (20, 16), two pixels short of it. *)
Definition approaching_player : GameObject :=
  mkGameObject (PlayerObject 1)
    (Some (mkObjectWalker 320 256 0 0 0))
    2 1 4 5 LEFT true 1 1 20 16 322 256.
Definition approaching_world : GameManager :=
  mkGameManager (mkRenderer 0 0 (4 * 5 * 16) (3 * 5 * 16)) sample_grid
    [player_at 16 0 0; approaching_player] false.

(** A world of two players, the second one walking to the right away
    from the first, about to pass the width of the baseline viewport. *)
Definition receding_player : GameObject :=
  mkGameObject (PlayerObject 1)
    (Some (mkObjectWalker 336 256 0 0 0))
    2 1 4 5 LEFT true 1 1 21 16 319 256.
Definition receding_world : GameManager :=
  mkGameManager (mkRenderer 0 0 (4 * 5 * 16) (3 * 5 * 16)) sample_grid
    [player_at 16 0 0; receding_player] false.
Definition receding_world_next : GameManager :=
  Eval vm_compute in
    default receding_world (GameManager_runTick 16 10 100 8 no_input receding_world 11).

(** The scans of the anchors in the first and in the second tick of
    that world. *)
Definition receding_scan1 : CameraScan :=
  Eval vm_compute in
    default CameraScan_init
      (snd <$> tick_objects 16 10 100 no_input sample_grid false 11
                 (objects receding_world) CameraScan_init).
Definition receding_scan2 : CameraScan :=
  Eval vm_compute in
    default CameraScan_init
      (snd <$> tick_objects 16 10 100 no_input sample_grid false 11
                 (objects receding_world_next) CameraScan_init).
Definition receding_objects2 : list GameObject :=
  Eval vm_compute in
    default []
      (fst <$> tick_objects 16 10 100 no_input sample_grid false 11
                 (objects receding_world_next) CameraScan_init).

(** A world of two players at rest on the same row, 62 tiles (992
    pixels) apart. *)
Definition wide_world : GameManager :=
  mkGameManager (mkRenderer 0 0 (4 * 5 * 16) (3 * 5 * 16)) sample_grid
    [player_at 16 0 0; player_at 16 62 0] false.

(** An object facing left, one pixel to the right of the target of its
    walker. *)
Definition arriving_walker : ObjectWalker := mkObjectWalker 320 256 0 0 0.
Definition arriving_object : GameObject :=
  mkGameObject (PlayerObject 1) (Some arriving_walker)
    2 1 4 5 LEFT true 1 1 20 16 321 256.

(** ** More of the code: the registry of maps and the drawing *)

(** One iteration of the loop of the constructor of [MapManager] over the
    registry file, on an entry [id path]: [if (id >= maps.size())
    maps.resize(id + 1); maps[id] = path;].  The comparison is unsigned,
    [id + 1] is computed on [int] and then converted, and the write is a
    checked write.  A path is a string, the default path the empty
    one. *)
Definition registerMap (maps : list string) (id : Z) (path : string)
  : option (list string) :=
  maps ← (if Z.of_nat (length maps) <=? size_t_of_int id
          then (if id + 1 <? 0 then None
                else Some (resize (Z.to_nat (id + 1)) EmptyString maps))
          else Some maps);
  if id <? 0 then None
  else if decide (Z.to_nat id < length maps)%nat
       then Some (<[Z.to_nat id := path]> maps)
       else None.

(** The loop [while (maps_file >> id >> path)] on the entries read. *)
Fixpoint loadRegistry (maps : list string) (entries : list (Z * string))
  : option (list string) :=
  match entries with
  | [] => Some maps
  | (id, path) :: entries => maps ← registerMap maps id path; loadRegistry maps entries
  end.

(** What the renderer is given by [addRenderItem]: texture, pixel
    position, the two flip flags and the priority. *)
Record RenderItem : Type := mkRenderItem {
  item_texture : Texture;
  item_x : Z;
  item_y : Z;
  item_flip_x : bool;
  item_flip_y : bool;
  item_priority : Z
}.

(** [MapManager::render]: the items in the order of the two loops. *)
Definition MapManager_render (TILE_SIZE : Z) (m : MapManager) : list RenderItem :=
  mjoin (imap (λ i row,
           imap (λ j t,
             mkRenderItem t (Z.of_nat i * TILE_SIZE) (Z.of_nat j * TILE_SIZE)
               false false 0) row)
         (tile m)).

(** The three vectors of textures of a [GameObject].  They are fields of
    the object that only the constructors write, kept apart from the
    record of the fields that change. *)
Record Sprites : Type := mkSprites {
  up : list Texture;
  down : list Texture;
  side : list Texture
}.

(** [v[current_frame]] with [current_frame] an [int], a checked read. *)
Definition frame_at (v : list Texture) (frame : Z) : option Texture :=
  if frame <? 0 then None else v !! Z.to_nat frame.

(** [GameObject::render]. *)
Definition GameObject_render (s : Sprites) (o : GameObject) : option RenderItem :=
  match dir o with
  | UP =>
      t ← frame_at (up s) (current_frame o);
      Some (mkRenderItem t (screen_x o) (screen_y o) false false 1)
  | LEFT =>
      t ← frame_at (side s) (current_frame o);
      Some (mkRenderItem t (screen_x o) (screen_y o) false false 1)
  | DOWN =>
      t ← frame_at (down s) (current_frame o);
      Some (mkRenderItem t (screen_x o) (screen_y o) false false 1)
  | RIGHT =>
      t ← frame_at (side s) (current_frame o);
      Some (mkRenderItem t (screen_x o) (screen_y o) true false 1)
  end.

(** [GameManager::getPaused]. *)
Definition getPaused (gm : GameManager) : bool := paused gm.

(** ** More vocabulary *)

(** What the records of a map file say of tile [(x, y)]: the texture and
    the collision value of the last tile record at this position. *)
Fixpoint authored (rs : list MapRecord) (x y : Z) : option (Texture * Z) :=
  match rs with
  | [] => None
  | r :: rs =>
      match authored rs x y with
      | Some a => Some a
      | None =>
          match r with
          | TileRecord pos_x pos_y path coll _ =>
              if decide (pos_x = x ∧ pos_y = y)
              then Some (LoadedTexture path, coll)
              else None
          | _ => None
          end
      end
  end.

(** The path that a list of registry entries gives to [id]: the one of
    the last entry for it. *)
Fixpoint registered (entries : list (Z * string)) (id : Z) : option string :=
  match entries with
  | [] => None
  | (id', path) :: entries =>
      match registered entries id with
      | Some p => Some p
      | None => if decide (id' = id) then Some path else None
      end
  end.

(** [advanceFrame] called [n] times with the same direction. *)
Fixpoint advanceFrames (n : nat) (o : GameObject) (d : DIR) : GameObject :=
  match n with
  | O => o
  | S n => advanceFrames n (advanceFrame o d) d
  end.

(** The frame cursor and the bounds of the cycle are consistent: the
    bounds are ordered and not negative, and the cursor is between 0 and
    the larger of the end and the stop frame. *)
Definition frame_ok (o : GameObject) : Prop :=
  0 ≤ loop_frame o ≤ end_frame o
  ∧ 0 ≤ stop_frame o
  ∧ 0 ≤ current_frame o ≤ end_frame o `max` stop_frame o.

(** The object stands where nothing blocks it. *)
Definition stands_free (m : MapManager) (o : GameObject) : Prop :=
  ∃ c, checkCollision m o 0 0 = Some c ∧ c < 1.

(** The list of the centres of the camera anchors among some objects. *)
Definition anchor_centers (TILE_SIZE : Z) (objs : list GameObject) : list (Z * Z) :=
  getCenter TILE_SIZE <$> filter (λ o, isCameraCenter o = true) objs.

(** The sum of a list of integers. *)
Definition sumZ (l : list Z) : Z := foldr Z.add 0 l.

(** Successive ticks of an object through [GameObject::runTick]. *)
Definition object_ticks (SPEED FRAME_TIME : Z) (deltas : list Z) (o : GameObject)
  : GameObject :=
  foldl (GameObject_runTick SPEED FRAME_TIME) o deltas.

(** ** More sample states *)

(** The sample grid grown to hold cell (4, 1). *)
Definition sample_grid_grown : MapManager :=
  Eval vm_compute in default sample_grid (resizeMapStorage sample_grid 4 1 false).

(** The records of a small map file: grass and later sand at (0, 0), a
    blocking tile at (2, 2), an object at (1, 1). *)
Definition sample_records : list MapRecord :=
  [TileRecord 0 0 "grass.png" 0 0; TileRecord 2 2 "tile.png" 1 0;
   ObjectRecord 1 1 "npc.txt"; TileRecord 0 0 "sand.png" 0 0].
Definition sample_loaded : MapManager :=
  Eval vm_compute in default MapManager_empty (loadMap sample_grid (0, 0) sample_records).

(** The entries of a small registry file. *)
Definition sample_entries : list (Z * string) :=
  [(1, "town.txt"); (3, "cave.txt"); (1, "city.txt")].

(** Vectors of six textures, as the constructor of [Player] sizes them. *)
Definition sample_sprites : Sprites :=
  mkSprites (replicate 6 (LoadedTexture "u.png"))
    (replicate 6 (LoadedTexture "d.png"))
    (replicate 6 (LoadedTexture "s.png")).

(** A player at rest on tile (0, 0) of a world of tiles two pixels wide,
    and its walker. *)
Definition small_walker : ObjectWalker := mkObjectWalker 0 0 0 0 0.
Definition small_player : GameObject := player_at 2 0 0.

(** The walker of a player at rest on tile (1, 1). *)
Definition resting_walker : ObjectWalker := mkObjectWalker 16 16 0 0 0.

(** * Properties *)

(** ** Map storage *)

Lemma cell_resize {A : Type} (d : A) (v : list (list A)) (sx sy i j : nat) :
  cell (resize sy d <$> resize sx [] v) i j =
  if decide (i < sx ∧ j < sy)%nat then Some (default d (cell v i j)) else None.
Proof.
  unfold cell. rewrite list_lookup_fmap.
  case_decide as Hij.
  - destruct Hij as [Hi Hj].
    destruct (decide (i < length v)%nat) as [Hv|Hv].
    + rewrite lookup_resize by done.
      destruct (lookup_lt_is_Some_2 v i Hv) as [row Hrow]. rewrite Hrow. simpl.
      destruct (decide (j < length row)%nat) as [Hr|Hr].
      * rewrite lookup_resize by done.
        destruct (lookup_lt_is_Some_2 row j Hr) as [a Ha]. by rewrite Ha.
      * rewrite lookup_resize_new by lia.
        by rewrite (lookup_ge_None_2 row j) by lia.
    + rewrite lookup_resize_new by lia. simpl.
      rewrite (lookup_ge_None_2 v i) by lia. simpl.
      by rewrite lookup_resize_new by (simpl; lia).
  - destruct (decide (i < sx)%nat) as [Hi|Hi].
    + assert (sy ≤ j)%nat as Hj by lia.
      destruct (resize sx [] v !! i) as [row|]; simpl; [|done].
      by apply lookup_resize_old.
    + by rewrite lookup_resize_old by lia.
Qed.

Lemma cell_Some_lt {A : Type} (v : list (list A)) (h i j : nat) (a : A) :
  Forall (λ row, length row = h) v → cell v i j = Some a →
  (i < length v ∧ j < h)%nat.
Proof.
  unfold cell. intros Hall Hc.
  destruct (v !! i) as [row|] eqn:Hrow; simpl in Hc; [|done].
  split; [by eapply lookup_lt_Some|].
  rewrite Forall_lookup in Hall. rewrite <- (Hall i row Hrow).
  by eapply lookup_lt_Some.
Qed.

Lemma cell_None_ge {A : Type} (v : list (list A)) (h i j : nat) :
  Forall (λ row, length row = h) v → cell v i j = None →
  (length v ≤ i ∨ h ≤ j)%nat.
Proof.
  unfold cell. intros Hall Hc.
  destruct (v !! i) as [row|] eqn:Hrow; simpl in Hc.
  - right. rewrite Forall_lookup in Hall. rewrite <- (Hall i row Hrow).
    by apply lookup_ge_None_1.
  - left. by apply lookup_ge_None_1.
Qed.

Lemma size_gt_int_spec (n : nat) (x : Z) :
  0 ≤ x ≤ INT_MAX → size_gt_int n x = bool_decide (x < Z.of_nat n).
Proof.
  intros Hx. unfold size_gt_int, size_t_of_int.
  rewrite Z.mod_small by (unfold INT_MAX in Hx; lia).
  destruct (Z.ltb_spec x (Z.of_nat n)).
  - by rewrite bool_decide_eq_true_2.
  - rewrite bool_decide_eq_false_2; [done|lia].
Qed.

(** The rows of a grid that was just resized all have the new height. *)
Lemma Forall_resize_rows {A : Type} (d : A) (v : list (list A)) (sx sy : nat) :
  Forall (λ row, length row = sy) (resize sy d <$> resize sx [] v).
Proof.
  apply Forall_fmap, Forall_true. intros row. simpl. apply length_resize.
Qed.

Lemma grid_height_resize (d : Texture) (v : list (list Texture)) (sx sy : nat) sp1 sp2 c :
  (0 < sx)%nat →
  grid_height (mkMapManager (resize sy d <$> resize sx [] v) c sp1 sp2) = sy.
Proof.
  intros Hsx. unfold grid_height. simpl.
  destruct sx as [|sx]; [lia|].
  destruct v as [|row v]; simpl; apply length_resize.
Qed.

(** An absolute resize to non-negative sizes, in closed form. *)
Lemma resizeMapStorage_absolute_eq (m : MapManager) (x y : Z) :
  -1 ≤ x → -1 ≤ y →
  resizeMapStorage m x y true =
  Some (mkMapManager
          (resize (Z.to_nat (y + 1)) MissingTexture <$> resize (Z.to_nat (x + 1)) [] (tile m))
          (resize (Z.to_nat (y + 1)) 1 <$> resize (Z.to_nat (x + 1)) [] (collision m))
          (spawn_x m) (spawn_y m)).
Proof.
  intros Hx Hy. unfold resizeMapStorage. simpl.
  destruct (Z.ltb_spec (x + 1) 0); [lia|].
  destruct (Z.ltb_spec (y + 1) 0); [lia|].
  by rewrite andb_false_r.
Qed.

(** A growing resize of a well-formed grid, in closed form. *)
Lemma resizeMapStorage_grow_eq (m : MapManager) (x y : Z) :
  grid_ok m → 0 ≤ x < INT_MAX → 0 ≤ y < INT_MAX →
  resizeMapStorage m x y false =
  Some (mkMapManager
          (resize (grid_height m `max` Z.to_nat (y + 1)) MissingTexture <$>
             resize (grid_width m `max` Z.to_nat (x + 1)) [] (tile m))
          (resize (grid_height m `max` Z.to_nat (y + 1)) 1 <$>
             resize (grid_width m `max` Z.to_nat (x + 1)) [] (collision m))
          (spawn_x m) (spawn_y m)).
Proof.
  intros Hok Hx Hy. unfold resizeMapStorage. simpl.
  rewrite (size_gt_int_spec _ (x + 1)) by lia.
  assert ((match tile m with
           | [] => y + 1
           | row0 :: _ =>
               if size_gt_int (length row0) (y + 1) then Z.of_nat (length row0) else y + 1
           end) = Z.of_nat (grid_height m `max` Z.to_nat (y + 1))) as ->.
  { unfold grid_height. destruct (tile m) as [|row0 rest].
    - simpl. lia.
    - rewrite size_gt_int_spec by lia. case_bool_decide; lia. }
  assert ((if bool_decide (x + 1 < Z.of_nat (length (tile m)))
           then Z.of_nat (length (tile m)) else x + 1)
          = Z.of_nat (grid_width m `max` Z.to_nat (x + 1))) as ->.
  { unfold grid_width. case_bool_decide; lia. }
  destruct (Z.ltb_spec (Z.of_nat (grid_width m `max` Z.to_nat (x + 1))) 0); [lia|].
  destruct (Z.ltb_spec (Z.of_nat (grid_height m `max` Z.to_nat (y + 1))) 0); [lia|].
  rewrite andb_false_r. by rewrite !Nat2Z.id.
Qed.

Lemma resizeMapStorage_grow_ok (m m' : MapManager) (x y : Z) :
  grid_ok m → 0 ≤ x < INT_MAX → 0 ≤ y < INT_MAX →
  resizeMapStorage m x y false = Some m' →
  grid_ok m'
  ∧ Z.of_nat (grid_width m') = Z.of_nat (grid_width m) `max` (x + 1)
  ∧ Z.of_nat (grid_height m') = Z.of_nat (grid_height m) `max` (y + 1).
Proof.
  intros Hok Hx Hy. rewrite resizeMapStorage_grow_eq by done.
  intros [= <-].
  assert (0 < grid_width m `max` Z.to_nat (x + 1))%nat as Hpos by lia.
  assert (∀ c sp1 sp2,
    grid_height (mkMapManager
      (resize (grid_height m `max` Z.to_nat (y + 1)) MissingTexture <$>
         resize (grid_width m `max` Z.to_nat (x + 1)) [] (tile m)) c sp1 sp2)
    = (grid_height m `max` Z.to_nat (y + 1))%nat) as Hh.
  { intros. by apply grid_height_resize. }
  split; [|split].
  - unfold grid_ok. rewrite Hh. simpl.
    rewrite !length_fmap, !length_resize.
    split; [done|]. split; apply Forall_resize_rows.
  - unfold grid_width at 1. simpl. rewrite length_fmap, length_resize. lia.
  - rewrite Hh. lia.
Qed.

(** In a well-formed grid a cell is missing from [tile] exactly when it
    is missing from [collision]. *)
Lemma grid_ok_cell_None (m : MapManager) (i j : nat) :
  grid_ok m → cell (tile m) i j = None → cell (collision m) i j = None.
Proof.
  intros (Hlen & Ht & Hc) Hnone.
  destruct (cell (collision m) i j) as [c|] eqn:Hcell; [|done].
  apply (cell_Some_lt _ _ _ _ _ Hc) in Hcell.
  apply (cell_None_ge _ _ _ _ Ht) in Hnone. lia.
Qed.

Lemma resizeMapStorage_grow_cells (m m' : MapManager) (x y : Z) :
  grid_ok m → 0 ≤ x < INT_MAX → 0 ≤ y < INT_MAX →
  resizeMapStorage m x y false = Some m' →
  (∀ i j t, cell (tile m) i j = Some t → cell (tile m') i j = Some t)
  ∧ (∀ i j c, cell (collision m) i j = Some c → cell (collision m') i j = Some c)
  ∧ (∀ i j, (i < grid_width m')%nat → (j < grid_height m')%nat →
       cell (tile m) i j = None →
       cell (tile m') i j = Some MissingTexture ∧ cell (collision m') i j = Some 1).
Proof.
  intros Hok Hx Hy Hres.
  destruct (resizeMapStorage_grow_ok _ _ _ _ Hok Hx Hy Hres) as (Hok' & Hw & Hh).
  rewrite resizeMapStorage_grow_eq in Hres by done.
  injection Hres as <-.
  pose proof Hok as (Hlen & Ht & Hc).
  split; [|split].
  - intros i j t Hcell. simpl. rewrite cell_resize, Hcell.
    apply (cell_Some_lt _ _ _ _ _ Ht) in Hcell. unfold grid_width.
    rewrite decide_True by lia. done.
  - intros i j c Hcell. simpl. rewrite cell_resize, Hcell.
    apply (cell_Some_lt _ _ _ _ _ Hc) in Hcell. unfold grid_width.
    rewrite decide_True by lia. done.
  - intros i j Hi Hj Hnone. simpl.
    rewrite !cell_resize, Hnone, (grid_ok_cell_None _ _ _ Hok Hnone).
    rewrite !decide_True by lia. done.
Qed.

(** C7.  Grid growth: for any sequence of non-absolute calls
    [resizeMapStorage(x, y)] at cell coordinates ([x] and [y] not
    negative and incrementable) on a well-formed grid, every call
    succeeds and leaves a well-formed grid; the extent on each axis is
    the maximum of the prior extent and the [x + 1] (respectively
    [y + 1]) of the calls, so the grid never shrinks; every cell that
    existed keeps its tile and its collision value; every cell that did
    not exist holds the missing-tile texture and collision 1. *)
Theorem resizeMapStorage_growth (m : MapManager) (calls : list (Z * Z)) :
  grid_ok m →
  Forall (λ c, 0 ≤ c.1 < INT_MAX ∧ 0 ≤ c.2 < INT_MAX) calls →
  ∃ m', resize_all m calls = Some m'
    ∧ grid_ok m'
    ∧ Z.of_nat (grid_width m') = extent_after (Z.of_nat (grid_width m)) (calls.*1)
    ∧ Z.of_nat (grid_height m') = extent_after (Z.of_nat (grid_height m)) (calls.*2)
    ∧ (grid_width m ≤ grid_width m')%nat
    ∧ (grid_height m ≤ grid_height m')%nat
    ∧ (∀ i j t, cell (tile m) i j = Some t → cell (tile m') i j = Some t)
    ∧ (∀ i j c, cell (collision m) i j = Some c → cell (collision m') i j = Some c)
    ∧ (∀ i j, (i < grid_width m')%nat → (j < grid_height m')%nat →
         cell (tile m) i j = None →
         cell (tile m') i j = Some MissingTexture ∧ cell (collision m') i j = Some 1).
Proof.
  revert m. induction calls as [|[x y] calls IH]; intros m Hok Hcalls.
  - exists m. simpl. do 8 (split; [done|]).
    intros i j Hi Hj Hnone. destruct Hok as (_ & Ht & _).
    apply (cell_None_ge _ _ _ _ Ht) in Hnone. unfold grid_width in *. lia.
  - apply Forall_cons in Hcalls as [[Hx Hy] Hcalls]. simpl in Hx, Hy.
    destruct (resizeMapStorage m x y false) as [m1|] eqn:Hres.
    2:{ by rewrite resizeMapStorage_grow_eq in Hres. }
    destruct (resizeMapStorage_grow_ok _ _ _ _ Hok Hx Hy Hres) as (Hok1 & Hw1 & Hh1).
    destruct (resizeMapStorage_grow_cells _ _ _ _ Hok Hx Hy Hres) as (Ht1 & Hc1 & Hn1).
    destruct (IH m1 Hok1 Hcalls)
      as (m' & Hall & Hok' & Hw & Hh & Hwle & Hhle & Ht & Hc & Hn).
    exists m'. simpl. rewrite Hres. simpl.
    split; [done|]. split; [done|].
    unfold extent_after in *. simpl. rewrite <- Hw1, <- Hh1.
    split; [done|]. split; [done|].
    split; [lia|]. split; [lia|].
    split; [by auto|]. split; [by auto|].
    intros i j Hi Hj Hnone.
    destruct (cell (tile m1) i j) as [t|] eqn:Hcell1.
    + destruct Hok1 as (_ & Ht1' & _).
      pose proof (cell_Some_lt _ _ _ _ _ Ht1' Hcell1) as [Hi1 Hj1].
      destruct (Hn1 i j Hi1 Hj1 Hnone) as [Htile Hcoll].
      split; [apply Ht, Htile|apply Hc, Hcoll].
    + by apply Hn.
Qed.

(** C6, as the code has it.  An absolute resize to [(x, y)], neither
    below -1, succeeds and sets the extent to exactly [(x + 1, y + 1)] in
    both vectors; a cell of the new extent keeps what the prior grid held
    at its place and holds the missing-tile texture and collision 1 when
    the prior grid had no such cell.  With [(-1, -1)], the call of
    [loadMap], nothing is left of the prior content. *)
Theorem resizeMapStorage_absolute (m : MapManager) (x y : Z) :
  -1 ≤ x → -1 ≤ y →
  ∃ m', resizeMapStorage m x y true = Some m'
    ∧ Z.of_nat (length (tile m')) = x + 1
    ∧ Z.of_nat (length (collision m')) = x + 1
    ∧ Forall (λ row, Z.of_nat (length row) = y + 1) (tile m')
    ∧ Forall (λ col, Z.of_nat (length col) = y + 1) (collision m')
    ∧ (∀ i j, Z.of_nat i < x + 1 → Z.of_nat j < y + 1 →
         cell (tile m') i j = Some (default MissingTexture (cell (tile m) i j))
         ∧ cell (collision m') i j = Some (default 1 (cell (collision m) i j)))
    ∧ (x = -1 → y = -1 → tile m' = [] ∧ collision m' = []).
Proof.
  intros Hx Hy. eexists. split; [by apply resizeMapStorage_absolute_eq|].
  simpl. rewrite !length_fmap, !length_resize.
  split; [lia|]. split; [lia|].
  split.
  { eapply Forall_impl; [apply Forall_resize_rows|]. simpl. intros row ->. lia. }
  split.
  { eapply Forall_impl; [apply Forall_resize_rows|]. simpl. intros row ->. lia. }
  split.
  - intros i j Hi Hj. rewrite !cell_resize.
    rewrite !decide_True by lia. done.
  - intros -> ->. change (Z.to_nat (-1 + 1)) with 0%nat.
    by rewrite !resize_0.
Qed.

(** Every read of [getCollision] is within range, so it returns. *)
Lemma getCollision_Some (m : MapManager) (x y : Z) :
  ∃ c, getCollision m x y = Some c.
Proof.
  unfold getCollision.
  destruct (Z.ltb_spec x 0); [by eexists|].
  destruct (Z.ltb_spec y 0); [by eexists|].
  destruct (Z.leb_spec (Z.of_nat (length (collision m))) x); [by eexists|]. simpl.
  destruct (lookup_lt_is_Some_2 (collision m) (Z.to_nat x)) as [col ->]; [lia|].
  simpl. destruct (Z.leb_spec (Z.of_nat (length col)) y); [by eexists|].
  apply lookup_lt_is_Some_2. lia.
Qed.

(** C8.  [getCollision] returns for every grid and every coordinate
    pair; in a well-formed grid it returns 1 when [x] or [y] is negative
    or not below the width, respectively the height, and the value
    stored in the cell otherwise. *)
Theorem getCollision_default (m : MapManager) (x y : Z) :
  (∃ c, getCollision m x y = Some c)
  ∧ (grid_ok m →
     (x < 0 ∨ y < 0 ∨ Z.of_nat (grid_width m) ≤ x ∨ Z.of_nat (grid_height m) ≤ y →
        getCollision m x y = Some 1)
     ∧ (0 ≤ x < Z.of_nat (grid_width m) → 0 ≤ y < Z.of_nat (grid_height m) →
          ∃ c, cell (collision m) (Z.to_nat x) (Z.to_nat y) = Some c
               ∧ getCollision m x y = Some c)).
Proof.
  split; [apply getCollision_Some|]. intros (Hlen & _ & Hcols).
  unfold grid_width. rewrite <- Hlen. rewrite Forall_lookup in Hcols.
  split.
  - intros Hout. unfold getCollision.
    destruct (Z.ltb_spec x 0); [done|].
    destruct (Z.ltb_spec y 0); [done|].
    destruct (Z.leb_spec (Z.of_nat (length (collision m))) x); [done|]. simpl.
    destruct (lookup_lt_is_Some_2 (collision m) (Z.to_nat x)) as [col Hcol]; [lia|].
    rewrite Hcol. simpl. rewrite (Hcols _ _ Hcol).
    destruct (Z.leb_spec (Z.of_nat (grid_height m)) y); [done|lia].
  - intros Hx Hy. unfold getCollision, cell.
    destruct (Z.ltb_spec x 0); [lia|].
    destruct (Z.ltb_spec y 0); [lia|].
    destruct (Z.leb_spec (Z.of_nat (length (collision m))) x); [lia|]. simpl.
    destruct (lookup_lt_is_Some_2 (collision m) (Z.to_nat x)) as [col Hcol]; [lia|].
    rewrite Hcol. simpl. rewrite (Hcols _ _ Hcol).
    destruct (Z.leb_spec (Z.of_nat (grid_height m)) y); [lia|].
    destruct (lookup_lt_is_Some_2 col (Z.to_nat y)) as [c Hc].
    { rewrite (Hcols _ _ Hcol). lia. }
    exists c. by rewrite Hc.
Qed.

(** ** Animation frames *)

Lemma stopFrame_fields (o : GameObject) (d : DIR) :
  stopFrame o d = with_frame o (current_frame (stopFrame o d)).
Proof.
  unfold stopFrame.
  destruct (negb (current_frame o =? stop_frame o) && negb (current_frame o =? 0));
    [done|].
  destruct (negb (current_frame o =? 0)); [done|]. by destruct o.
Qed.

Lemma stopFrame_frame (o : GameObject) (d : DIR) :
  current_frame (stopFrame o d) =
  if decide (current_frame o = 0) then 0
  else if decide (current_frame o = stop_frame o) then 0
  else stop_frame o.
Proof.
  unfold stopFrame.
  destruct (Z.eqb_spec (current_frame o) (stop_frame o)) as [Hs|Hs];
    destruct (Z.eqb_spec (current_frame o) 0) as [Hz|Hz]; simpl;
    repeat case_decide; try done; lia.
Qed.

Lemma stopFrame_stop_frame (o : GameObject) (d : DIR) :
  stop_frame (stopFrame o d) = stop_frame o.
Proof. by rewrite stopFrame_fields. Qed.

(** C1, as the code has it.  From a frame that is neither 0 nor the stop
    frame, the first call of [stopFrame] gives the stop frame, the second
    gives 0, and the third leaves the frame at 0. *)
Theorem stopFrame_three_calls (o : GameObject) (d1 d2 d3 : DIR) :
  current_frame o ≠ 0 → current_frame o ≠ stop_frame o →
  current_frame (stopFrame o d1) = stop_frame o
  ∧ current_frame (stopFrame (stopFrame o d1) d2) = 0
  ∧ current_frame (stopFrame (stopFrame (stopFrame o d1) d2) d3) = 0.
Proof.
  intros Hz Hs.
  rewrite !stopFrame_frame, !stopFrame_stop_frame.
  repeat case_decide; try done; lia.
Qed.

Lemma advanceFrame_screen (o : GameObject) (d : DIR) :
  screen_x (advanceFrame o d) = screen_x o ∧ screen_y (advanceFrame o d) = screen_y o.
Proof. unfold advanceFrame. by case_match. Qed.

Lemma stopFrame_screen (o : GameObject) (d : DIR) :
  screen_x (stopFrame o d) = screen_x o ∧ screen_y (stopFrame o d) = screen_y o.
Proof. by rewrite stopFrame_fields. Qed.

(** ** The walker *)

(** A unit step towards the target never passes it: the sign after the
    step differs from the sign before only on arrival. *)
Lemma sgn_step (dest x : Z) :
  let x' := x + sgn (dest - x) in
  (if negb (sgn (dest - x) =? sgn (dest - x')) then (dest, 0) else (x', sgn (dest - x)))
  = (x', sgn (dest - x')).
Proof.
  unfold sgn. simpl.
  destruct (Z.sgn_spec (dest - x)) as [[? Hs]|[[? Hs]|[? Hs]]]; rewrite Hs;
    destruct (Z.sgn_spec (dest - (x + Z.sgn (dest - x)))) as [[? Hs']|[[? Hs']|[? Hs']]];
    rewrite Hs in *; rewrite ?Hs'; simpl; try lia; try done.
  - f_equal; lia.
  - f_equal; lia.
Qed.

(** What a tick of the walker does to the screen position, the
    destination, the clock and the movement deadline. *)
Lemma ObjectWalker_runTick_move (SPEED FRAME_TIME : Z) (w : ObjectWalker)
    (p : GameObject) (delta : Z) :
  let now := wrap64 (tick w + delta) in
  let r := ObjectWalker_runTick SPEED FRAME_TIME w p delta in
  dest_x r.1 = dest_x w ∧ dest_y r.1 = dest_y w ∧ tick r.1 = now
  ∧ (movement_deadline w < now →
       screen_x r.2 = screen_x p + sgn (dest_x w - screen_x p)
       ∧ screen_y r.2 = screen_y p + sgn (dest_y w - screen_y p)
       ∧ movement_deadline r.1 = wrap64 (now + SPEED))
  ∧ (now ≤ movement_deadline w →
       r.2 = p
       ∧ r.1 = mkObjectWalker (dest_x w) (dest_y w) now (movement_deadline w)
                 (animation_deadline w)).
Proof.
  intros now r. subst r. unfold ObjectWalker_runTick. fold now.
  unfold getScreenPos.
  pose proof (sgn_step (dest_x w) (screen_x p)) as Hx.
  pose proof (sgn_step (dest_y w) (screen_y p)) as Hy.
  simpl in Hx, Hy. rewrite Hx, Hy. clear Hx Hy.
  destruct (Z.ltb_spec (movement_deadline w) now) as [Hdue|Hdue].
  - destruct (animation_deadline w <? now); simpl.
    + repeat split; try done; try lia;
        case_match; first [apply stopFrame_screen | apply advanceFrame_screen].
    + repeat split; try done; lia.
  - simpl. repeat split; try done; lia.
Qed.

(** C4, as the code has it.  [ObjectWalker::runTick] advances the clock
    and then steps exactly when the movement deadline is strictly below
    the updated clock: in that case each axis of the screen position
    moves by the sign of its distance to the destination and the deadline
    is set [SPEED] after the clock; when the updated clock is at or below
    the deadline, and so when it equals it, the object (position and
    animation state) is left as it was and the walker keeps its
    destination and its deadlines, only its clock advancing. *)
Theorem ObjectWalker_runTick_deadline (SPEED FRAME_TIME : Z) (w : ObjectWalker)
    (p : GameObject) (delta : Z) :
  let now := wrap64 (tick w + delta) in
  let r := ObjectWalker_runTick SPEED FRAME_TIME w p delta in
  tick r.1 = now
  ∧ (movement_deadline w < now →
       screen_x r.2 = screen_x p + sgn (dest_x w - screen_x p)
       ∧ screen_y r.2 = screen_y p + sgn (dest_y w - screen_y p)
       ∧ movement_deadline r.1 = wrap64 (now + SPEED))
  ∧ (now ≤ movement_deadline w →
       r.2 = p
       ∧ r.1 = mkObjectWalker (dest_x w) (dest_y w) now (movement_deadline w)
                 (animation_deadline w))
  ∧ (now = movement_deadline w → r.2 = p ∧ movement_deadline r.1 = movement_deadline w).
Proof.
  intros now r.
  destruct (ObjectWalker_runTick_move SPEED FRAME_TIME w p delta)
    as (_ & _ & Htick & Hdue & Hidle).
  fold now in Htick, Hdue, Hidle. fold r in Htick, Hdue, Hidle.
  split; [done|]. split; [done|]. split; [done|].
  intros Heq. destruct Hidle as [Hp Hw]; [lia|]. by rewrite Hw.
Qed.

Lemma between_step (dest x : Z) :
  between x (x + sgn (dest - x)) dest ∧ Z.abs (x + sgn (dest - x) - x) ≤ 1
  ∧ Z.abs (dest - (x + sgn (dest - x))) = 0 `max` (Z.abs (dest - x) - 1).
Proof.
  unfold between, sgn.
  destruct (Z.sgn_spec (dest - x)) as [[? Hs]|[[? Hs]|[? Hs]]]; rewrite Hs; lia.
Qed.

Lemma between_trans (a b c dest : Z) :
  between a b dest → between b c dest → between a c dest.
Proof. unfold between. lia. Qed.

Lemma between_refl (a dest : Z) : between a a dest.
Proof. unfold between. lia. Qed.

(** One tick moves each axis by at most one pixel, towards the target. *)
Lemma ObjectWalker_runTick_between (SPEED FRAME_TIME : Z) (w : ObjectWalker)
    (p : GameObject) (delta : Z) :
  let r := ObjectWalker_runTick SPEED FRAME_TIME w p delta in
  Z.abs (screen_x r.2 - screen_x p) ≤ 1
  ∧ Z.abs (screen_y r.2 - screen_y p) ≤ 1
  ∧ between (screen_x p) (screen_x r.2) (dest_x w)
  ∧ between (screen_y p) (screen_y r.2) (dest_y w).
Proof.
  intros r.
  destruct (ObjectWalker_runTick_move SPEED FRAME_TIME w p delta)
    as (_ & _ & _ & Hdue & Hidle). fold r in Hdue, Hidle.
  destruct (Z.lt_ge_cases (movement_deadline w) (wrap64 (tick w + delta)))
    as [Hlt|Hge].
  - destruct (Hdue Hlt) as (-> & -> & _).
    destruct (between_step (dest_x w) (screen_x p)) as (? & ? & _).
    destruct (between_step (dest_y w) (screen_y p)) as (? & ? & _). done.
  - destruct (Hidle Hge) as [-> _].
    rewrite !Z.sub_diag. simpl. repeat split; try lia; apply between_refl.
Qed.

(** A run never leaves the segment from the start to the target. *)
Lemma walker_ticks_between (SPEED FRAME_TIME : Z) (deltas : list Z) :
  ∀ (w : ObjectWalker) (p : GameObject),
  let r := walker_ticks SPEED FRAME_TIME deltas w p in
  dest_x r.1 = dest_x w ∧ dest_y r.1 = dest_y w
  ∧ between (screen_x p) (screen_x r.2) (dest_x w)
  ∧ between (screen_y p) (screen_y r.2) (dest_y w).
Proof.
  induction deltas as [|delta deltas IH]; intros w p; simpl.
  - repeat split; try done; apply between_refl.
  - destruct (ObjectWalker_runTick_move SPEED FRAME_TIME w p delta)
      as (Hdx & Hdy & _).
    destruct (ObjectWalker_runTick_between SPEED FRAME_TIME w p delta)
      as (_ & _ & Hbx & Hby).
    destruct (ObjectWalker_runTick SPEED FRAME_TIME w p delta) as [w1 p1].
    simpl in *. destruct (IH w1 p1) as (Hx & Hy & Hbx' & Hby').
    rewrite Hdx in Hx, Hbx'. rewrite Hdy in Hy, Hby'.
    repeat split; try done; eapply between_trans; eauto.
Qed.

Lemma elapsed_nonneg (SPEED : Z) (deltas : list Z) :
  0 ≤ SPEED → Forall (λ delta, SPEED < delta) deltas → 0 ≤ elapsed deltas.
Proof.
  intros HS. induction 1 as [|delta deltas Hd _ IH]; simpl; [done|].
  unfold elapsed in *. simpl. lia.
Qed.

(** A run in which every tick is due, the clock not wrapping around:
    every tick takes one pixel off the distance on each axis. *)
Lemma walker_ticks_distance (SPEED FRAME_TIME : Z) (deltas : list Z) :
  0 ≤ SPEED → Forall (λ delta, SPEED < delta) deltas →
  ∀ (w : ObjectWalker) (p : GameObject),
  0 ≤ tick w → movement_deadline w ≤ tick w + SPEED →
  tick w + elapsed deltas + SPEED < 2 ^ 64 →
  let r := walker_ticks SPEED FRAME_TIME deltas w p in
  Z.abs (dest_x w - screen_x r.2)
    = 0 `max` (Z.abs (dest_x w - screen_x p) - Z.of_nat (length deltas))
  ∧ Z.abs (dest_y w - screen_y r.2)
    = 0 `max` (Z.abs (dest_y w - screen_y p) - Z.of_nat (length deltas)).
Proof.
  intros HS Hall. induction Hall as [|delta deltas Hd Hall IH];
    intros w p Htick Hmd Hend.
  - simpl. lia.
  - pose proof (elapsed_nonneg SPEED deltas HS Hall) as Hel.
    change (elapsed (delta :: deltas)) with (delta + elapsed deltas) in Hend.
    destruct (ObjectWalker_runTick_move SPEED FRAME_TIME w p delta)
      as (Hdx & Hdy & Hnow & Hdue & _).
    assert (wrap64 (tick w + delta) = tick w + delta) as Hwrap.
    { unfold wrap64. apply Z.mod_small. lia. }
    rewrite Hwrap in Hnow, Hdue.
    destruct Hdue as (Hx & Hy & Hmd'); [lia|].
    assert (wrap64 (tick w + delta + SPEED) = tick w + delta + SPEED) as Hwrap'.
    { unfold wrap64. apply Z.mod_small. lia. }
    rewrite Hwrap' in Hmd'.
    simpl. destruct (ObjectWalker_runTick SPEED FRAME_TIME w p delta) as [w1 p1].
    simpl in *.
    destruct (IH w1 p1) as [Hax Hay]; [lia|lia|lia|].
    rewrite Hdx in Hax. rewrite Hdy in Hay. rewrite Hax, Hay, Hx, Hy.
    destruct (between_step (dest_x w) (screen_x p)) as (_ & _ & ->).
    destruct (between_step (dest_y w) (screen_y p)) as (_ & _ & ->).
    rewrite Nat2Z.inj_succ.
    assert (0 ≤ Z.of_nat (length deltas)) as Hlen by lia. revert Hlen.
    generalize (Z.abs (dest_x w - screen_x p)) (Z.abs (dest_y w - screen_y p))
      (Z.of_nat (length deltas)).
    clear. intros. lia.
Qed.

(** C5.  Exact arrival.  A tick changes each axis of the screen position
    by at most one pixel, towards the target; on a tick that steps, an
    axis whose sign would change with the step ends exactly on the
    target; through any run of ticks each axis stays between where it
    started and the target, so never beyond the target; and in a run
    whose ticks all come more than [SPEED] after the previous step (the
    64-bit clock not wrapping around) the position is exactly the target
    once the run is as long as the larger of the two distances. *)
Theorem ObjectWalker_exact_arrival (SPEED FRAME_TIME : Z) (w : ObjectWalker)
    (p : GameObject) :
  (∀ delta,
     let r := ObjectWalker_runTick SPEED FRAME_TIME w p delta in
     Z.abs (screen_x r.2 - screen_x p) ≤ 1
     ∧ Z.abs (screen_y r.2 - screen_y p) ≤ 1
     ∧ between (screen_x p) (screen_x r.2) (dest_x w)
     ∧ between (screen_y p) (screen_y r.2) (dest_y w)
     ∧ (movement_deadline w < wrap64 (tick w + delta) →
          (sgn (dest_x w - (screen_x p + sgn (dest_x w - screen_x p)))
             ≠ sgn (dest_x w - screen_x p) → screen_x r.2 = dest_x w)
          ∧ (sgn (dest_y w - (screen_y p + sgn (dest_y w - screen_y p)))
               ≠ sgn (dest_y w - screen_y p) → screen_y r.2 = dest_y w)))
  ∧ (∀ deltas,
       let r := walker_ticks SPEED FRAME_TIME deltas w p in
       between (screen_x p) (screen_x r.2) (dest_x w)
       ∧ between (screen_y p) (screen_y r.2) (dest_y w))
  ∧ (∀ deltas,
       0 ≤ SPEED → Forall (λ delta, SPEED < delta) deltas →
       0 ≤ tick w → movement_deadline w ≤ tick w + SPEED →
       tick w + elapsed deltas + SPEED < 2 ^ 64 →
       Z.abs (dest_x w - screen_x p) `max` Z.abs (dest_y w - screen_y p)
         ≤ Z.of_nat (length deltas) →
       let r := walker_ticks SPEED FRAME_TIME deltas w p in
       screen_x r.2 = dest_x w ∧ screen_y r.2 = dest_y w).
Proof.
  split; [|split].
  - intros delta r.
    destruct (ObjectWalker_runTick_between SPEED FRAME_TIME w p delta)
      as (H1 & H2 & H3 & H4). fold r in H1, H2, H3, H4.
    do 4 (split; [done|]).
    intros Hdue.
    destruct (ObjectWalker_runTick_move SPEED FRAME_TIME w p delta)
      as (_ & _ & _ & Hmove & _). fold r in Hmove.
    destruct (Hmove Hdue) as (-> & -> & _).
    unfold sgn. split; intros Hs.
    + destruct (Z.sgn_spec (dest_x w - screen_x p)) as [[? Hs1]|[[? Hs1]|[? Hs1]]];
        rewrite Hs1 in *; try lia;
        destruct (Z.sgn_spec (dest_x w - (screen_x p + 1))) as [[? Hs2]|[[? Hs2]|[? Hs2]]];
        destruct (Z.sgn_spec (dest_x w - (screen_x p + -1))) as [[? Hs3]|[[? Hs3]|[? Hs3]]];
        lia.
    + destruct (Z.sgn_spec (dest_y w - screen_y p)) as [[? Hs1]|[[? Hs1]|[? Hs1]]];
        rewrite Hs1 in *; try lia;
        destruct (Z.sgn_spec (dest_y w - (screen_y p + 1))) as [[? Hs2]|[[? Hs2]|[? Hs2]]];
        destruct (Z.sgn_spec (dest_y w - (screen_y p + -1))) as [[? Hs3]|[[? Hs3]|[? Hs3]]];
        lia.
  - intros deltas r.
    by destruct (walker_ticks_between SPEED FRAME_TIME deltas w p) as (_ & _ & ? & ?).
  - intros deltas HS Hall Htick Hmd Hend Hlen r.
    destruct (walker_ticks_distance SPEED FRAME_TIME deltas HS Hall w p Htick Hmd Hend)
      as [Hx Hy]. fold r in Hx, Hy. lia.
Qed.

(** C10.  [stopFrame] changes nothing but the current frame, whatever its
    argument and the animation state: the facing direction is kept.  So a
    tick of the walker that finds its object within one pixel of the
    target on both axes, which is a tick that ends on the target, leaves
    the direction of the object as it was. *)
Theorem stopFrame_keeps_dir (o : GameObject) (d : DIR) :
  dir (stopFrame o d) = dir o
  ∧ stopFrame o d = with_frame o (current_frame (stopFrame o d))
  ∧ (∀ SPEED FRAME_TIME w delta,
       Z.abs (dest_x w - screen_x o) ≤ 1 → Z.abs (dest_y w - screen_y o) ≤ 1 →
       dir (ObjectWalker_runTick SPEED FRAME_TIME w o delta).2 = dir o).
Proof.
  split; [by rewrite stopFrame_fields|]. split; [apply stopFrame_fields|].
  intros SPEED FRAME_TIME w delta Hx Hy.
  unfold ObjectWalker_runTick, getScreenPos.
  pose proof (sgn_step (dest_x w) (screen_x o)) as Hsx.
  pose proof (sgn_step (dest_y w) (screen_y o)) as Hsy.
  simpl in Hsx, Hsy. rewrite Hsx, Hsy. clear Hsx Hsy.
  assert (sgn (dest_x w - (screen_x o + sgn (dest_x w - screen_x o))) = 0) as ->.
  { unfold sgn.
    destruct (Z.sgn_spec (dest_x w - screen_x o)) as [[? Hs]|[[? Hs]|[? Hs]]];
      rewrite Hs; apply Z.sgn_null_iff; lia. }
  assert (sgn (dest_y w - (screen_y o + sgn (dest_y w - screen_y o))) = 0) as ->.
  { unfold sgn.
    destruct (Z.sgn_spec (dest_y w - screen_y o)) as [[? Hs]|[[? Hs]|[? Hs]]];
      rewrite Hs; apply Z.sgn_null_iff; lia. }
  simpl.
  destruct (movement_deadline w <? wrap64 (tick w + delta)); [|done].
  destruct (animation_deadline w <? wrap64 (tick w + delta)); [|done].
  simpl. by rewrite stopFrame_fields.
Qed.

(** ** The world tick *)

(** The loop of the multiplier never goes below its start, stops on a
    multiplier for which one of the two extents fits, and has only passed
    multipliers for which neither extent fits. *)
Lemma multiplier_loop_spec (TILE_SIZE : Z) (fuel : nat) (size_x size_y : Z) :
  ∀ start r,
  multiplier_loop TILE_SIZE fuel size_x size_y start = Some r →
  start ≤ r
  ∧ ¬ (4 * r * TILE_SIZE < size_x ∧ 3 * r * TILE_SIZE < size_y)
  ∧ (∀ k, start ≤ k < r → 4 * k * TILE_SIZE < size_x ∧ 3 * k * TILE_SIZE < size_y).
Proof.
  induction fuel as [|fuel IH]; intros start r; simpl; [done|].
  destruct (Z.ltb_spec (4 * start * TILE_SIZE) size_x) as [Hx|Hx];
    destruct (Z.ltb_spec (3 * start * TILE_SIZE) size_y) as [Hy|Hy]; simpl.
  - intros Hr. destruct (IH _ _ Hr) as (Hle & Hexit & Hpassed).
    split; [lia|]. split; [done|].
    intros k Hk. destruct (decide (k = start)) as [->|Hne]; [done|].
    apply Hpassed. lia.
  - intros [= <-]. split; [lia|]. split; [lia|]. intros k Hk. lia.
  - intros [= <-]. split; [lia|]. split; [lia|]. intros k Hk. lia.
  - intros [= <-]. split; [lia|]. split; [lia|]. intros k Hk. lia.
Qed.

(** With a positive tile size the loop ends: fuel above the horizontal
    extent is enough. *)
Lemma multiplier_loop_terminates (TILE_SIZE : Z) (fuel : nat) (size_x size_y : Z) :
  0 < TILE_SIZE →
  ∀ start, 0 ≤ start → size_x - start < Z.of_nat fuel → (0 < fuel)%nat →
  ∃ r, multiplier_loop TILE_SIZE fuel size_x size_y start = Some r.
Proof.
  intros HT. induction fuel as [|fuel IH]; intros start Hstart Hfuel Hpos; [lia|].
  simpl.
  destruct (Z.ltb_spec (4 * start * TILE_SIZE) size_x) as [Hx|Hx]; simpl; [|by eexists].
  destruct (3 * start * TILE_SIZE <? size_y); [|by eexists].
  apply IH; nia.
Qed.

(** The loop stays at its start as soon as one of the two extents fits
    the viewport of the start. *)
Lemma multiplier_loop_one_axis (TILE_SIZE : Z) (fuel : nat) (size_x size_y start : Z) :
  size_x ≤ 4 * start * TILE_SIZE ∨ size_y ≤ 3 * start * TILE_SIZE →
  multiplier_loop TILE_SIZE (S fuel) size_x size_y start = Some start.
Proof.
  intros Hfit. simpl.
  destruct (Z.ltb_spec (4 * start * TILE_SIZE) size_x);
    destruct (Z.ltb_spec (3 * start * TILE_SIZE) size_y); simpl; try done; lia.
Qed.

(** C2, what the code does.  In the world of two anchors 992 pixels
    apart on one row (tile size 16) the horizontal extent, 992, exceeds
    the baseline viewport width, 320, and the tick keeps the multiplier
    at the baseline 5 and the viewport at 320 by 240: an extent that
    exceeds on one axis only does not increment the multiplier. *)
Theorem GameManager_runTick_wide_world :
  (snd <$> tick_objects 16 10 100 no_input sample_grid false 11
             (objects wide_world) CameraScan_init)
  = Some (mkCameraScan 2 1008 16 8 8 1000 8)
  ∧ 4 * 5 * 16 < 1000 - 8
  ∧ tick_multiplier 16 10 100 8 no_input wide_world 11 = Some 5
  ∧ (renderer <$> GameManager_runTick 16 10 100 8 no_input wide_world 11)
    = Some (mkRenderer 504 8 320 240).
Proof.
  split; [vm_compute; reflexivity|]. split; [lia|].
  split; vm_compute; reflexivity.
Qed.

(** A single anchor, as in the world that the constructor builds: the
    bounding box is a point and the multiplier is the baseline. *)
Lemma single_anchor_multiplier (TILE_SIZE : Z) (fuel : nat) (obj : GameObject) :
  0 ≤ TILE_SIZE → isCameraCenter obj = true →
  INT_MIN ≤ (getCenter TILE_SIZE obj).1 ≤ INT_MAX →
  INT_MIN ≤ (getCenter TILE_SIZE obj).2 ≤ INT_MAX →
  scan_multiplier TILE_SIZE (S fuel) (scan_object TILE_SIZE obj CameraScan_init) = Some 5.
Proof.
  intros HT Hanchor Hx Hy. unfold scan_multiplier, scan_object. rewrite Hanchor.
  destruct (getCenter TILE_SIZE obj) as [cx cy]. simpl in *.
  apply multiplier_loop_one_axis. lia.
Qed.

Lemma scan_multiplier_spec (TILE_SIZE : Z) (fuel : nat) (c : CameraScan) (r : Z) :
  scan_multiplier TILE_SIZE fuel c = Some r →
  5 ≤ r
  ∧ ¬ (4 * r * TILE_SIZE < span_x c ∧ 3 * r * TILE_SIZE < span_y c)
  ∧ (∀ k, 5 ≤ k < r → 4 * k * TILE_SIZE < span_x c ∧ 3 * k * TILE_SIZE < span_y c).
Proof. apply multiplier_loop_spec. Qed.

(** C3, as the code has it.  The multiplier of a tick is computed from
    the baseline 5 and the bounding box of the anchors of that tick: it
    is at least 5, the viewport and so the multiplier of the tick before
    play no part in it, and of two ticks the one whose bounding box is at
    least as large on both axes has the multiplier that is at least as
    large. *)
Theorem tick_multiplier_recomputed (TILE_SIZE SPEED FRAME_TIME : Z)
    (fuel1 fuel2 : nat) (ih1 ih2 : InputHandler) (gm gm1 : GameManager)
    (delta1 delta2 : Z) (objs1 objs2 : list GameObject) (c1 c2 : CameraScan)
    (m1 m2 : Z) :
  GameManager_runTick TILE_SIZE SPEED FRAME_TIME fuel1 ih1 gm delta1 = Some gm1 →
  tick_objects TILE_SIZE SPEED FRAME_TIME ih1 (map_manager gm) (paused gm) delta1
    (objects gm) CameraScan_init = Some (objs1, c1) →
  tick_objects TILE_SIZE SPEED FRAME_TIME ih2 (map_manager gm1) (paused gm1) delta2
    (objects gm1) CameraScan_init = Some (objs2, c2) →
  tick_multiplier TILE_SIZE SPEED FRAME_TIME fuel1 ih1 gm delta1 = Some m1 →
  tick_multiplier TILE_SIZE SPEED FRAME_TIME fuel2 ih2 gm1 delta2 = Some m2 →
  5 ≤ m1 ∧ 5 ≤ m2
  ∧ width (renderer gm1) = 4 * m1 * TILE_SIZE
  ∧ height (renderer gm1) = 3 * m1 * TILE_SIZE
  ∧ (∀ r, tick_multiplier TILE_SIZE SPEED FRAME_TIME fuel2 ih2
            (mkGameManager r (map_manager gm1) (objects gm1) (paused gm1)) delta2
          = Some m2)
  ∧ (span_x c1 ≤ span_x c2 → span_y c1 ≤ span_y c2 → m1 ≤ m2).
Proof.
  intros Hrun Hobjs1 Hobjs2 Hm1 Hm2.
  unfold tick_multiplier in Hm1, Hm2. unfold GameManager_runTick in Hrun.
  rewrite Hobjs1 in Hm1, Hrun. rewrite Hobjs2 in Hm2. simpl in Hm1, Hm2, Hrun.
  rewrite Hm1 in Hrun. simpl in Hrun.
  destruct (scan_multiplier_spec _ _ _ _ Hm1) as (Hge1 & Hexit1 & Hpassed1).
  destruct (scan_multiplier_spec _ _ _ _ Hm2) as (Hge2 & Hexit2 & Hpassed2).
  split; [done|]. split; [done|].
  split. { destruct (0 <? camera_count c1); by injection Hrun as <-. }
  split. { destruct (0 <? camera_count c1); by injection Hrun as <-. }
  split.
  { intros r. unfold tick_multiplier. simpl. rewrite Hobjs2. done. }
  intros Hsx Hsy.
  destruct (Z.le_gt_cases m1 m2) as [Hle|Hgt]; [done|].
  destruct (Hpassed1 m2) as [Hx Hy]; [lia|]. lia.
Qed.

(** ** The player *)

Lemma for_each_total {A S : Type} (body : S → A → option S) (l : list A) :
  (∀ s a, ∃ s', body s a = Some s') → ∀ s, ∃ s', for_each body s l = Some s'.
Proof.
  intros Hbody. induction l as [|a l IH]; intros s; simpl; [by eexists|].
  destruct (Hbody s a) as [s1 ->]. simpl. apply IH.
Qed.

(** [checkCollision] always returns. *)
Lemma checkCollision_total (m : MapManager) (o : GameObject) (offset_x offset_y : Z) :
  ∃ c, checkCollision m o offset_x offset_y = Some c.
Proof.
  unfold checkCollision. apply for_each_total. intros coll x.
  apply for_each_total. intros coll' y.
  destruct (getCollision_Some m (map_x o + offset_x + x) (map_y o + offset_y + y))
    as [c ->]. by eexists.
Qed.

Lemma input_move_total (TILE_SIZE : Z) (ih : InputHandler) (m : MapManager)
    (type : Z) (o : GameObject) (d : DIR) :
  ∃ o', input_move TILE_SIZE ih m type o d = Some o'.
Proof.
  unfold input_move. destruct (player_input ih type d); [|by eexists].
  destruct (checkCollision_total m o (dir_offset d).1 (dir_offset d).2) as [c ->].
  by eexists.
Qed.

(** [Player::runTick], the four polls folded. *)
Lemma Player_runTick_poll (TILE_SIZE SPEED FRAME_TIME : Z) (ih : InputHandler)
    (m : MapManager) (type : Z) (o : GameObject) (delta : Z) :
  Player_runTick TILE_SIZE SPEED FRAME_TIME ih m type o delta =
  let o1 := GameObject_runTick SPEED FRAME_TIME o delta in
  if (current_frame o1 =? 0) || (current_frame o1 =? stop_frame o1)
  then poll_directions TILE_SIZE ih m type o1 [UP; RIGHT; DOWN; LEFT]
  else Some o1.
Proof.
  unfold Player_runTick, poll_directions. simpl.
  set (o1 := GameObject_runTick SPEED FRAME_TIME o delta).
  destruct ((current_frame o1 =? 0) || (current_frame o1 =? stop_frame o1)); [|done].
  unfold input_move, and_then.
  repeat (simpl;
    match goal with
    | |- context [player_input ih type ?d] =>
        destruct (player_input ih type d)
    | |- context [checkCollision m ?p ?x ?y] =>
        destruct (checkCollision m p x y) as [?c|]
    | |- context [?c <? 1] => destruct (c <? 1)
    end); done.
Qed.

Lemma poll_directions_total (TILE_SIZE : Z) (ih : InputHandler) (m : MapManager)
    (type : Z) (ds : list DIR) (o : GameObject) :
  ∃ o', poll_directions TILE_SIZE ih m type o ds = Some o'.
Proof.
  unfold poll_directions. apply for_each_total. intros p d.
  apply input_move_total.
Qed.

(** What [setMapPos] does to an object that has a walker when the move
    is animated: the logical position is set, the walker gets the new
    destination and the screen position stays. *)
Lemma setMapPos_animated (TILE_SIZE : Z) (o : GameObject) (w : ObjectWalker) (x y : Z) :
  object_walker o = Some w →
  let o' := setMapPos TILE_SIZE o x y true in
  map_x o' = x ∧ map_y o' = y
  ∧ object_walker o' = Some (setDestination w (x * TILE_SIZE) (y * TILE_SIZE))
  ∧ screen_x o' = screen_x o ∧ screen_y o' = screen_y o
  ∧ current_frame o' = current_frame o ∧ dir o' = dir o.
Proof. intros Hw. unfold setMapPos. simpl. by rewrite Hw. Qed.

Lemma setMapPos_map (TILE_SIZE : Z) (o : GameObject) (x y : Z) (anim : bool) :
  map_x (setMapPos TILE_SIZE o x y anim) = x
  ∧ map_y (setMapPos TILE_SIZE o x y anim) = y.
Proof. unfold setMapPos. simpl. by destruct (object_walker o), anim. Qed.

Lemma one_tile_offset (d : DIR) (x y : Z) :
  one_tile d x y = (x + (dir_offset d).1, y + (dir_offset d).2).
Proof. destruct d; simpl; f_equal; lia. Qed.

Lemma Player_runTick_total (TILE_SIZE SPEED FRAME_TIME : Z) (ih : InputHandler)
    (m : MapManager) (type : Z) (o : GameObject) (delta : Z) :
  ∃ o', Player_runTick TILE_SIZE SPEED FRAME_TIME ih m type o delta = Some o'.
Proof.
  rewrite Player_runTick_poll. simpl.
  destruct (_ || _); [apply poll_directions_total|by eexists].
Qed.

(** The input test of a poll in terms of the two queries of the input
    handler and of the type of the player. *)
Lemma player_input_true (ih : InputHandler) (type : Z) (d : DIR) :
  player_input ih type d = true
  ↔ (isPlayer ih d = true ∧ type = 0) ∨ (isPlayer2 ih d = true ∧ type = 1).
Proof.
  unfold player_input.
  destruct (isPlayer ih d), (isPlayer2 ih d), (Z.eqb_spec type 0), (Z.eqb_spec type 1);
    simpl; split; try done; try (intros _; auto; fail);
    intros [[? ?]|[? ?]]; (done || lia).
Qed.

(** C9, as the code has it.  [Player::runTick] always returns.  When,
    the tick of the base class done, the current frame is 0 or the stop
    frame, it polls up, right, down and left in this order, and each poll
    works on the object as the polls before it in the same tick left it:
    its [checkCollision] is taken from the logical position reached so
    far, not from the one at the start of the tick.  A poll whose input is
    active (the first query of the input handler for a player of type 0,
    the second one for type 1) and whose [checkCollision] at the offset
    of its direction is below 1 moves the logical position by that
    offset, and the move is animated: the walker of the object gets the
    pixel position of the new tile as destination and both deadlines at
    0, its clock is kept, and the screen position is not touched.  A poll
    whose input is not active or whose [checkCollision] is 1 or more
    leaves the object as it is.  So several polls may move the object in
    one tick.  When the current frame is neither 0 nor the stop frame the
    tick does nothing more than the base class. *)
Theorem Player_runTick_inputs (TILE_SIZE SPEED FRAME_TIME : Z) (ih : InputHandler)
    (m : MapManager) (type : Z) (o : GameObject) (delta : Z) :
  let o1 := GameObject_runTick SPEED FRAME_TIME o delta in
  let run := Player_runTick TILE_SIZE SPEED FRAME_TIME ih m type o delta in
  let active d :=
    (isPlayer ih d = true ∧ type = 0) ∨ (isPlayer2 ih d = true ∧ type = 1) in
  let poll := input_move TILE_SIZE ih m type in
  (∃ o', run = Some o')
  ∧ (current_frame o1 = 0 ∨ current_frame o1 = stop_frame o1 →
       run = poll_directions TILE_SIZE ih m type o1 [UP; RIGHT; DOWN; LEFT]
       ∧ ∃ o2 o3 o4 o5,
           poll o1 UP = Some o2 ∧ poll o2 RIGHT = Some o3
           ∧ poll o3 DOWN = Some o4 ∧ poll o4 LEFT = Some o5
           ∧ run = Some o5)
  ∧ (current_frame o1 ≠ 0 → current_frame o1 ≠ stop_frame o1 → run = Some o1)
  ∧ (∀ p d, ∃ c,
       checkCollision m p (dir_offset d).1 (dir_offset d).2 = Some c
       ∧ (active d → c < 1 →
            ∃ p', poll p d = Some p'
              ∧ p' = setMapPos TILE_SIZE p (map_x p + (dir_offset d).1)
                       (map_y p + (dir_offset d).2) true
              ∧ map_x p' = map_x p + (dir_offset d).1
              ∧ map_y p' = map_y p + (dir_offset d).2
              ∧ size_x p' = size_x p ∧ size_y p' = size_y p
              ∧ current_frame p' = current_frame p ∧ dir p' = dir p
              ∧ (∀ w, object_walker p = Some w →
                   object_walker p'
                   = Some (mkObjectWalker (map_x p' * TILE_SIZE) (map_y p' * TILE_SIZE)
                             (tick w) 0 0)
                   ∧ screen_x p' = screen_x p ∧ screen_y p' = screen_y p))
       ∧ (¬ active d ∨ 1 ≤ c → poll p d = Some p)).
Proof.
  intros o1 run active poll. subst run. split; [apply Player_runTick_total|].
  rewrite Player_runTick_poll. fold o1. simpl.
  split; [|split].
  - intros Hidle.
    assert ((current_frame o1 =? 0) || (current_frame o1 =? stop_frame o1) = true)
      as ->.
    { destruct (Z.eqb_spec (current_frame o1) 0);
        destruct (Z.eqb_spec (current_frame o1) (stop_frame o1)); simpl; try done; lia. }
    split; [done|]. unfold poll_directions. simpl. subst poll.
    destruct (input_move_total TILE_SIZE ih m type o1 UP) as [o2 H2].
    destruct (input_move_total TILE_SIZE ih m type o2 RIGHT) as [o3 H3].
    destruct (input_move_total TILE_SIZE ih m type o3 DOWN) as [o4 H4].
    destruct (input_move_total TILE_SIZE ih m type o4 LEFT) as [o5 H5].
    exists o2, o3, o4, o5. rewrite H2. simpl. rewrite H3. simpl.
    rewrite H4. simpl. rewrite H5. done.
  - intros Hz Hs.
    destruct (Z.eqb_spec (current_frame o1) 0);
      destruct (Z.eqb_spec (current_frame o1) (stop_frame o1)); simpl; try done; lia.
  - intros p d.
    destruct (checkCollision_total m p (dir_offset d).1 (dir_offset d).2) as [c Hc].
    exists c. split; [done|]. subst poll. unfold input_move. rewrite Hc. simpl. split.
    + intros Hactive Hlt. apply player_input_true in Hactive as ->.
      destruct (Z.ltb_spec c 1); [|lia].
      eexists. split; [done|].
      rewrite one_tile_offset. simpl. split; [done|].
      split; [apply setMapPos_map|]. split; [apply setMapPos_map|].
      split; [unfold setMapPos; simpl; by destruct (object_walker p)|].
      split; [unfold setMapPos; simpl; by destruct (object_walker p)|].
      split; [unfold setMapPos; simpl; by destruct (object_walker p)|].
      split; [unfold setMapPos; simpl; by destruct (object_walker p)|].
      intros w Hw.
      destruct (setMapPos_animated TILE_SIZE p w (map_x p + (dir_offset d).1)
                  (map_y p + (dir_offset d).2) Hw) as (-> & -> & -> & -> & -> & _).
      done.
    + intros [Hinactive|Hge].
      * destruct (player_input ih type d) eqn:Hin; [|done].
        apply player_input_true in Hin. done.
      * destruct (player_input ih type d); [|done].
        destruct (Z.ltb_spec c 1); [lia|done].
Qed.

(** ** The world tick always returns *)

Lemma object_runTick_total (TILE_SIZE SPEED FRAME_TIME : Z) (ih : InputHandler)
    (m : MapManager) (o : GameObject) (delta : Z) :
  ∃ o', object_runTick TILE_SIZE SPEED FRAME_TIME ih m o delta = Some o'.
Proof.
  unfold object_runTick. destruct (kind o); [by eexists|].
  apply Player_runTick_total.
Qed.

Lemma tick_objects_total (TILE_SIZE SPEED FRAME_TIME : Z) (ih : InputHandler)
    (m : MapManager) (paused : bool) (delta : Z) (objs : list GameObject) :
  ∀ c, ∃ r, tick_objects TILE_SIZE SPEED FRAME_TIME ih m paused delta objs c = Some r.
Proof.
  induction objs as [|obj objs IH]; intros c; simpl; [by eexists|].
  assert (∃ obj', (if negb paused
                   then object_runTick TILE_SIZE SPEED FRAME_TIME ih m obj delta
                   else Some obj) = Some obj') as [obj' ->].
  { destruct paused; simpl; [by eexists|apply object_runTick_total]. }
  simpl. destruct (IH (scan_object TILE_SIZE obj' c)) as [[rest c'] ->].
  by eexists.
Qed.

(** With a positive tile size [GameManager::runTick] returns, given
    enough fuel for the loop of the multiplier. *)
Lemma GameManager_runTick_total (TILE_SIZE SPEED FRAME_TIME : Z)
    (ih : InputHandler) (gm : GameManager) (delta : Z) :
  0 < TILE_SIZE →
  ∃ fuel, ∀ fuel', (fuel ≤ fuel')%nat →
    ∃ gm', GameManager_runTick TILE_SIZE SPEED FRAME_TIME fuel' ih gm delta = Some gm'.
Proof.
  intros HT. unfold GameManager_runTick.
  destruct (tick_objects_total TILE_SIZE SPEED FRAME_TIME ih (map_manager gm)
              (paused gm) delta (objects gm) CameraScan_init) as [[objs c] ->].
  simpl. exists (S (Z.to_nat (span_x c))). intros fuel' Hfuel.
  destruct (multiplier_loop_terminates TILE_SIZE fuel' (span_x c) (span_y c) HT 5)
    as [r Hr]; [lia|lia|lia|].
  unfold scan_multiplier. fold (span_x c) (span_y c). rewrite Hr. simpl.
  destruct (0 <? camera_count c); by eexists.
Qed.

(** ** The properties on the sample states *)

(** The scenario of the specification: a map whose only record is a
    blocking tile at (2, 2), spawn (0, 0). *)
Example loadMap_scenario :
  ∃ m, loadMap MapManager_empty (0, 0) [TileRecord 2 2 "tile.png" 1 0] = Some m
    ∧ getCollision m 2 2 = Some 1
    ∧ getCollision m 0 0 = Some 1
    ∧ grid_width m = 3%nat ∧ grid_height m = 3%nat
    ∧ cell (tile m) 2 2 = Some (LoadedTexture "tile.png")
    ∧ cell (tile m) 0 0 = Some MissingTexture.
Proof. eexists. split; [vm_compute; reflexivity|]. by vm_compute. Qed.

(** Up and right pressed on the bottom left tile of the sample grid:
    both polls move the player, which ends on the middle tile. *)
Example Player_runTick_up_and_right :
  (getMapPos <$> Player_runTick 16 10 100 up_right_input sample_grid 0
                   (player_at 16 0 2) 11) = Some (1, 1).
Proof. vm_compute. reflexivity. Qed.

(** Up and right pressed on the middle tile: the tile to the right is
    free, but the poll of right follows the move up and finds the block
    at (2, 0); only the move up is made. *)
Example Player_runTick_right_after_up :
  getCollision sample_grid 2 1 = Some 0
  ∧ (getMapPos <$> Player_runTick 16 10 100 up_right_input sample_grid 0
                     (player_at 16 1 1) 11) = Some (1, 0).
Proof. split; vm_compute; reflexivity. Qed.

(** Up and right pressed on the middle tile of the grid with a block at
    (2, 1): the tile to the right is blocked when the tick starts, but
    the poll of right follows the move up and finds (2, 0) free; both
    moves are made. *)
Example Player_runTick_right_blocked_at_start :
  let o1 := GameObject_runTick 10 100 (player_at 16 1 1) 11 in
  checkCollision ledge_grid o1 1 0 = Some 1
  ∧ (getMapPos <$> Player_runTick 16 10 100 up_right_input ledge_grid 0
                     (player_at 16 1 1) 11) = Some (2, 0).
Proof. split; vm_compute; reflexivity. Qed.

(** C9, the claim as written fails: on the middle tile of the sample
    grid the frame is 0 after the tick of the base class, up and right
    are both active and neither is blocked on its own ([checkCollision]
    from the position of the player is 0 for the offset of up and for the
    offset of right), yet the tick does not apply both moves: the player
    ends on (1, 0), one tile up, not on (2, 0). *)
Lemma Player_runTick_polls_not_independent :
  let o := player_at 16 1 1 in
  let o1 := GameObject_runTick 10 100 o 11 in
  getMapPos o1 = (1, 1)
  ∧ (current_frame o1 = 0 ∨ current_frame o1 = stop_frame o1)
  ∧ isPlayer up_right_input UP = true
  ∧ isPlayer up_right_input RIGHT = true
  ∧ checkCollision sample_grid o1 0 (-1) = Some 0
  ∧ checkCollision sample_grid o1 1 0 = Some 0
  ∧ (getMapPos <$> Player_runTick 16 10 100 up_right_input sample_grid 0 o 11)
    = Some (1, 0)
  ∧ (getMapPos <$> Player_runTick 16 10 100 up_right_input sample_grid 0 o 11)
    ≠ Some (map_x o1 + 1, map_y o1 - 1).
Proof.
  intros o o1.
  split; [vm_compute; reflexivity|]. split; [left; vm_compute; reflexivity|].
  do 5 (split; [vm_compute; reflexivity|]). vm_compute. discriminate.
Qed.

(** C1, the claim as written fails: the third call leaves the frame at
    0, which is not the stop frame 5. *)
Lemma stopFrame_third_call_stays_at_zero :
  current_frame walking_player ≠ 0
  ∧ current_frame walking_player ≠ stop_frame walking_player
  ∧ current_frame (stopFrame (stopFrame (stopFrame walking_player DOWN) DOWN) DOWN)
    ≠ stop_frame walking_player.
Proof. repeat split; vm_compute; discriminate. Qed.

(** The three calls on the player in the middle of its walk cycle. *)
Lemma stopFrame_three_calls_witness :
  current_frame walking_player ≠ 0
  ∧ current_frame walking_player ≠ stop_frame walking_player
  ∧ current_frame (stopFrame walking_player DOWN) = 5
  ∧ current_frame (stopFrame (stopFrame walking_player DOWN) UP) = 0
  ∧ current_frame (stopFrame (stopFrame (stopFrame walking_player DOWN) UP) LEFT) = 0.
Proof.
  assert (current_frame walking_player ≠ 0) as H1 by (vm_compute; discriminate).
  assert (current_frame walking_player ≠ stop_frame walking_player) as H2
    by (vm_compute; discriminate).
  split; [exact H1|]. split; [exact H2|].
  exact (stopFrame_three_calls walking_player DOWN UP LEFT H1 H2).
Defined.

(** C3, the claim as written fails: in the world of the approaching
    player the first tick uses the multiplier 6 and the next one 5. *)
Lemma tick_multiplier_decreases :
  tick_multiplier 16 10 100 8 no_input approaching_world 11 = Some 6
  ∧ (GameManager_runTick 16 10 100 8 no_input approaching_world 11
       ≫= λ gm1, tick_multiplier 16 10 100 8 no_input gm1 11) = Some 5.
Proof. split; vm_compute; reflexivity. Qed.

(** Two ticks of the world of the receding player: the bounding box
    grows and the multiplier goes from 5 to 6. *)
Lemma tick_multiplier_recomputed_witness :
  GameManager_runTick 16 10 100 8 no_input receding_world 11 = Some receding_world_next
  ∧ tick_multiplier 16 10 100 8 no_input receding_world 11 = Some 5
  ∧ tick_multiplier 16 10 100 8 no_input receding_world_next 11 = Some 6
  ∧ span_x receding_scan1 ≤ span_x receding_scan2
  ∧ span_y receding_scan1 ≤ span_y receding_scan2
  ∧ width (renderer receding_world_next) = 4 * 5 * 16
  ∧ 5 ≤ 6.
Proof.
  assert (GameManager_runTick 16 10 100 8 no_input receding_world 11
          = Some receding_world_next) as Hrun by (vm_compute; reflexivity).
  assert (tick_multiplier 16 10 100 8 no_input receding_world 11 = Some 5) as Hm1
    by (vm_compute; reflexivity).
  assert (tick_multiplier 16 10 100 8 no_input receding_world_next 11 = Some 6) as Hm2
    by (vm_compute; reflexivity).
  assert (span_x receding_scan1 ≤ span_x receding_scan2) as Hsx by (vm_compute; discriminate).
  assert (span_y receding_scan1 ≤ span_y receding_scan2) as Hsy by (vm_compute; discriminate).
  destruct (tick_multiplier_recomputed 16 10 100 8 8 no_input no_input
              receding_world receding_world_next 11 11
              (objects receding_world_next) receding_objects2
              receding_scan1 receding_scan2 5 6 Hrun
              ltac:(vm_compute; reflexivity) ltac:(vm_compute; reflexivity) Hm1 Hm2)
    as (_ & _ & Hwidth & _ & _ & Hmono).
  repeat (split; [assumption|]). exact (Hmono Hsx Hsy).
Defined.

(** C4, the claim as written fails: the walker at clock 5 with its
    deadline at 15 gets a tick of 10; the updated clock equals the
    deadline and no step is made, the object staying five pixels from
    the target. *)
Lemma ObjectWalker_runTick_at_deadline :
  wrap64 (tick waiting_walker + 10) = movement_deadline waiting_walker
  ∧ (ObjectWalker_runTick 10 100 waiting_walker waiting_object 10).2 = waiting_object
  ∧ screen_x waiting_object ≠ dest_x waiting_walker
  ∧ screen_y waiting_object ≠ dest_y waiting_walker.
Proof.
  split; [vm_compute; reflexivity|]. split; [vm_compute; reflexivity|].
  split; vm_compute; discriminate.
Qed.

(** The same walker with a tick of 11: the clock passes the deadline and
    the step is made. *)
Lemma ObjectWalker_runTick_deadline_witness :
  movement_deadline waiting_walker < wrap64 (tick waiting_walker + 11)
  ∧ screen_x (ObjectWalker_runTick 10 100 waiting_walker waiting_object 11).2 = 1
  ∧ screen_y (ObjectWalker_runTick 10 100 waiting_walker waiting_object 11).2 = 1
  ∧ movement_deadline (ObjectWalker_runTick 10 100 waiting_walker waiting_object 11).1 = 26.
Proof.
  assert (movement_deadline waiting_walker < wrap64 (tick waiting_walker + 11)) as Hdue
    by (vm_compute; reflexivity).
  split; [exact Hdue|].
  destruct (ObjectWalker_runTick_deadline 10 100 waiting_walker waiting_object 11)
    as (_ & Hstep & _).
  exact (Hstep Hdue).
Defined.

(** Five ticks of 11 take the waiting object the five pixels to its
    target. *)
Lemma ObjectWalker_exact_arrival_witness :
  0 ≤ 10
  ∧ Forall (λ delta, 10 < delta) [11; 11; 11; 11; 11]
  ∧ 0 ≤ tick waiting_walker
  ∧ movement_deadline waiting_walker ≤ tick waiting_walker + 10
  ∧ tick waiting_walker + elapsed [11; 11; 11; 11; 11] + 10 < 2 ^ 64
  ∧ Z.abs (dest_x waiting_walker - screen_x waiting_object)
      `max` Z.abs (dest_y waiting_walker - screen_y waiting_object)
    ≤ Z.of_nat (length [11; 11; 11; 11; 11])
  ∧ screen_x (walker_ticks 10 100 [11; 11; 11; 11; 11] waiting_walker waiting_object).2 = 5
  ∧ screen_y (walker_ticks 10 100 [11; 11; 11; 11; 11] waiting_walker waiting_object).2 = 5.
Proof.
  assert (0 ≤ 10) as H1 by lia.
  assert (Forall (λ delta, 10 < delta) [11; 11; 11; 11; 11]) as H2
    by (repeat constructor).
  assert (0 ≤ tick waiting_walker) as H3 by (vm_compute; discriminate).
  assert (movement_deadline waiting_walker ≤ tick waiting_walker + 10) as H4
    by (vm_compute; discriminate).
  assert (tick waiting_walker + elapsed [11; 11; 11; 11; 11] + 10 < 2 ^ 64) as H5
    by (vm_compute; reflexivity).
  assert (Z.abs (dest_x waiting_walker - screen_x waiting_object)
            `max` Z.abs (dest_y waiting_walker - screen_y waiting_object)
          ≤ Z.of_nat (length [11; 11; 11; 11; 11])) as H6
    by (vm_compute; discriminate).
  do 6 (split; [assumption|]).
  destruct (ObjectWalker_exact_arrival 10 100 waiting_walker waiting_object)
    as (_ & _ & Harrive).
  exact (Harrive [11; 11; 11; 11; 11] H1 H2 H3 H4 H5 H6).
Defined.

(** C6, the claim as written fails: an absolute resize to (0, 0) of the
    grid of one walkable tile leaves the grid as it was, the cell still
    holding its texture and collision 0. *)
Lemma resizeMapStorage_absolute_keeps_cell :
  resizeMapStorage single_tile_grid 0 0 true = Some single_tile_grid
  ∧ cell (tile single_tile_grid) 0 0 = Some (LoadedTexture "grass.png")
  ∧ cell (collision single_tile_grid) 0 0 = Some 0
  ∧ cell (tile single_tile_grid) 0 0 ≠ Some MissingTexture
  ∧ cell (collision single_tile_grid) 0 0 ≠ Some 1.
Proof.
  split; [vm_compute; reflexivity|]. split; [reflexivity|]. split; [reflexivity|].
  split; vm_compute; discriminate.
Qed.

(** An absolute resize of the sample grid to two by four: the cells kept
    and the cells created. *)
Lemma resizeMapStorage_absolute_witness :
  -1 ≤ 1 ∧ -1 ≤ 3
  ∧ ∃ m', resizeMapStorage sample_grid 1 3 true = Some m'
      ∧ Z.of_nat (length (tile m')) = 1 + 1
      ∧ cell (tile m') 1 2 = Some (LoadedTexture "grass.png")
      ∧ cell (collision m') 1 3 = Some 1.
Proof.
  assert (-1 ≤ 1) as H1 by lia. assert (-1 ≤ 3) as H2 by lia.
  split; [exact H1|]. split; [exact H2|].
  destruct (resizeMapStorage_absolute sample_grid 1 3 H1 H2)
    as (m' & Hres & Hw & _ & _ & _ & Hcells & _).
  exists m'. split; [exact Hres|]. split; [exact Hw|].
  split.
  - exact (proj1 (Hcells 1%nat 2%nat ltac:(lia) ltac:(lia))).
  - exact (proj2 (Hcells 1%nat 3%nat ltac:(lia) ltac:(lia))).
Defined.

(** The sample grid is well formed. *)
Lemma grid_ok_sample_grid : grid_ok sample_grid.
Proof. split; [reflexivity|]. split; repeat constructor. Defined.

(** Two growing calls on the sample grid. *)
Lemma resizeMapStorage_growth_witness :
  grid_ok sample_grid
  ∧ Forall (λ c, 0 ≤ c.1 < INT_MAX ∧ 0 ≤ c.2 < INT_MAX) [(4, 1); (0, 5)]
  ∧ ∃ m', resize_all sample_grid [(4, 1); (0, 5)] = Some m'
      ∧ Z.of_nat (grid_width m') = 5
      ∧ Z.of_nat (grid_height m') = 6
      ∧ cell (collision m') 2 0 = Some 1
      ∧ cell (tile m') 1 1 = Some (LoadedTexture "grass.png").
Proof.
  assert (Forall (λ c, 0 ≤ c.1 < INT_MAX ∧ 0 ≤ c.2 < INT_MAX) [(4, 1); (0, 5)]) as Hcalls.
  { repeat constructor; simpl; unfold INT_MAX; lia. }
  split; [exact grid_ok_sample_grid|]. split; [exact Hcalls|].
  destruct (resizeMapStorage_growth sample_grid [(4, 1); (0, 5)]
              grid_ok_sample_grid Hcalls)
    as (m' & Hres & _ & Hw & Hh & _ & _ & Htile & Hcoll & _).
  exists m'. split; [exact Hres|]. split; [exact Hw|]. split; [exact Hh|].
  split; [apply Hcoll|apply Htile]; reflexivity.
Defined.

(** Collision queries outside and inside the sample grid. *)
Lemma getCollision_default_witness :
  grid_ok sample_grid
  ∧ getCollision sample_grid 3 0 = Some 1
  ∧ getCollision sample_grid 1 (-2) = Some 1
  ∧ ∃ c, cell (collision sample_grid) 1 2 = Some c ∧ getCollision sample_grid 1 2 = Some c.
Proof.
  split; [exact grid_ok_sample_grid|].
  split; [|split].
  - apply (proj2 (getCollision_default sample_grid 3 0) grid_ok_sample_grid).
    right; right; left. vm_compute. discriminate.
  - apply (proj2 (getCollision_default sample_grid 1 (-2)) grid_ok_sample_grid).
    right; left. lia.
  - apply (proj2 (getCollision_default sample_grid 1 2) grid_ok_sample_grid);
      (split; [lia|vm_compute; reflexivity]).
Defined.

(** The tick of a player at rest on the bottom left tile of the sample
    grid with up and right pressed: the poll of up moves it to (0, 1) and
    gives its walker the destination (0, 16); the poll of right, from
    there, moves it to (1, 1), so the tick ends on (1, 1) with the walker
    heading for (16, 16), both deadlines at 0, and the screen position
    still (0, 32). *)
Lemma Player_runTick_inputs_witness :
  let o := player_at 16 0 2 in
  let o1 := GameObject_runTick 10 100 o 11 in
  (current_frame o1 = 0 ∨ current_frame o1 = stop_frame o1)
  ∧ ((isPlayer up_right_input UP = true ∧ 0 = 0)
     ∨ (isPlayer2 up_right_input UP = true ∧ 0 = 1))
  ∧ (∃ p', input_move 16 up_right_input sample_grid 0 o1 UP = Some p'
       ∧ map_x p' = 0 ∧ map_y p' = 1
       ∧ object_walker p' = Some (mkObjectWalker 0 16 11 0 0)
       ∧ screen_x p' = 0 ∧ screen_y p' = 32)
  ∧ ∃ o', Player_runTick 16 10 100 up_right_input sample_grid 0 o 11 = Some o'
      ∧ getMapPos o' = (1, 1)
      ∧ object_walker o' = Some (mkObjectWalker 16 16 11 0 0)
      ∧ getScreenPos o' = (0, 32).
Proof.
  intros o o1.
  assert (current_frame o1 = 0 ∨ current_frame o1 = stop_frame o1) as Hidle
    by (left; vm_compute; reflexivity).
  assert ((isPlayer up_right_input UP = true ∧ 0 = 0)
          ∨ (isPlayer2 up_right_input UP = true ∧ 0 = 1)) as Hup
    by (left; split; vm_compute; reflexivity).
  assert (object_walker o1 = Some (mkObjectWalker 0 32 11 21 111)) as Hwalker
    by (vm_compute; reflexivity).
  destruct (Player_runTick_inputs 16 10 100 up_right_input sample_grid 0 o 11)
    as (_ & Hpoll & _ & Hone).
  split; [exact Hidle|]. split; [exact Hup|]. split.
  - destruct (Hone o1 UP) as (c & Hc & Hmove & _).
    assert (c < 1) as Hlt.
    { assert (checkCollision sample_grid o1 (dir_offset UP).1 (dir_offset UP).2
              = Some 0) as H0 by (vm_compute; reflexivity).
      rewrite H0 in Hc. injection Hc as <-. lia. }
    destruct (Hmove Hup Hlt) as (p' & Hp' & _ & Hx & Hy & _ & _ & _ & _ & Hw).
    destruct (Hw _ Hwalker) as (Hw' & Hsx & Hsy).
    exists p'. split; [exact Hp'|].
    rewrite Hw', Hx, Hy, Hsx, Hsy. vm_compute. repeat split; reflexivity.
  - destruct (Hpoll Hidle) as [Hfold _]. rewrite Hfold.
    eexists. split; [vm_compute; reflexivity|].
    vm_compute. repeat split; reflexivity.
Defined.

(** The object facing left arrives on its target and still faces left. *)
Lemma stopFrame_keeps_dir_witness :
  Z.abs (dest_x arriving_walker - screen_x arriving_object) ≤ 1
  ∧ Z.abs (dest_y arriving_walker - screen_y arriving_object) ≤ 1
  ∧ getScreenPos (ObjectWalker_runTick 10 100 arriving_walker arriving_object 11).2
    = (320, 256)
  ∧ dir (ObjectWalker_runTick 10 100 arriving_walker arriving_object 11).2 = LEFT.
Proof.
  assert (Z.abs (dest_x arriving_walker - screen_x arriving_object) ≤ 1) as Hx
    by (vm_compute; discriminate).
  assert (Z.abs (dest_y arriving_walker - screen_y arriving_object) ≤ 1) as Hy
    by (vm_compute; discriminate).
  split; [exact Hx|]. split; [exact Hy|]. split; [vm_compute; reflexivity|].
  destruct (stopFrame_keeps_dir arriving_object DOWN) as (_ & _ & Hwalk).
  exact (Hwalk 10 100 arriving_walker 11 Hx Hy).
Defined.

(** * Further properties *)

(** ** Map storage, loading and drawing *)

(** [getCollision] in terms of the cells of [collision]. *)
Lemma getCollision_cell (m : MapManager) (x y : Z) :
  getCollision m x y =
  Some (if (x <? 0) || (y <? 0) then 1
        else default 1 (cell (collision m) (Z.to_nat x) (Z.to_nat y))).
Proof.
  unfold getCollision, cell.
  destruct (Z.ltb_spec x 0); [done|].
  destruct (Z.ltb_spec y 0); [done|]. simpl.
  destruct (Z.leb_spec (Z.of_nat (length (collision m))) x).
  - by rewrite lookup_ge_None_2 by lia.
  - destruct (lookup_lt_is_Some_2 (collision m) (Z.to_nat x)) as [col ->]; [lia|].
    simpl. destruct (Z.leb_spec (Z.of_nat (length col)) y).
    + by rewrite lookup_ge_None_2 by lia.
    + destruct (lookup_lt_is_Some_2 col (Z.to_nat y)) as [c ->]; [lia|]. done.
Qed.

(** X1.  Growing the storage is invisible to collision queries: after a
    non-absolute [resizeMapStorage] at a cell coordinate of a well-formed
    grid, [getCollision] answers every coordinate pair as before. *)
Theorem getCollision_resizeMapStorage (m m' : MapManager) (x y : Z) :
  grid_ok m → 0 ≤ x < INT_MAX → 0 ≤ y < INT_MAX →
  resizeMapStorage m x y false = Some m' →
  ∀ pos_x pos_y, getCollision m' pos_x pos_y = getCollision m pos_x pos_y.
Proof.
  intros Hok Hx Hy Hres pos_x pos_y.
  rewrite resizeMapStorage_grow_eq in Hres by done. injection Hres as <-.
  rewrite !getCollision_cell. simpl. f_equal.
  destruct ((pos_x <? 0) || (pos_y <? 0)); [done|].
  rewrite cell_resize. case_decide as Hin; [by destruct (cell (collision m) _ _)|].
  destruct (cell (collision m) (Z.to_nat pos_x) (Z.to_nat pos_y)) as [c|] eqn:Hc; [|done].
  destruct Hok as (Hlen & _ & Hcols).
  apply (cell_Some_lt _ _ _ _ _ Hcols) in Hc. unfold grid_width in Hin. exfalso. lia.
Qed.

(** X2.  A resize whose [x + 1] is negative throws, in both modes; so
    does one whose [y + 1] is negative while the new width is positive.
    An absolute resize to width 0 succeeds whatever [y] is. *)
Theorem resizeMapStorage_negative (m : MapManager) (x y : Z) (absolute : bool) :
  Z.of_nat (grid_width m) ≤ INT_MAX → Z.of_nat (grid_height m) ≤ INT_MAX →
  INT_MIN ≤ x → INT_MIN ≤ y →
  (x < -1 → resizeMapStorage m x y absolute = None)
  ∧ (0 ≤ x → y < -1 → resizeMapStorage m x y absolute = None)
  ∧ resizeMapStorage m (-1) y true
    = Some (mkMapManager [] [] (spawn_x m) (spawn_y m)).
Proof.
  intros Hw Hh Hx Hy. unfold INT_MAX, INT_MIN, grid_width, grid_height in *.
  assert (∀ (n : nat) z, Z.of_nat n ≤ 2 ^ 31 - 1 → - 2 ^ 31 ≤ z → z + 1 < 0 →
            size_gt_int n (z + 1) = false) as Hcmp.
  { intros n z Hn Hz Hneg. unfold size_gt_int, size_t_of_int.
    apply Z.ltb_ge.
    rewrite <- (Z.mod_add (z + 1) 1 (2 ^ 64)) by lia.
    rewrite Z.mod_small; lia. }
  split; [|split].
  - intros Hneg. unfold resizeMapStorage.
    destruct absolute.
    + destruct (Z.ltb_spec (x + 1) 0); [done|lia].
    + rewrite Hcmp by lia. destruct (Z.ltb_spec (x + 1) 0); [done|lia].
  - intros Hpos Hneg. unfold resizeMapStorage.
    destruct absolute.
    + destruct (Z.ltb_spec (x + 1) 0); [lia|].
      destruct (Z.ltb_spec 0 (x + 1)); [|lia].
      destruct (Z.ltb_spec (y + 1) 0); [done|lia].
    + set (size_x := if size_gt_int (length (tile m)) (x + 1)
                     then Z.of_nat (length (tile m)) else x + 1).
      assert (0 < size_x) as Hsx.
      { subst size_x. destruct (size_gt_int _ _) eqn:Hgt; [|lia].
        unfold size_gt_int, size_t_of_int in Hgt. apply Z.ltb_lt in Hgt.
        pose proof (Z.mod_pos_bound (x + 1) (2 ^ 64)). lia. }
      assert ((match tile m with
               | [] => y + 1
               | row0 :: _ =>
                   if size_gt_int (length row0) (y + 1)
                   then Z.of_nat (length row0) else y + 1
               end) = y + 1) as ->.
      { destruct (tile m) as [|row0 rest]; [done|]. by rewrite Hcmp by (simpl in Hh; lia). }
      destruct (Z.ltb_spec size_x 0); [lia|].
      destruct (Z.ltb_spec 0 size_x); [|lia].
      destruct (Z.ltb_spec (y + 1) 0); [done|lia].
  - unfold resizeMapStorage. simpl. by rewrite !resize_0.
Qed.

(** A checked write inside the grid succeeds, keeps the shape and
    changes the one cell. *)
Lemma write_cell_spec {A : Type} (v : list (list A)) (h : nat) (x y : Z) (a : A) :
  Forall (λ row, length row = h) v →
  0 ≤ x < Z.of_nat (length v) → 0 ≤ y < Z.of_nat h →
  ∃ v', write_cell v x y a = Some v'
    ∧ length v' = length v
    ∧ Forall (λ row, length row = h) v'
    ∧ (∀ i j, cell v' i j
              = if decide (i = Z.to_nat x ∧ j = Z.to_nat y) then Some a else cell v i j).
Proof.
  intros Hrows Hx Hy. unfold write_cell.
  destruct (Z.ltb_spec x 0); [lia|]. destruct (Z.ltb_spec y 0); [lia|]. simpl.
  destruct (lookup_lt_is_Some_2 v (Z.to_nat x)) as [row Hrow]; [lia|].
  rewrite Hrow. simpl.
  pose proof (proj1 (Forall_lookup _ _) Hrows _ _ Hrow) as Hlen. simpl in Hlen.
  rewrite decide_True by lia.
  eexists. split; [done|]. split; [by rewrite length_insert|]. split.
  - apply Forall_insert; [done|]. by rewrite length_insert.
  - intros i j. unfold cell.
    destruct (decide (i = Z.to_nat x)) as [->|Hi].
    + rewrite list_lookup_insert_eq by lia. simpl.
      destruct (decide (j = Z.to_nat y)) as [->|Hj].
      * rewrite decide_True by done. apply list_lookup_insert_eq. lia.
      * rewrite decide_False by tauto. rewrite Hrow. simpl.
        by apply list_lookup_insert_ne.
    + rewrite decide_False by tauto. by rewrite list_lookup_insert_ne.
Qed.

Lemma grid_height_rows (m : MapManager) (h : nat) :
  Forall (λ row, length row = h) (tile m) → (0 < length (tile m))%nat →
  grid_height m = h.
Proof.
  unfold grid_height. destruct (tile m) as [|row0 rest]; simpl; [lia|].
  intros Hrows _. by apply Forall_cons in Hrows as [? _].
Qed.

(** What the records say of a cell that lies outside the extent they
    reach: nothing. *)
Lemma authored_single (r : MapRecord) (x y : Z) :
  authored [r] x y =
  match r with
  | TileRecord pos_x pos_y path coll _ =>
      if decide (pos_x = x ∧ pos_y = y) then Some (LoadedTexture path, coll) else None
  | _ => None
  end.
Proof. done. Qed.

(** One record on a well-formed grid: the grid grows to hold the
    position of the record, and a tile record writes its cell. *)
Lemma loadRecord_spec (m : MapManager) (r : MapRecord) :
  grid_ok m →
  0 ≤ (record_pos r).1 < INT_MAX → 0 ≤ (record_pos r).2 < INT_MAX →
  ∃ m1, loadRecord m r = Some m1
    ∧ grid_ok m1
    ∧ grid_width m1 = (grid_width m `max` Z.to_nat ((record_pos r).1 + 1))%nat
    ∧ grid_height m1 = (grid_height m `max` Z.to_nat ((record_pos r).2 + 1))%nat
    ∧ spawn_x m1 = spawn_x m ∧ spawn_y m1 = spawn_y m
    ∧ (∀ i j,
         cell (tile m1) i j
         = if decide (i < grid_width m1 ∧ j < grid_height m1)%nat
           then Some (default (default MissingTexture (cell (tile m) i j))
                        (fst <$> authored [r] (Z.of_nat i) (Z.of_nat j)))
           else None)
    ∧ (∀ i j,
         cell (collision m1) i j
         = if decide (i < grid_width m1 ∧ j < grid_height m1)%nat
           then Some (default (default 1 (cell (collision m) i j))
                        (snd <$> authored [r] (Z.of_nat i) (Z.of_nat j)))
           else None).
Proof.
  intros Hok Hx Hy. unfold loadRecord.
  destruct (record_pos r) as [x y] eqn:Hpos. simpl in Hx, Hy.
  destruct (resizeMapStorage m x y false) as [m0|] eqn:Hres.
  2:{ by rewrite resizeMapStorage_grow_eq in Hres. }
  destruct (resizeMapStorage_grow_ok _ _ _ _ Hok Hx Hy Hres) as (Hok0 & Hw0 & Hh0).
  assert (grid_width m0 = (grid_width m `max` Z.to_nat (x + 1))%nat) as Hw0' by lia.
  assert (grid_height m0 = (grid_height m `max` Z.to_nat (y + 1))%nat) as Hh0' by lia.
  clear Hw0 Hh0.
  rewrite resizeMapStorage_grow_eq in Hres by done.
  assert (∀ i j, cell (tile m0) i j
                 = if decide (i < grid_width m0 ∧ j < grid_height m0)%nat
                   then Some (default MissingTexture (cell (tile m) i j)) else None) as Ht0.
  { intros i j. rewrite Hw0', Hh0'. injection Hres as <-. simpl. apply cell_resize. }
  assert (∀ i j, cell (collision m0) i j
                 = if decide (i < grid_width m0 ∧ j < grid_height m0)%nat
                   then Some (default 1 (cell (collision m) i j)) else None) as Hc0.
  { intros i j. rewrite Hw0', Hh0'. injection Hres as <-. simpl. apply cell_resize. }
  assert (spawn_x m0 = spawn_x m ∧ spawn_y m0 = spawn_y m) as [Hsx Hsy].
  { by injection Hres as <-. }
  clear Hres. simpl.
  destruct r as [px py path coll layer|px py path|px py path];
    simpl in Hpos; injection Hpos as -> ->.
  - (* a tile *)
    pose proof Hok0 as (Hlen0 & Hrows0 & Hcols0).
    destruct (write_cell_spec (tile m0) (grid_height m0) x y (LoadedTexture path))
      as (t & -> & Htl & Htrows & Htcell); [done|unfold grid_width in *; lia|lia|].
    destruct (write_cell_spec (collision m0) (grid_height m0) x y coll)
      as (c & -> & Hcl & Hcrows & Hccell); [done|unfold grid_width in *; lia|lia|].
    simpl. eexists. split; [done|].
    assert (grid_width (mkMapManager t c (spawn_x m0) (spawn_y m0)) = grid_width m0) as Hw1.
    { unfold grid_width. simpl. done. }
    assert (grid_height (mkMapManager t c (spawn_x m0) (spawn_y m0)) = grid_height m0) as Hh1.
    { apply grid_height_rows; simpl; [done|]. unfold grid_width in *. lia. }
    split.
    { unfold grid_ok. rewrite Hh1. simpl. split; [congruence|done]. }
    rewrite Hw1, Hh1. simpl.
    split; [done|]. split; [done|]. split; [done|]. split; [done|].
    split.
    + intros i j. rewrite Htcell, Ht0.
      destruct (decide (i = Z.to_nat x ∧ j = Z.to_nat y)) as [[-> ->]|Hne].
      * rewrite decide_True by lia. rewrite decide_True by lia. done.
      * case_decide; [|done]. rewrite decide_False by lia. done.
    + intros i j. rewrite Hccell, Hc0.
      destruct (decide (i = Z.to_nat x ∧ j = Z.to_nat y)) as [[-> ->]|Hne].
      * rewrite decide_True by lia. rewrite decide_True by lia. done.
      * case_decide; [|done]. rewrite decide_False by lia. done.
  - exists m0. do 6 (split; [done|]). split; intros i j; [rewrite Ht0|rewrite Hc0]; done.
  - exists m0. do 6 (split; [done|]). split; intros i j; [rewrite Ht0|rewrite Hc0]; done.
Qed.

Lemma authored_cons (r : MapRecord) (rs : list MapRecord) (x y : Z) :
  authored (r :: rs) x y =
  match authored rs x y with
  | Some a => Some a
  | None => authored [r] x y
  end.
Proof. simpl. by destruct (authored rs x y). Qed.

Local Arguments authored : simpl never.

(** The records of a map file on a well-formed grid, all at cell
    coordinates. *)
Lemma loadRecords_spec (rs : list MapRecord) :
  ∀ m, grid_ok m →
  Forall (λ r, 0 ≤ (record_pos r).1 < INT_MAX ∧ 0 ≤ (record_pos r).2 < INT_MAX) rs →
  ∃ m', loadRecords m rs = Some m'
    ∧ grid_ok m'
    ∧ Z.of_nat (grid_width m')
      = extent_after (Z.of_nat (grid_width m)) ((fst ∘ record_pos) <$> rs)
    ∧ Z.of_nat (grid_height m')
      = extent_after (Z.of_nat (grid_height m)) ((snd ∘ record_pos) <$> rs)
    ∧ (grid_width m ≤ grid_width m')%nat ∧ (grid_height m ≤ grid_height m')%nat
    ∧ spawn_x m' = spawn_x m ∧ spawn_y m' = spawn_y m
    ∧ (∀ i j, is_Some (authored rs (Z.of_nat i) (Z.of_nat j)) →
              (i < grid_width m' ∧ j < grid_height m')%nat)
    ∧ (∀ i j,
         cell (tile m') i j
         = if decide (i < grid_width m' ∧ j < grid_height m')%nat
           then Some (default (default MissingTexture (cell (tile m) i j))
                        (fst <$> authored rs (Z.of_nat i) (Z.of_nat j)))
           else None)
    ∧ (∀ i j,
         cell (collision m') i j
         = if decide (i < grid_width m' ∧ j < grid_height m')%nat
           then Some (default (default 1 (cell (collision m) i j))
                        (snd <$> authored rs (Z.of_nat i) (Z.of_nat j)))
           else None).
Proof.
  induction rs as [|r rs IH]; intros m Hok Hvalid.
  - exists m. simpl. do 8 (split; [done|]).
    split; [by intros i j [? ?]|].
    destruct Hok as (Hlen & Hrows & Hcols).
    split; intros i j; case_decide as Hin.
    + destruct (cell (tile m) i j) eqn:Hc; [done|].
      apply (cell_None_ge _ _ _ _ Hrows) in Hc. unfold grid_width in Hin. lia.
    + destruct (cell (tile m) i j) eqn:Hc; [|done].
      apply (cell_Some_lt _ _ _ _ _ Hrows) in Hc. unfold grid_width in Hin. lia.
    + destruct (cell (collision m) i j) eqn:Hc; [done|].
      apply (cell_None_ge _ _ _ _ Hcols) in Hc. unfold grid_width in Hin. lia.
    + destruct (cell (collision m) i j) eqn:Hc; [|done].
      apply (cell_Some_lt _ _ _ _ _ Hcols) in Hc. unfold grid_width in Hin. lia.
  - apply Forall_cons in Hvalid as [[Hx Hy] Hvalid].
    destruct (loadRecord_spec m r Hok Hx Hy)
      as (m1 & Hrec & Hok1 & Hw1 & Hh1 & Hsx1 & Hsy1 & Ht1 & Hc1).
    destruct (IH m1 Hok1 Hvalid)
      as (m' & Hrecs & Hok' & Hw & Hh & Hwle & Hhle & Hsx & Hsy & Hin & Ht & Hc).
    exists m'. simpl. rewrite Hrec. simpl.
    split; [done|]. split; [done|].
    unfold extent_after in *. simpl.
    split. { rewrite Hw. f_equal. lia. }
    split. { rewrite Hh. f_equal. lia. }
    split; [lia|]. split; [lia|]. split; [congruence|]. split; [congruence|].
    assert (∀ i j, is_Some (authored [r] (Z.of_nat i) (Z.of_nat j)) →
                   (i < grid_width m1 ∧ j < grid_height m1)%nat) as Hin1.
    { intros i j. rewrite authored_single.
      destruct r as [px py path coll layer|px py path|px py path];
        try (by intros [? ?]).
      simpl in Hx, Hy, Hw1, Hh1. case_decide as Hpos; [|by intros [? ?]].
      destruct Hpos as [-> ->]. intros _. lia. }
    split.
    { intros i j. rewrite authored_cons.
      destruct (authored rs (Z.of_nat i) (Z.of_nat j)) eqn:Hrs.
      - intros _. apply Hin. by rewrite Hrs.
      - intros Hr. apply Hin1 in Hr. lia. }
    split.
    + intros i j. rewrite Ht, authored_cons.
      case_decide as Hin'; [|done]. f_equal.
      destruct (authored rs (Z.of_nat i) (Z.of_nat j)) as [a|]; [done|]. simpl.
      rewrite Ht1. case_decide as Hin1'; [done|]. simpl.
      destruct (authored [r] (Z.of_nat i) (Z.of_nat j)) eqn:Hr.
      { exfalso. apply Hin1'. apply Hin1. by rewrite Hr. }
      simpl. destruct (cell (tile m) i j) eqn:Hcell; [|done].
      destruct Hok as (_ & Hrows & _).
      apply (cell_Some_lt _ _ _ _ _ Hrows) in Hcell. unfold grid_width in *. lia.
    + intros i j. rewrite Hc, authored_cons.
      case_decide as Hin'; [|done]. f_equal.
      destruct (authored rs (Z.of_nat i) (Z.of_nat j)) as [a|]; [done|]. simpl.
      rewrite Hc1. case_decide as Hin1'; [done|]. simpl.
      destruct (authored [r] (Z.of_nat i) (Z.of_nat j)) eqn:Hr.
      { exfalso. apply Hin1'. apply Hin1. by rewrite Hr. }
      simpl. destruct (cell (collision m) i j) eqn:Hcell; [|done].
      destruct Hok as (Hlen & _ & Hcols).
      apply (cell_Some_lt _ _ _ _ _ Hcols) in Hcell. unfold grid_width in *. lia.
Qed.

Lemma loadMap_start (m : MapManager) (spawn : Z * Z) (rs : list MapRecord) :
  loadMap m spawn rs = loadRecords (mkMapManager [] [] spawn.1 spawn.2) rs.
Proof. unfold loadMap, resizeMapStorage. simpl. by rewrite !resize_0. Qed.

Lemma grid_ok_start (sx sy : Z) : grid_ok (mkMapManager [] [] sx sy).
Proof. by repeat split. Qed.

Lemma authored_nonneg (rs : list MapRecord) (x y : Z) :
  Forall (λ r, 0 ≤ (record_pos r).1 < INT_MAX ∧ 0 ≤ (record_pos r).2 < INT_MAX) rs →
  is_Some (authored rs x y) → 0 ≤ x ∧ 0 ≤ y.
Proof.
  induction 1 as [|r rs [Hx Hy] _ IH]; [by intros [? ?]|].
  rewrite authored_cons. destruct (authored rs x y); [by auto|].
  rewrite authored_single.
  destruct r as [px py path coll layer|px py path|px py path]; try (by intros [? ?]).
  simpl in Hx, Hy. case_decide as Hpos; [|by intros [? ?]]. lia.
Qed.

(** X3.  [loadMap] rebuilds the grid from the map file alone: for a file
    whose records are at cell coordinates it succeeds, whatever the
    storage held before, and gives the grid that loading into an empty
    [MapManager] gives; this grid is well formed, has the spawn of the
    file, and its extent on each axis is the largest coordinate of the
    records plus one (0 without records). *)
Theorem loadMap_rebuilds (m : MapManager) (spawn : Z * Z) (rs : list MapRecord) :
  Forall (λ r, 0 ≤ (record_pos r).1 < INT_MAX ∧ 0 ≤ (record_pos r).2 < INT_MAX) rs →
  ∃ m', loadMap m spawn rs = Some m'
    ∧ loadMap MapManager_empty spawn rs = Some m'
    ∧ grid_ok m'
    ∧ getSpawn m' = spawn
    ∧ Z.of_nat (grid_width m') = extent_after 0 ((fst ∘ record_pos) <$> rs)
    ∧ Z.of_nat (grid_height m') = extent_after 0 ((snd ∘ record_pos) <$> rs).
Proof.
  intros Hvalid. rewrite !loadMap_start.
  destruct (loadRecords_spec rs _ (grid_ok_start spawn.1 spawn.2) Hvalid)
    as (m' & Hrecs & Hok & Hw & Hh & _ & _ & Hsx & Hsy & _).
  exists m'. do 3 (split; [done|]).
  split; [|by split].
  unfold getSpawn. rewrite Hsx, Hsy. by destruct spawn.
Qed.

(** X4.  After [loadMap] of a file whose records are at cell
    coordinates, [getCollision] returns, for every coordinate pair, the
    collision value of the last tile record at this position, and 1 when
    the file has no tile record there: unauthored cells and everything
    outside the grid block. *)
Theorem loadMap_getCollision (m m' : MapManager) (spawn : Z * Z)
    (rs : list MapRecord) :
  Forall (λ r, 0 ≤ (record_pos r).1 < INT_MAX ∧ 0 ≤ (record_pos r).2 < INT_MAX) rs →
  loadMap m spawn rs = Some m' →
  ∀ x y, getCollision m' x y = Some (default 1 (snd <$> authored rs x y)).
Proof.
  intros Hvalid. rewrite loadMap_start.
  destruct (loadRecords_spec rs _ (grid_ok_start spawn.1 spawn.2) Hvalid)
    as (m1 & -> & _ & _ & _ & _ & _ & _ & _ & Hin & _ & Hc).
  intros [= <-] x y. rewrite getCollision_cell. f_equal.
  destruct (Z.ltb_spec x 0) as [Hx|Hx]; simpl.
  { destruct (authored rs x y) eqn:Ha; [|done].
    destruct (authored_nonneg rs x y Hvalid); [by rewrite Ha|lia]. }
  destruct (Z.ltb_spec y 0) as [Hy|Hy]; simpl.
  { destruct (authored rs x y) eqn:Ha; [|done].
    destruct (authored_nonneg rs x y Hvalid); [by rewrite Ha|lia]. }
  rewrite Hc. rewrite !Z2Nat.id by lia.
  case_decide as Hin'.
  - simpl. by destruct (authored rs x y).
  - simpl. destruct (authored rs x y) eqn:Ha; [|done].
    exfalso. apply Hin'. apply Hin. rewrite !Z2Nat.id by lia. by rewrite Ha.
Qed.

(** X5.  After [loadMap] of such a file every cell of the grid holds the
    texture of the last tile record at its position, and the
    missing-tile texture when the file has no tile record there; object
    records and other records leave no trace. *)
Theorem loadMap_tiles (m m' : MapManager) (spawn : Z * Z) (rs : list MapRecord) :
  Forall (λ r, 0 ≤ (record_pos r).1 < INT_MAX ∧ 0 ≤ (record_pos r).2 < INT_MAX) rs →
  loadMap m spawn rs = Some m' →
  ∀ i j, (i < grid_width m')%nat → (j < grid_height m')%nat →
    cell (tile m') i j
    = Some (default MissingTexture (fst <$> authored rs (Z.of_nat i) (Z.of_nat j))).
Proof.
  intros Hvalid. rewrite loadMap_start.
  destruct (loadRecords_spec rs _ (grid_ok_start spawn.1 spawn.2) Hvalid)
    as (m1 & -> & _ & _ & _ & _ & _ & _ & _ & _ & Ht & _).
  intros [= <-] i j Hi Hj. rewrite Ht. by rewrite decide_True by done.
Qed.

Lemma write_cell_negative {A : Type} (v : list (list A)) (x y : Z) (a : A) :
  x < 0 ∨ y < 0 → write_cell v x y a = None.
Proof.
  intros Hneg. unfold write_cell.
  destruct (Z.ltb_spec x 0); [done|].
  destruct (Z.ltb_spec y 0); [done|]. lia.
Qed.

Lemma loadRecord_negative (m : MapManager) (pos_x pos_y : Z) (path : string)
    (coll layer : Z) :
  pos_x < 0 ∨ pos_y < 0 →
  loadRecord m (TileRecord pos_x pos_y path coll layer) = None.
Proof.
  intros Hneg. unfold loadRecord. simpl.
  destruct (resizeMapStorage m pos_x pos_y false) as [m0|]; [|done]. simpl.
  rewrite (write_cell_negative (tile m0) _ _ _ Hneg). done.
Qed.

(** X6.  A map file with a tile record at a negative coordinate cannot
    be loaded: whatever the other records are, [loadMap] ends in an
    exception of the resize or in a write outside the storage. *)
Theorem loadMap_negative_tile (m : MapManager) (spawn : Z * Z) (rs : list MapRecord)
    (pos_x pos_y : Z) (path : string) (coll layer : Z) :
  TileRecord pos_x pos_y path coll layer ∈ rs →
  pos_x < 0 ∨ pos_y < 0 →
  loadMap m spawn rs = None.
Proof.
  intros Hin Hneg. rewrite loadMap_start.
  generalize (mkMapManager [] [] spawn.1 spawn.2). clear m.
  induction rs as [|r rs IH]; intros m; [by apply elem_of_nil in Hin|].
  simpl. apply elem_of_cons in Hin as [<-|Hin].
  - by rewrite loadRecord_negative.
  - destruct (loadRecord m r) as [m1|]; [|done]. simpl. by apply IH.
Qed.

(** An entry with an identifier that is a valid index, in closed form. *)
Lemma registerMap_eq (maps : list string) (id : Z) (path : string) :
  0 ≤ id < INT_MAX →
  registerMap maps id path =
  Some (<[Z.to_nat id := path]>
          (resize (length maps `max` Z.to_nat (id + 1)) EmptyString maps)).
Proof.
  intros Hid. unfold registerMap, size_t_of_int.
  rewrite Z.mod_small by (unfold INT_MAX in Hid; lia).
  destruct (Z.leb_spec (Z.of_nat (length maps)) id) as [Hle|Hlt].
  - destruct (Z.ltb_spec (id + 1) 0); [lia|]. simpl.
    destruct (Z.ltb_spec id 0); [lia|].
    rewrite decide_True by (rewrite length_resize; lia).
    do 3 f_equal. lia.
  - simpl. destruct (Z.ltb_spec id 0); [lia|].
    rewrite decide_True by lia.
    rewrite (resize_all_alt maps) by lia. done.
Qed.

Lemma registered_cons (id' : Z) (path : string) (entries : list (Z * string)) (id : Z) :
  registered ((id', path) :: entries) id =
  match registered entries id with
  | Some p => Some p
  | None => if decide (id' = id) then Some path else None
  end.
Proof. done. Qed.

Local Arguments registered : simpl never.

Lemma loadRegistry_spec (entries : list (Z * string)) :
  ∀ maps, Forall (λ e, 0 ≤ e.1 < INT_MAX) entries →
  ∃ maps', loadRegistry maps entries = Some maps'
    ∧ Z.of_nat (length maps') = extent_after (Z.of_nat (length maps)) (entries.*1)
    ∧ (length maps ≤ length maps')%nat
    ∧ (∀ k, is_Some (registered entries (Z.of_nat k)) → (k < length maps')%nat)
    ∧ (∀ k, (k < length maps')%nat →
         maps' !! k
         = Some (default (default EmptyString (maps !! k))
                   (registered entries (Z.of_nat k)))).
Proof.
  induction entries as [|[id path] entries IH]; intros maps Hvalid.
  - exists maps. simpl. do 3 (split; [done|]).
    split; [by intros k [? ?]|].
    intros k Hk. destruct (lookup_lt_is_Some_2 maps k Hk) as [p ->]. done.
  - apply Forall_cons in Hvalid as [Hid Hvalid]. simpl in Hid.
    cbn [loadRegistry]. rewrite registerMap_eq by done. simpl.
    set (maps1 := <[Z.to_nat id := path]>
                    (resize (length maps `max` Z.to_nat (id + 1)) EmptyString maps)).
    assert (length maps1 = (length maps `max` Z.to_nat (id + 1))%nat) as Hlen1.
    { subst maps1. by rewrite length_insert, length_resize. }
    destruct (IH maps1 Hvalid) as (maps' & -> & Hlen & Hle & Hin & Hlook).
    exists maps'. split; [done|].
    split. { rewrite Hlen, Hlen1. unfold extent_after. simpl. f_equal. lia. }
    split; [lia|]. split.
    + intros k. rewrite registered_cons.
      destruct (registered entries (Z.of_nat k)) eqn:Hreg.
      * intros _. apply Hin. by rewrite Hreg.
      * case_decide; [|by intros [? ?]]. intros _. lia.
    + intros k Hk. rewrite (Hlook k Hk), registered_cons. f_equal.
      destruct (registered entries (Z.of_nat k)); [done|]. simpl.
      subst maps1. destruct (decide (k = Z.to_nat id)) as [->|Hne].
      * rewrite list_lookup_insert_eq by (rewrite length_resize; lia).
        rewrite decide_True by lia. done.
      * rewrite list_lookup_insert_ne by done.
        rewrite decide_False by lia. simpl.
        destruct (decide (k < length maps)%nat).
        -- rewrite lookup_resize by lia. done.
        -- rewrite (lookup_ge_None_2 maps k) by lia. simpl.
           destruct (decide (k < length maps `max` Z.to_nat (id + 1))%nat).
           ++ by rewrite lookup_resize_new by lia.
           ++ by rewrite lookup_resize_old by lia.
Qed.

(** X7.  The registry of maps: after the entries of the registry file,
    all with identifiers that are valid indices, the registry has grown
    to the largest identifier plus one and never shrunk, an identifier
    with an entry holds the path of its last entry, and any other slot
    holds what it held before, the empty path if it is new. *)
Theorem loadRegistry_lookup (maps : list string) (entries : list (Z * string)) :
  Forall (λ e, 0 ≤ e.1 < INT_MAX) entries →
  ∃ maps', loadRegistry maps entries = Some maps'
    ∧ Z.of_nat (length maps') = extent_after (Z.of_nat (length maps)) (entries.*1)
    ∧ (∀ id path, registered entries id = Some path →
         0 ≤ id ∧ maps' !! Z.to_nat id = Some path)
    ∧ (∀ k, registered entries (Z.of_nat k) = None → (k < length maps')%nat →
         maps' !! k = Some (default EmptyString (maps !! k))).
Proof.
  intros Hvalid.
  destruct (loadRegistry_spec entries maps Hvalid)
    as (maps' & Hload & Hlen & _ & Hin & Hlook).
  exists maps'. split; [done|]. split; [done|]. split.
  - intros id path Hreg.
    assert (0 ≤ id) as Hid.
    { clear -Hvalid Hreg. induction Hvalid as [|[id' p] entries Hid _ IH]; [done|].
      rewrite registered_cons in Hreg.
      destruct (registered entries id); [by apply IH|].
      case_decide; [|done]. simpl in Hid. lia. }
    split; [done|].
    assert (Z.to_nat id < length maps')%nat as Hk.
    { apply Hin. rewrite Z2Nat.id by done. by rewrite Hreg. }
    rewrite (Hlook _ Hk), Z2Nat.id by done. by rewrite Hreg.
  - intros k Hreg Hk. rewrite (Hlook k Hk), Hreg. done.
Qed.

Lemma registerMap_negative (maps : list string) (id : Z) (path : string) :
  id < 0 → registerMap maps id path = None.
Proof.
  intros Hid. unfold registerMap.
  destruct (_ <=? _); simpl.
  - destruct (id + 1 <? 0); [done|]. simpl.
    destruct (Z.ltb_spec id 0); [done|lia].
  - destruct (Z.ltb_spec id 0); [done|lia].
Qed.

(** X8.  A registry file with an entry whose identifier is negative
    cannot be loaded, wherever the entry stands: the resize throws or the
    write falls outside the registry. *)
Theorem loadRegistry_negative (maps : list string) (entries : list (Z * string))
    (id : Z) (path : string) :
  (id, path) ∈ entries → id < 0 → loadRegistry maps entries = None.
Proof.
  intros Hin Hid. revert maps.
  induction entries as [|[id' p] entries IH]; intros maps;
    [by apply elem_of_nil in Hin|].
  cbn [loadRegistry]. apply elem_of_cons in Hin as [[= <- <-]|Hin].
  - by rewrite registerMap_negative.
  - destruct (registerMap maps id' p); [|done]. simpl. by apply IH.
Qed.

(** The items of a grid of rows of the same length, by position. *)
Lemma lookup_join_imap {A B : Type} (h : nat) (rows : list (list A)) :
  ∀ (f : nat → nat → A → B) (i j : nat),
  Forall (λ row, length row = h) rows → (j < h)%nat →
  mjoin (imap (λ i row, imap (f i) row) rows) !! (i * h + j)%nat
  = (λ a, f i j a) <$> cell rows i j.
Proof.
  unfold cell. induction rows as [|row rows IH]; intros f i j Hrows Hj.
  - by rewrite !lookup_nil.
  - apply Forall_cons in Hrows as [Hrow Hrows]. rewrite imap_cons. simpl.
    destruct i as [|i]; simpl.
    + rewrite lookup_app_l by (rewrite length_imap; lia).
      by rewrite list_lookup_imap.
    + rewrite lookup_app_r by (rewrite length_imap; lia).
      rewrite length_imap, Hrow.
      replace (h + i * h + j - h)%nat with (i * h + j)%nat by lia.
      exact (IH (λ i, f (S i)) i j Hrows Hj).
Qed.

Lemma length_join_imap {A B : Type} (h : nat) (rows : list (list A)) :
  ∀ (f : nat → nat → A → B),
  Forall (λ row, length row = h) rows →
  length (mjoin (imap (λ i row, imap (f i) row) rows)) = (length rows * h)%nat.
Proof.
  induction rows as [|row rows IH]; intros f Hrows; [done|].
  apply Forall_cons in Hrows as [Hrow Hrows]. rewrite imap_cons. simpl.
  rewrite length_app, length_imap, Hrow. f_equal.
  exact (IH (λ i, f (S i)) Hrows).
Qed.

(** X9.  [MapManager::render] on a well-formed grid emits one item per
    cell, column after column: the item of cell [(i, j)] is the
    [i * height + j]-th one, carries the texture of the cell, stands at
    pixel [(i * TILE_SIZE, j * TILE_SIZE)], is not flipped and has
    priority 0. *)
Theorem MapManager_render_items (TILE_SIZE : Z) (m : MapManager) :
  grid_ok m →
  length (MapManager_render TILE_SIZE m) = (grid_width m * grid_height m)%nat
  ∧ (∀ i j t, cell (tile m) i j = Some t →
       MapManager_render TILE_SIZE m !! (i * grid_height m + j)%nat
       = Some (mkRenderItem t (Z.of_nat i * TILE_SIZE) (Z.of_nat j * TILE_SIZE)
                 false false 0))
  ∧ (∀ it, it ∈ MapManager_render TILE_SIZE m →
       ∃ i j, cell (tile m) i j = Some (item_texture it)
         ∧ item_x it = Z.of_nat i * TILE_SIZE ∧ item_y it = Z.of_nat j * TILE_SIZE
         ∧ item_flip_x it = false ∧ item_flip_y it = false ∧ item_priority it = 0).
Proof.
  intros (_ & Hrows & _). unfold MapManager_render.
  split; [by apply length_join_imap|]. split.
  - intros i j t Hcell.
    pose proof (cell_Some_lt _ _ _ _ _ Hrows Hcell) as [_ Hj].
    rewrite (lookup_join_imap (grid_height m)) by done. by rewrite Hcell.
  - intros it Hit.
    apply list_elem_of_join in Hit as (items & Hit & Hitems).
    apply elem_of_lookup_imap in Hitems as (i & row & -> & Hrow).
    apply elem_of_lookup_imap in Hit as (j & t & -> & Ht).
    exists i, j. simpl. unfold cell. rewrite Hrow. simpl. by rewrite Ht.
Qed.

(** ** Frames and the walker *)

Lemma advanceFrame_frame (o : GameObject) (d : DIR) :
  current_frame (advanceFrame o d)
  = (if decide (current_frame o < end_frame o) then current_frame o + 1 else loop_frame o)
  ∧ dir (advanceFrame o d) = d
  ∧ loop_frame (advanceFrame o d) = loop_frame o
  ∧ end_frame (advanceFrame o d) = end_frame o
  ∧ stop_frame (advanceFrame o d) = stop_frame o.
Proof.
  unfold advanceFrame. simpl.
  destruct (Z.ltb_spec (end_frame o) (current_frame o + 1)); simpl;
    case_decide; repeat split; try done; lia.
Qed.

(** X10.  Frame cycling: from a frame of the cycle, [n] calls of
    [advanceFrame] lead to the frame [n] places further round the cycle
    from the loop frame to the end frame; the frame never leaves the
    cycle, and the object faces the direction of the calls. *)
Theorem advanceFrames_cycle (n : nat) (d : DIR) :
  ∀ o : GameObject,
  loop_frame o ≤ current_frame o ≤ end_frame o →
  let o' := advanceFrames n o d in
  current_frame o'
  = loop_frame o
    + (current_frame o - loop_frame o + Z.of_nat n)
        `mod` (end_frame o - loop_frame o + 1)
  ∧ loop_frame o ≤ current_frame o' ≤ end_frame o
  ∧ ((0 < n)%nat → dir o' = d).
Proof.
  induction n as [|n IH]; intros o Hf.
  - simpl. rewrite Z.add_0_r, Z.mod_small by lia. split; [lia|]. split; [done|lia].
  - destruct (advanceFrame_frame o d) as (Hcf & Hdir & Hloop & Hend & _).
    cbv zeta. cbn [advanceFrames].
    destruct (IH (advanceFrame o d)) as (Hcf' & Hin' & Hdir').
    { rewrite Hcf, Hloop, Hend. case_decide; lia. }
    rewrite Hloop, Hend in Hcf', Hin'.
    split; [|split; [done|]].
    + rewrite Hcf', Hcf. f_equal. case_decide.
      * f_equal. lia.
      * replace (current_frame o - loop_frame o + Z.of_nat (S n))
          with (Z.of_nat n + 1 * (end_frame o - loop_frame o + 1)) by lia.
        rewrite Z.mod_add by lia. f_equal. lia.
    + intros _. destruct n as [|n]; [exact Hdir|]. apply Hdir'. lia.
Qed.

Lemma advanceFrame_frame_ok (o : GameObject) (d : DIR) :
  frame_ok o → frame_ok (advanceFrame o d).
Proof.
  unfold frame_ok. destruct (advanceFrame_frame o d) as (-> & _ & -> & -> & ->).
  case_decide; lia.
Qed.

Lemma stopFrame_frame_ok (o : GameObject) (d : DIR) :
  frame_ok o → frame_ok (stopFrame o d).
Proof.
  unfold frame_ok. rewrite stopFrame_frame. rewrite stopFrame_fields. simpl.
  repeat case_decide; lia.
Qed.

(** The fields that a tick of the walker never writes. *)
Lemma ObjectWalker_runTick_static (SPEED FRAME_TIME : Z) (w : ObjectWalker)
    (p : GameObject) (delta : Z) :
  let r := ObjectWalker_runTick SPEED FRAME_TIME w p delta in
  kind r.2 = kind p ∧ object_walker r.2 = object_walker p
  ∧ loop_frame r.2 = loop_frame p ∧ end_frame r.2 = end_frame p
  ∧ stop_frame r.2 = stop_frame p ∧ camera_center r.2 = camera_center p
  ∧ size_x r.2 = size_x p ∧ size_y r.2 = size_y p
  ∧ map_x r.2 = map_x p ∧ map_y r.2 = map_y p.
Proof.
  unfold ObjectWalker_runTick, getScreenPos.
  repeat case_match; simpl; try done;
    unfold stopFrame, advanceFrame; repeat case_match; done.
Qed.

Lemma ObjectWalker_runTick_frame_ok (SPEED FRAME_TIME : Z) (w : ObjectWalker)
    (p : GameObject) (delta : Z) :
  frame_ok p → frame_ok (ObjectWalker_runTick SPEED FRAME_TIME w p delta).2.
Proof.
  intros Hok. unfold ObjectWalker_runTick, getScreenPos.
  repeat case_match; simpl; try done;
    first [apply stopFrame_frame_ok | apply advanceFrame_frame_ok]; done.
Qed.

Lemma setMapPos_static (TILE_SIZE : Z) (o : GameObject) (x y : Z) (anim : bool) :
  let o' := setMapPos TILE_SIZE o x y anim in
  kind o' = kind o ∧ current_frame o' = current_frame o
  ∧ loop_frame o' = loop_frame o ∧ end_frame o' = end_frame o
  ∧ stop_frame o' = stop_frame o ∧ dir o' = dir o
  ∧ camera_center o' = camera_center o
  ∧ size_x o' = size_x o ∧ size_y o' = size_y o.
Proof. unfold setMapPos. simpl. by destruct (object_walker o), anim. Qed.

(** What one poll can do: nothing, or the move of its direction, the
    input being active and the way free. *)
Lemma input_move_cases (TILE_SIZE : Z) (ih : InputHandler) (m : MapManager)
    (type : Z) (o o' : GameObject) (d : DIR) :
  input_move TILE_SIZE ih m type o d = Some o' →
  o' = o
  ∨ ∃ c, player_input ih type d = true
      ∧ checkCollision m o (dir_offset d).1 (dir_offset d).2 = Some c ∧ c < 1
      ∧ o' = setMapPos TILE_SIZE o (map_x o + (dir_offset d).1)
               (map_y o + (dir_offset d).2) true.
Proof.
  unfold input_move. destruct (player_input ih type d); [|by intros [= <-]; left].
  destruct (checkCollision m o _ _) as [c|]; [|done]. simpl.
  destruct (Z.ltb_spec c 1); intros [= <-]; [|by left].
  right. exists c. rewrite one_tile_offset. done.
Qed.

(** A property of the object that the base tick establishes and every
    move keeps holds after the tick of the player. *)
Lemma Player_runTick_ind (P : GameObject → Prop) (TILE_SIZE SPEED FRAME_TIME : Z)
    (ih : InputHandler) (m : MapManager) (type : Z) (o o' : GameObject) (delta : Z) :
  P (GameObject_runTick SPEED FRAME_TIME o delta) →
  (∀ p d c, P p → player_input ih type d = true →
     checkCollision m p (dir_offset d).1 (dir_offset d).2 = Some c → c < 1 →
     P (setMapPos TILE_SIZE p (map_x p + (dir_offset d).1)
          (map_y p + (dir_offset d).2) true)) →
  Player_runTick TILE_SIZE SPEED FRAME_TIME ih m type o delta = Some o' →
  P o'.
Proof.
  intros Hbase Hmove. rewrite Player_runTick_poll. simpl.
  destruct (_ || _); [|by intros [= <-]].
  unfold poll_directions. generalize [UP; RIGHT; DOWN; LEFT].
  revert Hbase. generalize (GameObject_runTick SPEED FRAME_TIME o delta).
  intros p Hp ds. revert p Hp.
  induction ds as [|d ds IH]; intros p Hp; simpl; [by intros [= <-]|].
  destruct (input_move TILE_SIZE ih m type p d) as [p1|] eqn:Hpoll; [|done]. simpl.
  apply IH.
  apply input_move_cases in Hpoll as [->|(c & Hin & Hc & Hlt & ->)]; [done|].
  by eapply Hmove.
Qed.

Lemma GameObject_runTick_frame_ok (SPEED FRAME_TIME : Z) (o : GameObject) (delta : Z) :
  frame_ok o → frame_ok (GameObject_runTick SPEED FRAME_TIME o delta).
Proof.
  intros Hok. unfold GameObject_runTick. destruct (object_walker o) as [w|]; [|done].
  pose proof (ObjectWalker_runTick_frame_ok SPEED FRAME_TIME w o delta Hok) as Hr.
  by destruct (ObjectWalker_runTick SPEED FRAME_TIME w o delta).
Qed.

(** X11.  The frame cursor stays within its bounds: an object whose
    frame state is consistent (bounds ordered and not negative, cursor
    between 0 and the larger of the end and the stop frame) is so again
    after its tick, base object or player, whatever the delta, the input
    and the map. *)
Theorem object_runTick_frame_ok (TILE_SIZE SPEED FRAME_TIME : Z) (ih : InputHandler)
    (m : MapManager) (o o' : GameObject) (delta : Z) :
  frame_ok o →
  object_runTick TILE_SIZE SPEED FRAME_TIME ih m o delta = Some o' →
  frame_ok o'.
Proof.
  intros Hok. unfold object_runTick. destruct (kind o) as [|type].
  - intros [= <-]. by apply GameObject_runTick_frame_ok.
  - apply Player_runTick_ind.
    + by apply GameObject_runTick_frame_ok.
    + intros p d c Hp _ _ _. unfold frame_ok in *.
      by destruct (setMapPos_static TILE_SIZE p (map_x p + (dir_offset d).1)
                     (map_y p + (dir_offset d).2) true)
        as (_ & -> & -> & -> & -> & _).
Qed.

(** X12.  [GameObject::render] reads inside the vectors of textures of
    an object whose frame state is consistent and whose three vectors
    hold more textures than the larger of the end and the stop frame: it
    emits one item, at the screen position of the object, with priority
    1, flipped horizontally exactly when the object faces right, the
    texture being the one of the current frame in the vector of the
    direction. *)
Theorem GameObject_render_item (s : Sprites) (o : GameObject) :
  frame_ok o →
  end_frame o `max` stop_frame o < Z.of_nat (length (up s)) →
  end_frame o `max` stop_frame o < Z.of_nat (length (down s)) →
  end_frame o `max` stop_frame o < Z.of_nat (length (side s)) →
  ∃ t, GameObject_render s o
       = Some (mkRenderItem t (screen_x o) (screen_y o)
                 (bool_decide (dir o = RIGHT)) false 1)
    ∧ (match dir o with UP => up s | DOWN => down s | _ => side s end)
        !! Z.to_nat (current_frame o) = Some t.
Proof.
  intros (_ & _ & Hcf) Hup Hdown Hside. unfold GameObject_render, frame_at.
  destruct (Z.ltb_spec (current_frame o) 0); [lia|].
  destruct (dir o).
  - destruct (lookup_lt_is_Some_2 (up s) (Z.to_nat (current_frame o))) as [t Ht]; [lia|].
    exists t. by rewrite Ht.
  - destruct (lookup_lt_is_Some_2 (side s) (Z.to_nat (current_frame o))) as [t Ht]; [lia|].
    exists t. by rewrite Ht.
  - destruct (lookup_lt_is_Some_2 (down s) (Z.to_nat (current_frame o))) as [t Ht]; [lia|].
    exists t. by rewrite Ht.
  - destruct (lookup_lt_is_Some_2 (side s) (Z.to_nat (current_frame o))) as [t Ht]; [lia|].
    exists t. by rewrite Ht.
Qed.

(** X13.  [GameObject::runTick] never touches the logical position, the
    footprint, the class, the camera flag or the bounds of the frame
    cycle; an object without a walker is left as it is; the walker of an
    object that has one keeps its destination and adds the delta to its
    clock modulo 2^64. *)
Theorem GameObject_runTick_static (SPEED FRAME_TIME : Z) (o : GameObject) (delta : Z) :
  let o' := GameObject_runTick SPEED FRAME_TIME o delta in
  kind o' = kind o ∧ camera_center o' = camera_center o
  ∧ map_x o' = map_x o ∧ map_y o' = map_y o
  ∧ size_x o' = size_x o ∧ size_y o' = size_y o
  ∧ loop_frame o' = loop_frame o ∧ end_frame o' = end_frame o
  ∧ stop_frame o' = stop_frame o
  ∧ (object_walker o = None → o' = o)
  ∧ (∀ w, object_walker o = Some w →
       ∃ w', object_walker o' = Some w'
         ∧ dest_x w' = dest_x w ∧ dest_y w' = dest_y w
         ∧ tick w' = wrap64 (tick w + delta)).
Proof.
  unfold GameObject_runTick. destruct (object_walker o) as [w|] eqn:Hw; simpl.
  - destruct (ObjectWalker_runTick_static SPEED FRAME_TIME w o delta)
      as (H1 & _ & H3 & H4 & H5 & H6 & H7 & H8 & H9 & H10).
    destruct (ObjectWalker_runTick_move SPEED FRAME_TIME w o delta)
      as (Hdx & Hdy & Htick & _).
    destruct (ObjectWalker_runTick SPEED FRAME_TIME w o delta) as [w' p']. simpl in *.
    do 9 (split; [done|]). split; [done|].
    intros w0 [= <-]. by exists w'.
  - do 9 (split; [done|]). split; [done|]. done.
Qed.

(** [ObjectWalker::runTick] with the check of the overshoot resolved:
    the position after the step and the sign of what is left. *)
Lemma ObjectWalker_runTick_eq (SPEED FRAME_TIME : Z) (w : ObjectWalker)
    (p : GameObject) (delta : Z) :
  ObjectWalker_runTick SPEED FRAME_TIME w p delta =
  let now := wrap64 (tick w + delta) in
  let x' := screen_x p + sgn (dest_x w - screen_x p) in
  let y' := screen_y p + sgn (dest_y w - screen_y p) in
  if movement_deadline w <? now then
    let d := if Z.abs (dest_y w - y') <? Z.abs (dest_x w - x')
             then (if 0 <=? sgn (dest_x w - x') then LEFT else RIGHT)
             else (if 0 <=? sgn (dest_y w - y') then DOWN else UP) in
    if animation_deadline w <? now then
      (mkObjectWalker (dest_x w) (dest_y w) now (wrap64 (now + SPEED))
         (wrap64 (now + FRAME_TIME)),
       if (sgn (dest_x w - x') =? 0) && (sgn (dest_y w - y') =? 0)
       then stopFrame (_setScreenPos p x' y') d
       else advanceFrame (_setScreenPos p x' y') d)
    else
      (mkObjectWalker (dest_x w) (dest_y w) now (wrap64 (now + SPEED))
         (animation_deadline w),
       _setScreenPos p x' y')
  else
    (mkObjectWalker (dest_x w) (dest_y w) now (movement_deadline w)
       (animation_deadline w), p).
Proof.
  unfold ObjectWalker_runTick, getScreenPos.
  pose proof (sgn_step (dest_x w) (screen_x p)) as Hx.
  pose proof (sgn_step (dest_y w) (screen_y p)) as Hy.
  simpl in Hx, Hy. rewrite Hx, Hy. done.
Qed.

(** X14.  A new destination is served at once: after [setDestination]
    the next tick of the walker steps towards the new destination and
    animates, provided the updated clock is not 0; if the updated clock
    is 0 the tick does nothing. *)
Theorem setDestination_next_tick (SPEED FRAME_TIME : Z) (w : ObjectWalker)
    (p : GameObject) (x y delta : Z) :
  let now := wrap64 (tick w + delta) in
  let r := ObjectWalker_runTick SPEED FRAME_TIME (setDestination w x y) p delta in
  (now ≠ 0 →
     screen_x r.2 = screen_x p + sgn (x - screen_x p)
     ∧ screen_y r.2 = screen_y p + sgn (y - screen_y p)
     ∧ r.1 = mkObjectWalker x y now (wrap64 (now + SPEED)) (wrap64 (now + FRAME_TIME)))
  ∧ (now = 0 → r.2 = p ∧ r.1 = mkObjectWalker x y 0 0 0).
Proof.
  intros now r. subst r. rewrite ObjectWalker_runTick_eq. simpl. fold now.
  assert (0 ≤ now) as Hnow.
  { unfold now, wrap64. apply Z.mod_pos_bound. lia. }
  split.
  - intros Hne. destruct (Z.ltb_spec 0 now); [|lia]. simpl.
    repeat split; case_match; first [apply stopFrame_screen | apply advanceFrame_screen].
  - intros ->. done.
Qed.

(** X15.  The facing direction on a tick that steps and animates without
    reaching the target: with [rx] and [ry] the distances left to the
    target after the step, the object faces left when [|rx| > |ry|] and
    the target has the larger x, right when [|rx| > |ry|] and the target
    has the smaller x, and otherwise down when the target does not have
    the smaller y, up when it has.  The frame moves one place round the
    cycle. *)
Theorem ObjectWalker_runTick_facing (SPEED FRAME_TIME : Z) (w : ObjectWalker)
    (p : GameObject) (delta : Z) :
  let now := wrap64 (tick w + delta) in
  let r := ObjectWalker_runTick SPEED FRAME_TIME w p delta in
  let rx := dest_x w - screen_x r.2 in
  let ry := dest_y w - screen_y r.2 in
  movement_deadline w < now → animation_deadline w < now →
  rx ≠ 0 ∨ ry ≠ 0 →
  dir r.2 = (if Z.abs ry <? Z.abs rx
             then (if 0 <? rx then LEFT else RIGHT)
             else (if 0 <=? ry then DOWN else UP))
  ∧ current_frame r.2
    = (if decide (current_frame p < end_frame p)
       then current_frame p + 1 else loop_frame p).
Proof.
  intros now r rx ry Hmd Had.
  destruct (ObjectWalker_runTick_move SPEED FRAME_TIME w p delta)
    as (_ & _ & _ & Hmove & _). fold now r in Hmove.
  destruct (Hmove Hmd) as (Hx & Hy & _).
  subst rx ry. rewrite Hx, Hy. clear Hmove Hx Hy.
  subst r. rewrite ObjectWalker_runTick_eq. simpl. fold now.
  destruct (Z.ltb_spec (movement_deadline w) now); [|lia].
  destruct (Z.ltb_spec (animation_deadline w) now); [|lia]. simpl.
  set (rx := dest_x w - (screen_x p + sgn (dest_x w - screen_x p))).
  set (ry := dest_y w - (screen_y p + sgn (dest_y w - screen_y p))).
  intros Hleft.
  assert ((sgn rx =? 0) && (sgn ry =? 0) = false) as ->.
  { unfold sgn. apply andb_false_iff.
    destruct Hleft as [Hrx|Hry]; [left|right]; apply Z.eqb_neq;
      by rewrite Z.sgn_null_iff. }
  destruct (advanceFrame_frame
              (_setScreenPos p (screen_x p + sgn (dest_x w - screen_x p))
                 (screen_y p + sgn (dest_y w - screen_y p)))
              (if Z.abs ry <? Z.abs rx
               then if 0 <=? sgn rx then LEFT else RIGHT
               else if 0 <=? sgn ry then DOWN else UP))
    as (-> & -> & _).
  split; [|done]. unfold sgn.
  destruct (Z.ltb_spec (Z.abs ry) (Z.abs rx)).
  - destruct (Z.sgn_spec rx) as [[? Hs]|[[? Hs]|[? Hs]]]; rewrite Hs;
      destruct (Z.ltb_spec 0 rx); simpl; try done; lia.
  - destruct (Z.sgn_spec ry) as [[? Hs]|[[? Hs]|[? Hs]]]; rewrite Hs;
      destruct (Z.leb_spec 0 ry); simpl; try done; lia.
Qed.

(** X16.  The animation is gated by both deadlines: unless the movement
    deadline and the animation deadline are both strictly below the
    updated clock, a tick of the walker changes neither the frame nor
    the direction of the object and leaves the animation deadline as it
    is, even when it steps. *)
Theorem ObjectWalker_runTick_animation_gate (SPEED FRAME_TIME : Z) (w : ObjectWalker)
    (p : GameObject) (delta : Z) :
  let now := wrap64 (tick w + delta) in
  let r := ObjectWalker_runTick SPEED FRAME_TIME w p delta in
  ¬ (movement_deadline w < now ∧ animation_deadline w < now) →
  current_frame r.2 = current_frame p ∧ dir r.2 = dir p
  ∧ animation_deadline r.1 = animation_deadline w.
Proof.
  intros now r Hgate. subst r. rewrite ObjectWalker_runTick_eq. simpl. fold now.
  destruct (Z.ltb_spec (movement_deadline w) now); [|done].
  destruct (Z.ltb_spec (animation_deadline w) now); [lia|done].
Qed.

Lemma wrap64_add_l (a b : Z) : wrap64 (wrap64 a + b) = wrap64 (a + b).
Proof. unfold wrap64. by rewrite Zplus_mod_idemp_l. Qed.

(** X17.  The clock of the walker is the sum of the deltas modulo 2^64:
    after a run of ticks it holds the start value plus the deltas of the
    run, wrapped once, whichever of the ticks stepped. *)
Theorem walker_ticks_clock (SPEED FRAME_TIME : Z) (deltas : list Z) :
  ∀ (w : ObjectWalker) (p : GameObject),
  0 ≤ tick w < 2 ^ 64 →
  tick (walker_ticks SPEED FRAME_TIME deltas w p).1 = wrap64 (tick w + elapsed deltas).
Proof.
  induction deltas as [|delta deltas IH]; intros w p Htick.
  - simpl. unfold elapsed, wrap64. simpl. rewrite Z.add_0_r, Z.mod_small; lia.
  - simpl.
    destruct (ObjectWalker_runTick_move SPEED FRAME_TIME w p delta)
      as (_ & _ & Hnow & _).
    destruct (ObjectWalker_runTick SPEED FRAME_TIME w p delta) as [w1 p1].
    simpl in Hnow. rewrite IH.
    + rewrite Hnow, wrap64_add_l. f_equal. unfold elapsed. simpl. lia.
    + rewrite Hnow. unfold wrap64. apply Z.mod_pos_bound. lia.
Qed.

(** The walker does not read the walker field of its object. *)
Lemma ObjectWalker_runTick_with_walker (SPEED FRAME_TIME : Z) (w : ObjectWalker)
    (p : GameObject) (delta : Z) (ow : option ObjectWalker) :
  ObjectWalker_runTick SPEED FRAME_TIME w (with_walker p ow) delta
  = ((ObjectWalker_runTick SPEED FRAME_TIME w p delta).1,
     with_walker (ObjectWalker_runTick SPEED FRAME_TIME w p delta).2 ow).
Proof.
  rewrite !ObjectWalker_runTick_eq. simpl.
  repeat case_match; simpl; try done;
    unfold stopFrame, advanceFrame; simpl; repeat case_match; done.
Qed.

Lemma walker_ticks_with_walker (SPEED FRAME_TIME : Z) (deltas : list Z) :
  ∀ (w : ObjectWalker) (p : GameObject) (ow : option ObjectWalker),
  walker_ticks SPEED FRAME_TIME deltas w (with_walker p ow)
  = ((walker_ticks SPEED FRAME_TIME deltas w p).1,
     with_walker (walker_ticks SPEED FRAME_TIME deltas w p).2 ow).
Proof.
  induction deltas as [|delta deltas IH]; intros w p ow; simpl; [done|].
  rewrite ObjectWalker_runTick_with_walker.
  destruct (ObjectWalker_runTick SPEED FRAME_TIME w p delta) as [w1 p1]. apply IH.
Qed.

(** Ticks of an object with a walker are the ticks of its walker. *)
Lemma object_ticks_walker (SPEED FRAME_TIME : Z) (deltas : list Z) :
  ∀ (o : GameObject) (w : ObjectWalker),
  object_walker o = Some w →
  object_ticks SPEED FRAME_TIME deltas o
  = with_walker (walker_ticks SPEED FRAME_TIME deltas w o).2
      (Some (walker_ticks SPEED FRAME_TIME deltas w o).1).
Proof.
  unfold object_ticks.
  induction deltas as [|delta deltas IH]; intros o w Hw; simpl.
  - rewrite <- Hw. by destruct o.
  - unfold GameObject_runTick at 2. rewrite Hw.
    destruct (ObjectWalker_runTick SPEED FRAME_TIME w o delta) as [w1 p1] eqn:Hr.
    rewrite (IH _ w1) by done. rewrite walker_ticks_with_walker. simpl.
    by destruct (walker_ticks SPEED FRAME_TIME deltas w1 p1) as [w2 [ ]].
Qed.

(** X18.  An animated move settles: after [setMapPos] with animation on
    an object that has a walker, a run of ticks that each come more than
    [SPEED] after the one before (the clock not wrapping around), as
    long as the larger of the two distances in pixels, brings the screen
    position to exactly [TILE_SIZE] times the logical position. *)
Theorem setMapPos_settles (TILE_SIZE SPEED FRAME_TIME : Z) (o : GameObject)
    (w : ObjectWalker) (x y : Z) (deltas : list Z) :
  object_walker o = Some w →
  0 ≤ SPEED → Forall (λ delta, SPEED < delta) deltas →
  0 ≤ tick w → tick w + elapsed deltas + SPEED < 2 ^ 64 →
  Z.abs (x * TILE_SIZE - screen_x o) `max` Z.abs (y * TILE_SIZE - screen_y o)
    ≤ Z.of_nat (length deltas) →
  let o' := object_ticks SPEED FRAME_TIME deltas (setMapPos TILE_SIZE o x y true) in
  map_x o' = x ∧ map_y o' = y
  ∧ screen_x o' = map_x o' * TILE_SIZE ∧ screen_y o' = map_y o' * TILE_SIZE.
Proof.
  intros Hw HS Hall Htick Hend Hlen o'.
  destruct (setMapPos_animated TILE_SIZE o w x y Hw)
    as (Hmx & Hmy & Hw' & Hsx & Hsy & _).
  subst o'. rewrite (object_ticks_walker _ _ _ _ _ Hw'). simpl.
  set (o1 := setMapPos TILE_SIZE o x y true) in *.
  set (w1 := setDestination w (x * TILE_SIZE) (y * TILE_SIZE)) in *.
  destruct (walker_ticks_distance SPEED FRAME_TIME deltas HS Hall w1 o1)
    as [Hdx Hdy]; [done|simpl; lia|done|].
  assert (∀ r : ObjectWalker * GameObject,
            map_x r.2 = map_x o1 → map_y r.2 = map_y o1 →
            map_x r.2 = x ∧ map_y r.2 = y) as Hmap by (intros; lia).
  assert (map_x (walker_ticks SPEED FRAME_TIME deltas w1 o1).2 = map_x o1
          ∧ map_y (walker_ticks SPEED FRAME_TIME deltas w1 o1).2 = map_y o1) as [Hx' Hy'].
  { generalize w1 o1. clear. induction deltas as [|delta deltas IH]; intros w p; [done|].
    simpl.
    destruct (ObjectWalker_runTick_static SPEED FRAME_TIME w p delta)
      as (_ & _ & _ & _ & _ & _ & _ & _ & Hx & Hy).
    destruct (ObjectWalker_runTick SPEED FRAME_TIME w p delta) as [w2 p2].
    simpl in *. rewrite <- Hx, <- Hy. apply IH. }
  rewrite Hx', Hy', Hmx, Hmy. simpl in Hdx, Hdy. rewrite Hsx in Hdx. rewrite Hsy in Hdy.
  split; [done|]. split; [done|]. lia.
Qed.

(** X19.  An object at rest stays at rest: when the screen position is
    the destination of the walker, no run of ticks moves it, and the
    logical position is kept as well. *)
Theorem object_ticks_rest (SPEED FRAME_TIME : Z) (deltas : list Z) (o : GameObject)
    (w : ObjectWalker) :
  object_walker o = Some w →
  screen_x o = dest_x w → screen_y o = dest_y w →
  let o' := object_ticks SPEED FRAME_TIME deltas o in
  screen_x o' = screen_x o ∧ screen_y o' = screen_y o
  ∧ map_x o' = map_x o ∧ map_y o' = map_y o.
Proof.
  intros Hw Hx Hy o'. subst o'. rewrite (object_ticks_walker _ _ _ _ _ Hw). simpl.
  destruct (walker_ticks_between SPEED FRAME_TIME deltas w o) as (_ & _ & Hbx & Hby).
  unfold between in *.
  split; [lia|]. split; [lia|].
  generalize w o. clear. induction deltas as [|delta deltas IH]; intros w p; [done|].
  simpl.
  destruct (ObjectWalker_runTick_static SPEED FRAME_TIME w p delta)
    as (_ & _ & _ & _ & _ & _ & _ & _ & Hx & Hy).
  destruct (ObjectWalker_runTick SPEED FRAME_TIME w p delta) as [w2 p2].
  simpl in *. rewrite <- Hx, <- Hy. apply IH.
Qed.

(** ** Collision of the footprint and the moves of the player *)

(** A loop that raises an accumulator to the values it meets ends on
    the largest of its start and these values. *)
Lemma for_each_sup {A : Type} (vals : A → Z → Prop) (body : Z → A → option Z) :
  (∀ coll a, ∃ c, body coll a = Some c ∧ coll ≤ c
                  ∧ (∀ v, vals a v → v ≤ c) ∧ (c = coll ∨ vals a c)) →
  ∀ l coll, ∃ c, for_each body coll l = Some c ∧ coll ≤ c
                 ∧ (∀ a v, a ∈ l → vals a v → v ≤ c)
                 ∧ (c = coll ∨ ∃ a, a ∈ l ∧ vals a c).
Proof.
  intros Hbody. induction l as [|a l IH]; intros coll; simpl.
  - exists coll. split; [done|]. split; [lia|]. split; [|by left].
    intros a v Ha. by apply elem_of_nil in Ha.
  - destruct (Hbody coll a) as (c1 & -> & Hle1 & Hub1 & Hatt1). simpl.
    destruct (IH c1) as (c & -> & Hle & Hub & Hatt).
    exists c. split; [done|]. split; [lia|]. split.
    + intros a' v Ha' Hv. apply elem_of_cons in Ha' as [->|Ha'].
      * specialize (Hub1 v Hv). lia.
      * by eapply Hub.
    + destruct Hatt as [->|(a' & Ha' & Hv)].
      * destruct Hatt1 as [->|Hv]; [by left|]. right. exists a. split; [left|done].
      * right. exists a'. split; [by right|done].
Qed.

(** X20.  [checkCollision] returns the largest collision value over the
    tiles of the footprint placed at the logical position plus the
    offset, and 0 when the footprint is empty: the result is never
    negative, no tile of the footprint has a larger value, and the
    result is 0 or the value of one of these tiles. *)
Theorem checkCollision_max (m : MapManager) (o : GameObject) (offset_x offset_y : Z) :
  ∃ c, checkCollision m o offset_x offset_y = Some c
    ∧ 0 ≤ c
    ∧ (∀ x y, 0 ≤ x < size_x o → 0 ≤ y < size_y o →
         ∃ v, getCollision m (map_x o + offset_x + x) (map_y o + offset_y + y) = Some v
              ∧ v ≤ c)
    ∧ (c = 0
       ∨ ∃ x y, 0 ≤ x < size_x o ∧ 0 ≤ y < size_y o
           ∧ getCollision m (map_x o + offset_x + x) (map_y o + offset_y + y) = Some c)
    ∧ (size_x o ≤ 0 ∨ size_y o ≤ 0 → c = 0).
Proof.
  unfold checkCollision.
  set (tmp_x := map_x o + offset_x). set (tmp_y := map_y o + offset_y).
  set (inner x := λ (coll y : Z),
         getCollision m (tmp_x + x) (tmp_y + y) ≫= λ c, Some (coll `max` c)).
  assert (∀ x coll y, ∃ c, inner x coll y = Some c ∧ coll ≤ c
            ∧ (∀ v, getCollision m (tmp_x + x) (tmp_y + y) = Some v → v ≤ c)
            ∧ (c = coll ∨ getCollision m (tmp_x + x) (tmp_y + y) = Some c)) as Hinner.
  { intros x coll y. unfold inner.
    destruct (getCollision_Some m (tmp_x + x) (tmp_y + y)) as [v ->]. simpl.
    exists (coll `max` v). split; [done|]. split; [lia|]. split.
    - intros v' [= <-]. lia.
    - destruct (Z.max_spec coll v) as [[_ ->]|[_ ->]]; [by right|by left]. }
  pose proof (λ x, for_each_sup
                (λ y v, getCollision m (tmp_x + x) (tmp_y + y) = Some v)
                (inner x) (Hinner x) (seqZ 0 (size_y o))) as Hrow.
  destruct (for_each_sup
              (λ x v, ∃ y, y ∈ seqZ 0 (size_y o)
                        ∧ getCollision m (tmp_x + x) (tmp_y + y) = Some v)
              (λ coll x, for_each (inner x) coll (seqZ 0 (size_y o))))
    with (l := seqZ 0 (size_x o)) (coll := 0)
    as (c & Hc & Hle & Hub & Hatt).
  { intros coll x. destruct (Hrow x coll) as (c & Hc & Hle & Hub & Hatt).
    exists c. split; [done|]. split; [done|]. split.
    - intros v (y & Hy & Hv). by eapply Hub.
    - destruct Hatt as [->|(y & Hy & Hv)]; [by left|]. right. by exists y. }
  exists c. split; [exact Hc|]. split; [done|]. split; [|split].
  - intros x y Hx Hy.
    destruct (getCollision_Some m (tmp_x + x) (tmp_y + y)) as [v Hv].
    exists v. split; [done|].
    apply (Hub x v).
    + apply elem_of_seqZ. lia.
    + exists y. split; [apply elem_of_seqZ; lia|done].
  - destruct Hatt as [->|(x & Hx & y & Hy & Hv)]; [by left|].
    right. exists x, y. apply elem_of_seqZ in Hx, Hy. repeat split; try lia. done.
  - intros Hempty. destruct Hatt as [->|(x & Hx & y & Hy & Hv)]; [done|].
    apply elem_of_seqZ in Hx, Hy. lia.
Qed.

(** [checkCollision] reads the logical position and the footprint of the
    object and nothing else. *)
Lemma checkCollision_ext (m : MapManager) (o o' : GameObject) (ox oy ox' oy' : Z) :
  map_x o' + ox' = map_x o + ox → map_y o' + oy' = map_y o + oy →
  size_x o' = size_x o → size_y o' = size_y o →
  checkCollision m o' ox' oy' = checkCollision m o ox oy.
Proof. unfold checkCollision. by intros -> -> -> ->. Qed.

Lemma GameObject_runTick_fields (SPEED FRAME_TIME : Z) (o : GameObject) (delta : Z) :
  let o' := GameObject_runTick SPEED FRAME_TIME o delta in
  kind o' = kind o ∧ camera_center o' = camera_center o
  ∧ map_x o' = map_x o ∧ map_y o' = map_y o
  ∧ size_x o' = size_x o ∧ size_y o' = size_y o.
Proof.
  unfold GameObject_runTick. destruct (object_walker o) as [w|]; [|done].
  destruct (ObjectWalker_runTick_static SPEED FRAME_TIME w o delta)
    as (H1 & _ & _ & _ & _ & H6 & H7 & H8 & H9 & H10).
  by destruct (ObjectWalker_runTick SPEED FRAME_TIME w o delta).
Qed.

(** X21.  The player is never moved onto a blocked tile: if
    [checkCollision] at offset (0, 0) is below 1 before the tick of a
    player, it is below 1 after it, whatever the input. *)
Theorem Player_runTick_stands_free (TILE_SIZE SPEED FRAME_TIME : Z)
    (ih : InputHandler) (m : MapManager) (type : Z) (o o' : GameObject) (delta : Z) :
  stands_free m o →
  Player_runTick TILE_SIZE SPEED FRAME_TIME ih m type o delta = Some o' →
  stands_free m o'.
Proof.
  intros (c & Hc & Hlt). apply Player_runTick_ind.
  - exists c. split; [|done]. rewrite <- Hc.
    destruct (GameObject_runTick_fields SPEED FRAME_TIME o delta)
      as (_ & _ & Hx & Hy & Hsx & Hsy).
    apply checkCollision_ext; [lia|lia|done|done].
  - intros p d c' _ _ Hc' Hlt'. exists c'. split; [|done]. rewrite <- Hc'.
    destruct (setMapPos_map TILE_SIZE p (map_x p + (dir_offset d).1)
                (map_y p + (dir_offset d).2) true) as [Hx Hy].
    destruct (setMapPos_static TILE_SIZE p (map_x p + (dir_offset d).1)
                (map_y p + (dir_offset d).2) true)
      as (_ & _ & _ & _ & _ & _ & _ & Hsx & Hsy).
    apply checkCollision_ext; [lia|lia|done|done].
Qed.

Lemma input_move_pos (TILE_SIZE : Z) (ih : InputHandler) (m : MapManager)
    (type : Z) (o o' : GameObject) (d : DIR) :
  input_move TILE_SIZE ih m type o d = Some o' →
  (map_x o' = map_x o ∧ map_y o' = map_y o)
  ∨ (map_x o' = map_x o + (dir_offset d).1 ∧ map_y o' = map_y o + (dir_offset d).2).
Proof.
  intros Hpoll.
  apply input_move_cases in Hpoll as [->|(c & _ & _ & _ & ->)]; [by left|].
  right. apply setMapPos_map.
Qed.

(** X22.  One tick of a player moves the logical position by at most one
    tile on each axis, whatever the input: the moves up and down, and the
    moves right and left, of one tick cancel or stand alone. *)
Theorem Player_runTick_one_tile (TILE_SIZE SPEED FRAME_TIME : Z)
    (ih : InputHandler) (m : MapManager) (type : Z) (o o' : GameObject) (delta : Z) :
  Player_runTick TILE_SIZE SPEED FRAME_TIME ih m type o delta = Some o' →
  Z.abs (map_x o' - map_x o) ≤ 1 ∧ Z.abs (map_y o' - map_y o) ≤ 1.
Proof.
  rewrite Player_runTick_poll. simpl.
  destruct (GameObject_runTick_fields SPEED FRAME_TIME o delta)
    as (_ & _ & Hx & Hy & _).
  destruct (_ || _); [|intros [= <-]; lia].
  unfold poll_directions. simpl.
  destruct (input_move _ _ _ _ _ UP) as [o1|] eqn:H1; [|done]. simpl.
  destruct (input_move _ _ _ _ _ RIGHT) as [o2|] eqn:H2; [|done]. simpl.
  destruct (input_move _ _ _ _ _ DOWN) as [o3|] eqn:H3; [|done]. simpl.
  destruct (input_move _ _ _ _ _ LEFT) as [o4|] eqn:H4; [|done]. simpl.
  intros [= <-].
  apply input_move_pos in H1, H2, H3, H4. simpl in *. lia.
Qed.

(** X23.  Without an active input the tick of a player is the tick of
    the base class; a player whose [type] is neither 0 nor 1 has no
    active input, whatever is pressed, and a player of type 0 (of type
    1) listens to [isPlayer] (to [isPlayer2]) alone. *)
Theorem Player_runTick_no_input (TILE_SIZE SPEED FRAME_TIME : Z)
    (ih : InputHandler) (m : MapManager) (type : Z) (o : GameObject) (delta : Z) :
  ((∀ d, player_input ih type d = false) →
     Player_runTick TILE_SIZE SPEED FRAME_TIME ih m type o delta
     = Some (GameObject_runTick SPEED FRAME_TIME o delta))
  ∧ (type ≠ 0 → type ≠ 1 → ∀ d, player_input ih type d = false)
  ∧ (type = 0 → ∀ d, player_input ih type d = isPlayer ih d)
  ∧ (type = 1 → ∀ d, player_input ih type d = isPlayer2 ih d).
Proof.
  split; [|split; [|split]].
  - intros Hno. rewrite Player_runTick_poll. simpl.
    destruct (_ || _); [|done].
    unfold poll_directions, input_move. simpl. by rewrite !Hno.
  - intros H0 H1 d. unfold player_input.
    destruct (Z.eqb_spec type 0); [done|]. destruct (Z.eqb_spec type 1); [done|].
    by rewrite !andb_false_r.
  - intros -> d. unfold player_input. simpl. by rewrite andb_true_r, andb_false_r, orb_false_r.
  - intros -> d. unfold player_input. simpl. by rewrite andb_true_r, andb_false_r.
Qed.

(** ** More of the world tick *)

(** The loop over the objects: each object is ticked unless the world
    is paused, and the scan is the scan of the objects as they are after
    their tick. *)
Lemma tick_objects_spec (TILE_SIZE SPEED FRAME_TIME : Z) (ih : InputHandler)
    (m : MapManager) (paused : bool) (delta : Z) (objs : list GameObject) :
  ∀ c objs' c',
  tick_objects TILE_SIZE SPEED FRAME_TIME ih m paused delta objs c = Some (objs', c') →
  Forall2 (λ o o', if paused then o' = o
                   else object_runTick TILE_SIZE SPEED FRAME_TIME ih m o delta = Some o')
    objs objs'
  ∧ c' = foldl (λ c o, scan_object TILE_SIZE o c) c objs'.
Proof.
  induction objs as [|obj objs IH]; intros c objs' c'; simpl.
  - intros [= <- <-]. split; [constructor|done].
  - destruct (if negb paused then _ else _) as [obj'|] eqn:Hobj; [|done]. simpl.
    destruct (tick_objects _ _ _ _ _ _ _ objs _) as [[rest c1]|] eqn:Hrest; [|done].
    simpl. intros [= <- <-].
    destruct (IH _ _ _ Hrest) as [Hall ->].
    split; [|done]. constructor; [|done].
    destruct paused; simpl in Hobj; [by injection Hobj as <-|done].
Qed.

Lemma object_runTick_fields (TILE_SIZE SPEED FRAME_TIME : Z) (ih : InputHandler)
    (m : MapManager) (o o' : GameObject) (delta : Z) :
  object_runTick TILE_SIZE SPEED FRAME_TIME ih m o delta = Some o' →
  kind o' = kind o ∧ camera_center o' = camera_center o
  ∧ size_x o' = size_x o ∧ size_y o' = size_y o.
Proof.
  unfold object_runTick.
  destruct (GameObject_runTick_fields SPEED FRAME_TIME o delta)
    as (H1 & H2 & _ & _ & H5 & H6).
  destruct (kind o) as [|type] eqn:Hkind.
  - intros [= <-]. repeat split; congruence.
  - apply (Player_runTick_ind
             (λ p, kind p = PlayerObject type ∧ camera_center p = camera_center o
                   ∧ size_x p = size_x o ∧ size_y p = size_y o));
      [repeat split; congruence|].
    intros p d c (Hk & Hc & Hsx & Hsy) _ _ _.
    by destruct (setMapPos_static TILE_SIZE p (map_x p + (dir_offset d).1)
                   (map_y p + (dir_offset d).2) true)
      as (-> & _ & _ & _ & _ & _ & -> & -> & ->).
Qed.

(** X24.  What a tick of the world keeps: the map and the pause flag
    are untouched, the objects stay as many and in the same order, each
    one of the same class, with the same camera flag and footprint; in a
    paused world every object is left exactly as it was (only the
    renderer is updated), in a running world every object is the result
    of its own tick. *)
Theorem GameManager_runTick_keeps (TILE_SIZE SPEED FRAME_TIME : Z) (fuel : nat)
    (ih : InputHandler) (gm gm' : GameManager) (delta : Z) :
  GameManager_runTick TILE_SIZE SPEED FRAME_TIME fuel ih gm delta = Some gm' →
  map_manager gm' = map_manager gm
  ∧ paused gm' = paused gm
  ∧ length (objects gm') = length (objects gm)
  ∧ (paused gm = true → objects gm' = objects gm)
  ∧ Forall2 (λ o o',
       kind o' = kind o ∧ camera_center o' = camera_center o
       ∧ size_x o' = size_x o ∧ size_y o' = size_y o
       ∧ (paused gm = false →
            object_runTick TILE_SIZE SPEED FRAME_TIME ih (map_manager gm) o delta
            = Some o'))
      (objects gm) (objects gm').
Proof.
  unfold GameManager_runTick.
  destruct (tick_objects _ _ _ _ _ _ _ _ _) as [[objs c]|] eqn:Hobjs; [|done]. simpl.
  apply tick_objects_spec in Hobjs as [Hall _]. intros Hgm.
  assert (map_manager gm' = map_manager gm ∧ paused gm' = paused gm
          ∧ objects gm' = objs) as (-> & -> & ->).
  { destruct (0 <? camera_count c); simpl in Hgm;
      (destruct (scan_multiplier TILE_SIZE fuel c) as [mult|]; [|done]);
      by injection Hgm as <-. }
  clear Hgm. split; [done|]. split; [done|].
  split; [symmetry; by eapply Forall2_length|]. split.
  - intros Hp. rewrite Hp in Hall. symmetry. apply list_eq_Forall2.
    eapply Forall2_impl; [exact Hall|]. by intros o o' ->.
  - eapply Forall2_impl; [exact Hall|]. intros o o' Ho. simpl in Ho.
    destruct (paused gm).
    + subst o'. repeat split; done.
    + destruct (object_runTick_fields _ _ _ _ _ _ _ _ Ho) as (? & ? & ? & ?). done.
Qed.

(** The scan of a list of objects, from the centres of its anchors. *)
Lemma scan_objects_sums (TILE_SIZE : Z) (objs : list GameObject) :
  ∀ c,
  let c' := foldl (λ c o, scan_object TILE_SIZE o c) c objs in
  let cs := anchor_centers TILE_SIZE objs in
  camera_count c' = camera_count c + Z.of_nat (length cs)
  ∧ camera_x c' = camera_x c + sumZ (cs.*1)
  ∧ camera_y c' = camera_y c + sumZ (cs.*2)
  ∧ min_x c' = foldl Z.min (min_x c) (cs.*1)
  ∧ min_y c' = foldl Z.min (min_y c) (cs.*2)
  ∧ max_x c' = foldl Z.max (max_x c) (cs.*1)
  ∧ max_y c' = foldl Z.max (max_y c) (cs.*2).
Proof.
  unfold anchor_centers.
  induction objs as [|o objs IH]; intros c; simpl.
  - repeat split; lia.
  - destruct (IH (scan_object TILE_SIZE o c)) as (H1 & H2 & H3 & H4 & H5 & H6 & H7).
    rewrite H1, H2, H3, H4, H5, H6, H7. clear IH H1 H2 H3 H4 H5 H6 H7.
    unfold scan_object. rewrite filter_cons.
    destruct (isCameraCenter o) eqn:Hanchor.
    + rewrite decide_True by done. rewrite !fmap_cons.
      destruct (getCenter TILE_SIZE o) as [cx cy] eqn:Hcenter.
      unfold sumZ. cbn [fst snd foldr foldl length camera_count camera_x camera_y
                        min_x min_y max_x max_y].
      rewrite Nat2Z.inj_succ. repeat split; lia.
    + rewrite decide_False by done. repeat split; lia.
Qed.

(** X25.  The camera centre that a tick of the world gives to the
    renderer is, on each axis, the sum of the centres of the camera
    anchors, taken after their tick, divided by their number with
    truncation; without an anchor it is (0, 0). *)
Theorem GameManager_runTick_camera (TILE_SIZE SPEED FRAME_TIME : Z) (fuel : nat)
    (ih : InputHandler) (gm gm' : GameManager) (delta : Z) :
  GameManager_runTick TILE_SIZE SPEED FRAME_TIME fuel ih gm delta = Some gm' →
  let cs := anchor_centers TILE_SIZE (objects gm') in
  (cs = [] → center_x (renderer gm') = 0 ∧ center_y (renderer gm') = 0)
  ∧ (cs ≠ [] →
       center_x (renderer gm') = sumZ (cs.*1) ÷ Z.of_nat (length cs)
       ∧ center_y (renderer gm') = sumZ (cs.*2) ÷ Z.of_nat (length cs)).
Proof.
  intros Hgm cs. unfold GameManager_runTick in Hgm.
  destruct (tick_objects _ _ _ _ _ _ _ _ _) as [[objs c]|] eqn:Hobjs; [|done].
  simpl in Hgm.
  apply tick_objects_spec in Hobjs as [_ ->].
  destruct (scan_objects_sums TILE_SIZE objs CameraScan_init) as (Hn & Hx & Hy & _).
  simpl in Hn, Hx, Hy. rewrite Z.add_0_l in Hn, Hx, Hy.
  set (c := foldl _ _ _) in *.
  assert (objects gm' = objs) as Hobjs.
  { destruct (0 <? camera_count c); simpl in Hgm;
      (destruct (scan_multiplier TILE_SIZE fuel c) as [mult|]; [|done]);
      by injection Hgm as <-. }
  subst cs. rewrite Hobjs. rewrite Hn, Hx, Hy in Hgm.
  set (cs := anchor_centers TILE_SIZE objs) in *. split.
  - intros Hcs. rewrite Hcs in Hgm. simpl in Hgm.
    destruct (scan_multiplier TILE_SIZE fuel c) as [mult|]; simpl in Hgm; [|discriminate Hgm].
    by injection Hgm as <-.
  - intros Hcs. assert (0 < Z.of_nat (length cs)) as Hlen by (destruct cs; simpl; [done|lia]).
    destruct (Z.ltb_spec 0 (Z.of_nat (length cs))); [|lia]. simpl in Hgm.
    destruct (scan_multiplier TILE_SIZE fuel c) as [mult|]; simpl in Hgm; [|discriminate Hgm].
    by injection Hgm as <-.
Qed.

(** X26.  On a scan whose bounds are [int] values, with a positive
    tile size, when nothing that [GameManager::runTick] computes for the
    multiplier leaves the range of [int] (the two differences of the
    bounds, the baseline width [4 * 5 * TILE_SIZE], and the width of the
    bounding box plus four tiles), the loop of the multiplier ends, on
    the least multiplier from 5 on for which the width of the bounding
    box fits the viewport width or its height fits the viewport height;
    every product that the loop condition computes on the way is an
    [int]; the result does not depend on the fuel once the fuel exceeds
    the width of the bounding box. *)
Theorem scan_multiplier_least (TILE_SIZE : Z) (c : CameraScan) :
  0 < TILE_SIZE →
  4 * 5 * TILE_SIZE ≤ INT_MAX →
  INT_MIN ≤ min_x c ≤ INT_MAX → INT_MIN ≤ max_x c ≤ INT_MAX →
  INT_MIN ≤ min_y c ≤ INT_MAX → INT_MIN ≤ max_y c ≤ INT_MAX →
  - INT_MAX ≤ max_x c - min_x c ≤ INT_MAX →
  - INT_MAX ≤ max_y c - min_y c ≤ INT_MAX →
  span_x c + 4 * TILE_SIZE ≤ INT_MAX →
  ∃ mult,
    (∀ fuel, (Z.to_nat (span_x c) < fuel)%nat →
       scan_multiplier TILE_SIZE fuel c = Some mult)
    ∧ 5 ≤ mult ≤ INT_MAX
    ∧ (span_x c ≤ 4 * mult * TILE_SIZE ∨ span_y c ≤ 3 * mult * TILE_SIZE)
    ∧ (∀ k, 5 ≤ k < mult →
         4 * k * TILE_SIZE < span_x c ∧ 3 * k * TILE_SIZE < span_y c)
    ∧ (∀ k, 5 ≤ k ≤ mult →
         0 < 3 * k * TILE_SIZE ≤ 4 * k * TILE_SIZE
         ∧ 4 * k * TILE_SIZE ≤ INT_MAX)
    ∧ 0 ≤ span_x c ≤ INT_MAX ∧ 0 ≤ span_y c ≤ INT_MAX.
Proof.
  intros HT Hbase _ _ _ _ Hdx Hdy Hroom.
  destruct (multiplier_loop_terminates TILE_SIZE (S (Z.to_nat (span_x c)))
              (span_x c) (span_y c) HT 5) as [mult Hmult]; [lia|lia|lia|].
  destruct (multiplier_loop_spec _ _ _ _ _ _ Hmult) as (Hge & Hexit & Hpassed).
  assert (∀ k, 5 ≤ k ≤ mult → 4 * k * TILE_SIZE ≤ INT_MAX) as Hint.
  { intros k Hk. destruct (decide (k = 5)) as [->|Hne]; [done|].
    destruct (Hpassed (k - 1)) as [Hx _]; [lia|]. nia. }
  exists mult. split; [|split; [|split; [lia|split; [done|split]]]].
  - intros fuel Hfuel.
    destruct (multiplier_loop_terminates TILE_SIZE fuel (span_x c) (span_y c) HT 5)
      as [mult' Hmult']; [lia|lia|lia|].
    unfold scan_multiplier. fold (span_x c) (span_y c). rewrite Hmult'. f_equal.
    destruct (multiplier_loop_spec _ _ _ _ _ _ Hmult') as (Hge' & Hexit' & Hpassed').
    destruct (Z.lt_trichotomy mult mult') as [Hlt|[->|Hgt]]; [|done|].
    + specialize (Hpassed' mult). lia.
    + specialize (Hpassed mult'). lia.
  - split; [done|]. specialize (Hint mult). nia.
  - intros k Hk. specialize (Hint k Hk). nia.
  - unfold span_x, span_y. lia.
Qed.

(** X27.  A world with a single object that is a camera anchor, as the
    constructor of [GameManager] builds it: after a tick the camera
    centre is the centre of the object and the viewport has the baseline
    size, 20 by 15 tiles, wherever the object is (its centre being an
    [int]). *)
Theorem GameManager_runTick_single_anchor (TILE_SIZE SPEED FRAME_TIME : Z)
    (fuel : nat) (ih : InputHandler) (gm gm' : GameManager) (o : GameObject)
    (delta : Z) :
  0 ≤ TILE_SIZE → objects gm = [o] → isCameraCenter o = true →
  GameManager_runTick TILE_SIZE SPEED FRAME_TIME fuel ih gm delta = Some gm' →
  ∃ o', objects gm' = [o']
    ∧ (INT_MIN ≤ (getCenter TILE_SIZE o').1 ≤ INT_MAX →
       INT_MIN ≤ (getCenter TILE_SIZE o').2 ≤ INT_MAX →
       renderer gm'
       = mkRenderer (getCenter TILE_SIZE o').1 (getCenter TILE_SIZE o').2
           (4 * 5 * TILE_SIZE) (3 * 5 * TILE_SIZE)).
Proof.
  intros HT Hobjs Hanchor Hgm. unfold GameManager_runTick in Hgm.
  rewrite Hobjs in Hgm.
  destruct (tick_objects _ _ _ _ _ _ _ _ _) as [[objs c]|] eqn:Hticks; [|done].
  apply tick_objects_spec in Hticks as [Hall ->].
  apply Forall2_cons_inv_l in Hall as (o' & rest & Ho' & Hrest & ->).
  apply Forall2_nil_inv_l in Hrest as ->.
  assert (isCameraCenter o' = true) as Hanchor'.
  { unfold isCameraCenter in *. destruct (paused gm); [by subst|].
    apply object_runTick_fields in Ho' as (_ & -> & _). done. }
  clear Ho'. exists o'.
  cbn -[getCenter scan_multiplier] in Hgm. unfold scan_object in Hgm.
  rewrite Hanchor' in Hgm.
  destruct (getCenter TILE_SIZE o') as [cx cy]. cbn -[scan_multiplier] in Hgm.
  destruct (scan_multiplier _ _ _) as [mult|] eqn:Hmult; [|done].
  cbn in Hgm. injection Hgm as <-. split; [done|]. cbn.
  intros Hcx Hcy. rewrite !Z.quot_1_r.
  apply scan_multiplier_spec in Hmult as (Hge & _ & Hpassed).
  unfold span_x, span_y in Hpassed. cbn in Hpassed.
  assert (mult = 5) as ->.
  { destruct (decide (mult = 5)) as [|Hne]; [done|].
    specialize (Hpassed 5). unfold INT_MIN, INT_MAX in *. lia. }
  unfold setSize, setCenter. cbn. f_equal.
Qed.

(** ** The further properties on the sample states *)

Lemma INT_MAX_bounds (x : Z) : 0 ≤ x < 2 ^ 31 - 1 → 0 ≤ x < INT_MAX.
Proof. unfold INT_MAX. lia. Qed.

(** Growing the sample grid does not change what [getCollision] says of
    a coordinate that was outside. *)
Lemma getCollision_resizeMapStorage_witness :
  grid_ok sample_grid ∧ 0 ≤ 4 < INT_MAX ∧ 0 ≤ 1 < INT_MAX
  ∧ resizeMapStorage sample_grid 4 1 false = Some sample_grid_grown
  ∧ getCollision sample_grid_grown 4 0 = getCollision sample_grid 4 0.
Proof.
  assert (0 ≤ 4 < INT_MAX) as Hx by (apply INT_MAX_bounds; lia).
  assert (0 ≤ 1 < INT_MAX) as Hy by (apply INT_MAX_bounds; lia).
  assert (resizeMapStorage sample_grid 4 1 false = Some sample_grid_grown) as Hres
    by (vm_compute; reflexivity).
  split; [exact grid_ok_sample_grid|]. split; [exact Hx|]. split; [exact Hy|].
  split; [exact Hres|].
  exact (getCollision_resizeMapStorage sample_grid sample_grid_grown 4 1
           grid_ok_sample_grid Hx Hy Hres 4 0).
Defined.

(** A resize of the sample grid to x = -2 throws. *)
Lemma resizeMapStorage_negative_witness :
  Z.of_nat (grid_width sample_grid) ≤ INT_MAX
  ∧ Z.of_nat (grid_height sample_grid) ≤ INT_MAX
  ∧ INT_MIN ≤ -2 ∧ INT_MIN ≤ 0 ∧ -2 < -1
  ∧ resizeMapStorage sample_grid (-2) 0 false = None.
Proof.
  assert (Z.of_nat (grid_width sample_grid) ≤ INT_MAX) as Hw by (vm_compute; discriminate).
  assert (Z.of_nat (grid_height sample_grid) ≤ INT_MAX) as Hh by (vm_compute; discriminate).
  assert (INT_MIN ≤ -2) as Hx by (vm_compute; discriminate).
  assert (INT_MIN ≤ 0) as Hy by (vm_compute; discriminate).
  assert (-2 < -1) as Hneg by lia.
  do 5 (split; [assumption|]).
  exact (proj1 (resizeMapStorage_negative sample_grid (-2) 0 false Hw Hh Hx Hy) Hneg).
Defined.

Lemma sample_records_valid :
  Forall (λ r, 0 ≤ (record_pos r).1 < INT_MAX ∧ 0 ≤ (record_pos r).2 < INT_MAX)
    sample_records.
Proof. repeat constructor; simpl; unfold INT_MAX; lia. Defined.

(** Loading the sample records over the sample grid. *)
Lemma loadMap_rebuilds_witness :
  Forall (λ r, 0 ≤ (record_pos r).1 < INT_MAX ∧ 0 ≤ (record_pos r).2 < INT_MAX)
    sample_records
  ∧ ∃ m', loadMap sample_grid (0, 0) sample_records = Some m'
      ∧ loadMap MapManager_empty (0, 0) sample_records = Some m'
      ∧ Z.of_nat (grid_width m') = 3.
Proof.
  split; [exact sample_records_valid|].
  destruct (loadMap_rebuilds sample_grid (0, 0) sample_records sample_records_valid)
    as (m' & H1 & H2 & _ & _ & Hw & _).
  exists m'. split; [exact H1|]. split; [exact H2|exact Hw].
Defined.

Lemma loadMap_sample_loaded :
  loadMap sample_grid (0, 0) sample_records = Some sample_loaded.
Proof. vm_compute. reflexivity. Defined.

(** The collision values of the loaded sample: the last record at
    (0, 0), the block at (2, 2), the default at (1, 1) and outside. *)
Lemma loadMap_getCollision_witness :
  getCollision sample_loaded 0 0 = Some 0
  ∧ getCollision sample_loaded 2 2 = Some 1
  ∧ getCollision sample_loaded 1 1 = Some 1
  ∧ getCollision sample_loaded 7 (-3) = Some 1.
Proof.
  pose proof (loadMap_getCollision sample_grid sample_loaded (0, 0) sample_records
                sample_records_valid loadMap_sample_loaded) as H.
  split; [exact (H 0 0)|]. split; [exact (H 2 2)|]. split; [exact (H 1 1)|].
  exact (H 7 (-3)).
Defined.

(** The tiles of the loaded sample. *)
Lemma loadMap_tiles_witness :
  cell (tile sample_loaded) 0 0 = Some (LoadedTexture "sand.png")
  ∧ cell (tile sample_loaded) 1 1 = Some MissingTexture.
Proof.
  pose proof (loadMap_tiles sample_grid sample_loaded (0, 0) sample_records
                sample_records_valid loadMap_sample_loaded) as H.
  split.
  - exact (H 0%nat 0%nat ltac:(vm_compute; lia) ltac:(vm_compute; lia)).
  - exact (H 1%nat 1%nat ltac:(vm_compute; lia) ltac:(vm_compute; lia)).
Defined.

(** A file with a tile at (-1, 0) after a good record. *)
Lemma loadMap_negative_tile_witness :
  TileRecord (-1) 0 "edge.png" 0 0
    ∈ [TileRecord 0 0 "grass.png" 0 0; TileRecord (-1) 0 "edge.png" 0 0]
  ∧ (-1 < 0 ∨ 0 < 0)
  ∧ loadMap sample_grid (0, 0)
      [TileRecord 0 0 "grass.png" 0 0; TileRecord (-1) 0 "edge.png" 0 0] = None.
Proof.
  assert (TileRecord (-1) 0 "edge.png" 0 0
            ∈ [TileRecord 0 0 "grass.png" 0 0; TileRecord (-1) 0 "edge.png" 0 0]) as Hin.
  { apply elem_of_cons. right. apply elem_of_cons. by left. }
  assert (-1 < 0 ∨ 0 < 0) as Hneg by (left; lia).
  split; [exact Hin|]. split; [exact Hneg|].
  exact (loadMap_negative_tile sample_grid (0, 0) _ (-1) 0 "edge.png" 0 0 Hin Hneg).
Defined.

Lemma sample_entries_valid : Forall (λ e, 0 ≤ e.1 < INT_MAX) sample_entries.
Proof. repeat constructor; simpl; unfold INT_MAX; lia. Defined.

(** The sample registry: four slots, the later path of map 1, the empty
    path in the slot of map 2. *)
Lemma loadRegistry_lookup_witness :
  Forall (λ e, 0 ≤ e.1 < INT_MAX) sample_entries
  ∧ ∃ maps', loadRegistry [] sample_entries = Some maps'
      ∧ Z.of_nat (length maps') = 4
      ∧ maps' !! 1%nat = Some "city.txt"
      ∧ maps' !! 2%nat = Some EmptyString.
Proof.
  split; [exact sample_entries_valid|].
  destruct (loadRegistry_lookup [] sample_entries sample_entries_valid)
    as (maps' & Hload & Hlen & Hreg & Hother).
  exists maps'. split; [exact Hload|]. split; [exact Hlen|]. split.
  - exact (proj2 (Hreg 1 "city.txt" eq_refl)).
  - apply (Hother 2%nat eq_refl).
    change (Z.of_nat (length maps') = 4) in Hlen. lia.
Defined.

(** A registry file with the identifier -1. *)
Lemma loadRegistry_negative_witness :
  (-1, "void.txt") ∈ [(1, "town.txt"); (-1, "void.txt")]
  ∧ -1 < 0
  ∧ loadRegistry [] [(1, "town.txt"); (-1, "void.txt")] = None.
Proof.
  assert ((-1, "void.txt") ∈ [(1, "town.txt"); (-1, "void.txt")]) as Hin.
  { apply elem_of_cons. right. apply elem_of_cons. by left. }
  assert (-1 < 0) as Hneg by lia.
  split; [exact Hin|]. split; [exact Hneg|].
  exact (loadRegistry_negative [] _ (-1) "void.txt" Hin Hneg).
Defined.

(** The drawing of the sample grid: nine items, the one of cell (2, 1)
    the seventh after the first. *)
Lemma MapManager_render_items_witness :
  grid_ok sample_grid
  ∧ length (MapManager_render 16 sample_grid) = 9%nat
  ∧ MapManager_render 16 sample_grid !! 7%nat
    = Some (mkRenderItem (LoadedTexture "grass.png") 32 16 false false 0).
Proof.
  split; [exact grid_ok_sample_grid|].
  destruct (MapManager_render_items 16 sample_grid grid_ok_sample_grid)
    as (Hlen & Hitem & _).
  split; [exact Hlen|].
  exact (Hitem 2%nat 1%nat (LoadedTexture "grass.png") eq_refl).
Defined.

(** Three frames on from frame 2 of the cycle 1 to 4: frame 1. *)
Lemma advanceFrames_cycle_witness :
  loop_frame walking_player ≤ current_frame walking_player ≤ end_frame walking_player
  ∧ current_frame (advanceFrames 3 walking_player LEFT) = 1
  ∧ dir (advanceFrames 3 walking_player LEFT) = LEFT.
Proof.
  assert (loop_frame walking_player ≤ current_frame walking_player
          ≤ end_frame walking_player) as Hf by (simpl; lia).
  split; [exact Hf|].
  destruct (advanceFrames_cycle 3 LEFT walking_player Hf) as (Hcf & _ & Hdir).
  split; [exact Hcf|]. apply Hdir. lia.
Defined.

Lemma frame_ok_walking_player : frame_ok walking_player.
Proof. unfold frame_ok. simpl. lia. Defined.

(** The frame state of the walking player after a tick with up and
    right pressed. *)
Lemma object_runTick_frame_ok_witness :
  frame_ok walking_player
  ∧ ∃ o', object_runTick 16 10 100 up_right_input sample_grid walking_player 11 = Some o'
      ∧ frame_ok o'.
Proof.
  split; [exact frame_ok_walking_player|].
  eexists. split; [vm_compute; reflexivity|].
  apply (object_runTick_frame_ok 16 10 100 up_right_input sample_grid walking_player _ 11
           frame_ok_walking_player).
  vm_compute. reflexivity.
Defined.

(** The item of the walking player, facing down in frame 2. *)
Lemma GameObject_render_item_witness :
  frame_ok walking_player
  ∧ end_frame walking_player `max` stop_frame walking_player
    < Z.of_nat (length (up sample_sprites))
  ∧ ∃ t, GameObject_render sample_sprites walking_player
         = Some (mkRenderItem t 16 16 false false 1).
Proof.
  assert (end_frame walking_player `max` stop_frame walking_player
          < Z.of_nat (length (up sample_sprites))) as Hup by (vm_compute; reflexivity).
  split; [exact frame_ok_walking_player|]. split; [exact Hup|].
  destruct (GameObject_render_item sample_sprites walking_player
              frame_ok_walking_player Hup
              ltac:(vm_compute; reflexivity) ltac:(vm_compute; reflexivity))
    as (t & Hitem & _).
  exists t. exact Hitem.
Defined.

(** The walking player keeps its tile and its walker keeps its
    destination through a tick. *)
Lemma GameObject_runTick_static_witness :
  object_walker walking_player = Some resting_walker
  ∧ getMapPos (GameObject_runTick 10 100 walking_player 11) = (1, 1)
  ∧ ∃ w', object_walker (GameObject_runTick 10 100 walking_player 11) = Some w'
      ∧ dest_x w' = 16 ∧ tick w' = 11.
Proof.
  assert (object_walker walking_player = Some resting_walker) as Hw by reflexivity.
  split; [exact Hw|].
  destruct (GameObject_runTick_static 10 100 walking_player 11)
    as (_ & _ & Hx & Hy & _ & _ & _ & _ & _ & _ & Hwalker).
  split.
  - unfold getMapPos. rewrite Hx, Hy. reflexivity.
  - destruct (Hwalker resting_walker Hw) as (w' & Hw' & Hdx & _ & Htick).
    exists w'. split; [exact Hw'|]. split; [exact Hdx|exact Htick].
Defined.

(** A new destination for the waiting walker is served by a tick of 1,
    although its deadline was at 15. *)
Lemma setDestination_next_tick_witness :
  wrap64 (tick waiting_walker + 1) ≠ 0
  ∧ screen_x (ObjectWalker_runTick 10 100 (setDestination waiting_walker 3 0)
                waiting_object 1).2 = 1.
Proof.
  assert (wrap64 (tick waiting_walker + 1) ≠ 0) as Hnow by (vm_compute; discriminate).
  split; [exact Hnow|].
  destruct (setDestination_next_tick 10 100 waiting_walker waiting_object 3 0 1)
    as [Hstep _].
  exact (proj1 (Hstep Hnow)).
Defined.

(** The approaching player, walking towards smaller x, faces right. *)
Lemma ObjectWalker_runTick_facing_witness :
  movement_deadline arriving_walker < wrap64 (tick arriving_walker + 11)
  ∧ animation_deadline arriving_walker < wrap64 (tick arriving_walker + 11)
  ∧ dir (ObjectWalker_runTick 10 100 arriving_walker approaching_player 11).2 = RIGHT
  ∧ current_frame (ObjectWalker_runTick 10 100 arriving_walker approaching_player 11).2 = 3.
Proof.
  assert (movement_deadline arriving_walker < wrap64 (tick arriving_walker + 11)) as Hmd
    by (vm_compute; reflexivity).
  assert (animation_deadline arriving_walker < wrap64 (tick arriving_walker + 11)) as Had
    by (vm_compute; reflexivity).
  split; [exact Hmd|]. split; [exact Had|].
  exact (ObjectWalker_runTick_facing 10 100 arriving_walker approaching_player 11
           Hmd Had ltac:(left; vm_compute; discriminate)).
Defined.

(** The waiting walker at its deadline: no animation. *)
Lemma ObjectWalker_runTick_animation_gate_witness :
  ¬ (movement_deadline waiting_walker < wrap64 (tick waiting_walker + 10)
     ∧ animation_deadline waiting_walker < wrap64 (tick waiting_walker + 10))
  ∧ current_frame (ObjectWalker_runTick 10 100 waiting_walker waiting_object 10).2 = 0.
Proof.
  assert (¬ (movement_deadline waiting_walker < wrap64 (tick waiting_walker + 10)
             ∧ animation_deadline waiting_walker < wrap64 (tick waiting_walker + 10)))
    as Hgate.
  { intros [Hmd _]. vm_compute in Hmd. discriminate. }
  split; [exact Hgate|].
  exact (proj1 (ObjectWalker_runTick_animation_gate 10 100 waiting_walker
                  waiting_object 10 Hgate)).
Defined.

(** Two ticks of 11 from clock 5. *)
Lemma walker_ticks_clock_witness :
  0 ≤ tick waiting_walker < 2 ^ 64
  ∧ tick (walker_ticks 10 100 [11; 11] waiting_walker waiting_object).1 = 27.
Proof.
  assert (0 ≤ tick waiting_walker < 2 ^ 64) as Htick by (simpl; lia).
  split; [exact Htick|].
  exact (walker_ticks_clock 10 100 [11; 11] waiting_walker waiting_object Htick).
Defined.

(** With tiles two pixels wide a move to tile (1, 0) settles in two
    ticks. *)
Lemma setMapPos_settles_witness :
  object_walker small_player = Some small_walker
  ∧ 0 ≤ 10 ∧ Forall (λ delta, 10 < delta) [11; 11]
  ∧ getScreenPos (object_ticks 10 100 [11; 11] (setMapPos 2 small_player 1 0 true))
    = (2, 0).
Proof.
  assert (object_walker small_player = Some small_walker) as Hw by reflexivity.
  assert (0 ≤ 10) as HS by lia.
  assert (Forall (λ delta, 10 < delta) [11; 11]) as Hall by (repeat constructor).
  split; [exact Hw|]. split; [exact HS|]. split; [exact Hall|].
  destruct (setMapPos_settles 2 10 100 small_player small_walker 1 0 [11; 11]
              Hw HS Hall ltac:(simpl; lia) ltac:(vm_compute; reflexivity)
              ltac:(vm_compute; discriminate))
    as (Hmx & Hmy & Hsx & Hsy).
  unfold getScreenPos. rewrite Hsx, Hsy, Hmx, Hmy. reflexivity.
Defined.

(** The player at rest on tile (1, 1) does not move. *)
Lemma object_ticks_rest_witness :
  object_walker (player_at 16 1 1) = Some resting_walker
  ∧ screen_x (player_at 16 1 1) = dest_x resting_walker
  ∧ screen_y (player_at 16 1 1) = dest_y resting_walker
  ∧ screen_x (object_ticks 10 100 [11; 5; 200] (player_at 16 1 1)) = 16.
Proof.
  assert (object_walker (player_at 16 1 1) = Some resting_walker) as Hw by reflexivity.
  assert (screen_x (player_at 16 1 1) = dest_x resting_walker) as Hx by reflexivity.
  assert (screen_y (player_at 16 1 1) = dest_y resting_walker) as Hy by reflexivity.
  split; [exact Hw|]. split; [exact Hx|]. split; [exact Hy|].
  exact (proj1 (object_ticks_rest 10 100 [11; 5; 200] (player_at 16 1 1)
                  resting_walker Hw Hx Hy)).
Defined.

(** The collision of the player on (1, 1) towards the block at (2, 0). *)
Lemma checkCollision_max_witness :
  ∃ c, checkCollision sample_grid (player_at 16 1 1) 1 (-1) = Some c
    ∧ 0 ≤ c
    ∧ ∃ v, getCollision sample_grid 2 0 = Some v ∧ v ≤ c.
Proof.
  destruct (checkCollision_max sample_grid (player_at 16 1 1) 1 (-1))
    as (c & Hc & Hpos & Hub & _).
  exists c. split; [exact Hc|]. split; [exact Hpos|].
  exact (Hub 0 0 ltac:(simpl; lia) ltac:(simpl; lia)).
Defined.

Lemma stands_free_sample : stands_free sample_grid (player_at 16 0 2).
Proof. exists 0. split; [vm_compute; reflexivity|lia]. Defined.

(** The player on (0, 2) with up and right pressed still stands free
    after its tick. *)
Lemma Player_runTick_stands_free_witness :
  stands_free sample_grid (player_at 16 0 2)
  ∧ ∃ o', Player_runTick 16 10 100 up_right_input sample_grid 0 (player_at 16 0 2) 11
          = Some o'
      ∧ stands_free sample_grid o' ∧ getMapPos o' = (1, 1).
Proof.
  split; [exact stands_free_sample|].
  eexists. split; [vm_compute; reflexivity|]. split; [|reflexivity].
  apply (Player_runTick_stands_free 16 10 100 up_right_input sample_grid 0
           (player_at 16 0 2) _ 11 stands_free_sample).
  vm_compute. reflexivity.
Defined.

(** The same tick moves the player one tile on each axis. *)
Lemma Player_runTick_one_tile_witness :
  ∃ o', Player_runTick 16 10 100 up_right_input sample_grid 0 (player_at 16 0 2) 11
        = Some o'
    ∧ Z.abs (map_x o' - 0) ≤ 1 ∧ Z.abs (map_y o' - 2) ≤ 1.
Proof.
  eexists. split; [vm_compute; reflexivity|].
  apply (Player_runTick_one_tile 16 10 100 up_right_input sample_grid 0
           (player_at 16 0 2) _ 11).
  vm_compute. reflexivity.
Defined.

(** Nothing pressed: the tick of the player is the tick of the base
    class. *)
Lemma Player_runTick_no_input_witness :
  (∀ d, player_input no_input 0 d = false)
  ∧ Player_runTick 16 10 100 no_input sample_grid 0 (player_at 16 0 2) 11
    = Some (GameObject_runTick 10 100 (player_at 16 0 2) 11).
Proof.
  assert (∀ d, player_input no_input 0 d = false) as Hno by (intros d; reflexivity).
  split; [exact Hno|].
  exact (proj1 (Player_runTick_no_input 16 10 100 no_input sample_grid 0
                  (player_at 16 0 2) 11) Hno).
Defined.

(** A tick of the world of the receding player keeps the map and the
    number of objects. *)
Lemma GameManager_runTick_keeps_witness :
  GameManager_runTick 16 10 100 8 no_input receding_world 11 = Some receding_world_next
  ∧ map_manager receding_world_next = sample_grid
  ∧ length (objects receding_world_next) = 2%nat.
Proof.
  assert (GameManager_runTick 16 10 100 8 no_input receding_world 11
          = Some receding_world_next) as Hrun by (vm_compute; reflexivity).
  split; [exact Hrun|].
  destruct (GameManager_runTick_keeps 16 10 100 8 no_input receding_world
              receding_world_next 11 Hrun) as (Hmap & _ & Hlen & _).
  split; [exact Hmap|exact Hlen].
Defined.

(** The camera of the world of the receding player after a tick: the
    mean of the centres (8, 8) and (328, 264). *)
Lemma GameManager_runTick_camera_witness :
  GameManager_runTick 16 10 100 8 no_input receding_world 11 = Some receding_world_next
  ∧ anchor_centers 16 (objects receding_world_next) ≠ []
  ∧ center_x (renderer receding_world_next) = 168
  ∧ center_y (renderer receding_world_next) = 136.
Proof.
  assert (GameManager_runTick 16 10 100 8 no_input receding_world 11
          = Some receding_world_next) as Hrun by (vm_compute; reflexivity).
  assert (anchor_centers 16 (objects receding_world_next) ≠ []) as Hne
    by (vm_compute; discriminate).
  split; [exact Hrun|]. split; [exact Hne|].
  destruct (GameManager_runTick_camera 16 10 100 8 no_input receding_world
              receding_world_next 11 Hrun) as [_ Hmean].
  exact (Hmean Hne).
Defined.

(** The multiplier of the second scan of the receding world, whose
    bounding box is 321 pixels wide and 256 high, is 6 for every
    sufficient fuel. *)
Lemma scan_multiplier_least_witness :
  0 < 16
  ∧ span_x receding_scan2 + 4 * 16 ≤ INT_MAX
  ∧ scan_multiplier 16 400 receding_scan2 = Some 6
  ∧ ∃ mult, scan_multiplier 16 400 receding_scan2 = Some mult
      ∧ 5 ≤ mult ≤ INT_MAX
      ∧ (span_x receding_scan2 ≤ 4 * mult * 16 ∨ span_y receding_scan2 ≤ 3 * mult * 16)
      ∧ 4 * mult * 16 ≤ INT_MAX.
Proof.
  assert (0 < 16) as HT by lia.
  assert (4 * 5 * 16 ≤ INT_MAX) as Hbase by (vm_compute; discriminate).
  assert (INT_MIN ≤ min_x receding_scan2 ≤ INT_MAX) as Hx0
    by (vm_compute; split; discriminate).
  assert (INT_MIN ≤ max_x receding_scan2 ≤ INT_MAX) as Hx1
    by (vm_compute; split; discriminate).
  assert (INT_MIN ≤ min_y receding_scan2 ≤ INT_MAX) as Hy0
    by (vm_compute; split; discriminate).
  assert (INT_MIN ≤ max_y receding_scan2 ≤ INT_MAX) as Hy1
    by (vm_compute; split; discriminate).
  assert (- INT_MAX ≤ max_x receding_scan2 - min_x receding_scan2 ≤ INT_MAX) as Hdx
    by (vm_compute; split; discriminate).
  assert (- INT_MAX ≤ max_y receding_scan2 - min_y receding_scan2 ≤ INT_MAX) as Hdy
    by (vm_compute; split; discriminate).
  assert (span_x receding_scan2 + 4 * 16 ≤ INT_MAX) as Hroom
    by (vm_compute; discriminate).
  split; [exact HT|]. split; [exact Hroom|].
  split; [vm_compute; reflexivity|].
  destruct (scan_multiplier_least 16 receding_scan2 HT Hbase Hx0 Hx1 Hy0 Hy1
              Hdx Hdy Hroom)
    as (mult & Hfuel & Hge & Hfit & _ & Hint & _).
  exists mult. split; [|split; [exact Hge|split; [exact Hfit|]]].
  - apply Hfuel. vm_compute. lia.
  - apply (Hint mult). lia.
Defined.

(** The world that the constructor builds on the sample grid, after a
    tick with up and right pressed: baseline viewport. *)
Lemma GameManager_runTick_single_anchor_witness :
  0 ≤ 16
  ∧ ∃ gm', GameManager_runTick 16 10 100 1 up_right_input
             (GameManager_new 16 sample_grid 0) 11 = Some gm'
      ∧ width (renderer gm') = 320 ∧ height (renderer gm') = 240.
Proof.
  assert (0 ≤ 16) as HT by lia.
  split; [exact HT|].
  eexists. split; [vm_compute; reflexivity|].
  destruct (GameManager_runTick_single_anchor 16 10 100 1 up_right_input
              (GameManager_new 16 sample_grid 0) _ (Player_new 16 sample_grid 0 0) 11
              HT eq_refl eq_refl ltac:(vm_compute; reflexivity))
    as (o' & Hobjs & Hrender).
  injection Hobjs as <-.
  rewrite Hrender; [split; reflexivity| |]; vm_compute; split; discriminate.
Defined.
